(** * A shallow embedding of the reactivity engine of src/reactivity.ts

    [Module Core] embeds the dependency graph ([track], [trigger]), the
    observers created by [effect], the single-value cells ([RefImpl],
    [ShallowRefImpl]), [ComputedRefImpl], [watch], [batch] and
    [flushBatch].  The module-level variables of the source become the
    fields of one [State] record that is threaded through every call.

    User callbacks (effect bodies, cleanups, getters, setters, schedulers,
    watch callbacks, the function given to [batch]) are closures in the
    source.  They are represented by handles into a table [funs] of small
    command lists, and run by an interpreter with fuel, because observers
    may trigger one another without bound.

    [Module Observed] embeds [reactive] and the two proxy handler tables over
    an explicit heap of objects and arrays.

    [Module Wellformed] states the invariants the engine keeps of its
    state, [Module Utilities] embeds [setConfig], [getConfig],
    [getEffectStats] and [clearReactivityState], and [Module Deep] embeds
    [deepEqual] on objects that are not proxies.

    Not embedded: [EffectScopeImpl], [traverse] and [deepClone] and with
    them the [deep] mode of [watch], symbol keys, and the console output
    guarded by [config.enableDebug]. *)

From Stdlib Require Import ZArith Lia SpecFloat.
From stdpp Require Import base option list gmap strings.

Set Warnings "-register-all".

Module Core.

(** ** Values *)

(** What a cell can hold.  Functions and objects are compared by identity, so
    they are represented by their handle. *)
Inductive value :=
| VUndefined
| VNull
| VBool (b : bool)
| VNumber (x : spec_float)
| VString (s : string)
| VFunction (f : nat)
| VObject (a : nat).

(** ECMAScript SameValue on numbers: NaN is the same value as NaN, the two
    zeros are different values, any other pair is compared numerically. *)
Definition SameValueNumber (x y : spec_float) : bool :=
  match x, y with
  | S754_nan, S754_nan => true
  | S754_zero sx, S754_zero sy => Bool.eqb sx sy
  | _, _ => SFeqb x y
  end.

(** [Object.is(a, b)] *)
Definition Object_is (a b : value) : bool :=
  match a, b with
  | VUndefined, VUndefined => true
  | VNull, VNull => true
  | VBool x, VBool y => Bool.eqb x y
  | VNumber x, VNumber y => SameValueNumber x y
  | VString x, VString y => String.eqb x y
  | VFunction f, VFunction g => Nat.eqb f g
  | VObject a, VObject b => Nat.eqb a b
  | _, _ => false
  end.

(** [a === b], for comparison with [Object_is]. *)
Definition strict_equals (a b : value) : bool :=
  match a, b with
  | VNumber x, VNumber y => SFeqb x y
  | _, _ => Object_is a b
  end.

Definition NaN : value := VNumber S754_nan.
Definition pos_zero : value := VNumber (S754_zero false).
Definition neg_zero : value := VNumber (S754_zero true).
Definition num (z : Z) : value :=
  VNumber match z with
          | Z0 => S754_zero false
          | Zpos p => S754_finite false p 0
          | Zneg p => S754_finite true p 0
          end.

(** The value a watcher compares: [getSourceValue] maps an array of sources
    to a fresh array of values. *)
Inductive wvalue :=
| WValue (v : value)
| WArray (l : list wvalue).

(** ** Targets and keys of the dependency graph *)

Inductive target :=
| TRef (r : nat)
| TComputed (c : nat).

#[global] Instance target_eq_dec : EqDecision target.
Proof. solve_decision. Defined.

#[global] Instance target_countable : Countable target.
Proof.
  refine (inj_countable'
            (fun t => match t with TRef r => inl r | TComputed c => inr c end)
            (fun x => match x with inl r => TRef r | inr c => TComputed c end) _).
  intros []; reflexivity.
Defined.

(** ** Observers *)

Inductive sched :=
| UserScheduler (f : nat)          (* options.scheduler *)
| ComputedScheduler (c : nat).     (* the closure built by ComputedRefImpl *)

Inductive body :=
| UpdateFn (f : nat)               (* effect(update) *)
| WatchUpdate (w : nat)            (* the closure watch() passes to effect() *)
| Getter (f : nat).                (* createComputedEffect(fn) *)

(** An [EffectFn] with its own properties; [result] and [isStopped] are the
    closure variables of [createComputedEffect]. *)
Record EffectFn := mkEffectFn {
  e_body : body;
  isActive : bool;
  cleanup : option nat;
  deps : list (target * string);
  scheduler : option sched;
  result : value;
  isStopped : bool
}.

Definition set_isActive (b : bool) (ef : EffectFn) : EffectFn :=
  mkEffectFn (e_body ef) b (cleanup ef) (deps ef) (scheduler ef) (result ef) (isStopped ef).
Definition set_cleanup (c : option nat) (ef : EffectFn) : EffectFn :=
  mkEffectFn (e_body ef) (isActive ef) c (deps ef) (scheduler ef) (result ef) (isStopped ef).
Definition set_deps (d : list (target * string)) (ef : EffectFn) : EffectFn :=
  mkEffectFn (e_body ef) (isActive ef) (cleanup ef) d (scheduler ef) (result ef) (isStopped ef).
Definition set_result (v : value) (ef : EffectFn) : EffectFn :=
  mkEffectFn (e_body ef) (isActive ef) (cleanup ef) (deps ef) (scheduler ef) v (isStopped ef).

Record ComputedRefImpl := mkComputed {
  c_value : value;
  c_dirty : bool;
  c_isSetting : bool;
  c_getter : nat;
  c_setter : option nat;
  c_runner : nat
}.

Definition set_c_value (v : value) (c : ComputedRefImpl) : ComputedRefImpl :=
  mkComputed v (c_dirty c) (c_isSetting c) (c_getter c) (c_setter c) (c_runner c).
Definition set_c_dirty (b : bool) (c : ComputedRefImpl) : ComputedRefImpl :=
  mkComputed (c_value c) b (c_isSetting c) (c_getter c) (c_setter c) (c_runner c).
Definition set_c_isSetting (b : bool) (c : ComputedRefImpl) : ComputedRefImpl :=
  mkComputed (c_value c) (c_dirty c) b (c_getter c) (c_setter c) (c_runner c).

Inductive source :=
| SrcFunction (f : nat)
| SrcRef (r : nat)
| SrcComputed (c : nat)
| SrcArray (l : list source)
| SrcValue (v : value).

(** The closure variables of one [watch] call. *)
Record Watch := mkWatch {
  w_source : source;
  w_callback : nat;
  w_immediate : bool;
  oldValue : wvalue;
  isFirstRun : bool;
  pendingCleanup : option nat;
  w_stop : nat
}.

Definition set_oldValue (v : wvalue) (w : Watch) : Watch :=
  mkWatch (w_source w) (w_callback w) (w_immediate w) v (isFirstRun w) (pendingCleanup w) (w_stop w).
Definition set_isFirstRun (b : bool) (w : Watch) : Watch :=
  mkWatch (w_source w) (w_callback w) (w_immediate w) (oldValue w) b (pendingCleanup w) (w_stop w).
Definition set_pendingCleanup (c : option nat) (w : Watch) : Watch :=
  mkWatch (w_source w) (w_callback w) (w_immediate w) (oldValue w) (isFirstRun w) c (w_stop w).

(** ** The state of the reactive system *)

Record ReactivityConfig := mkConfig {
  enableDebug : bool;
  cyclePrevention : bool;
  batchUpdates : bool;
  deepReactiveMaxDepth : Z;
  trackingDepth : Z
}.

Definition DEFAULT_CONFIG : ReactivityConfig := mkConfig false true true 10 100.

(** [effectStack] is kept with the top of the stack first.  [updateQueue],
    [scheduledEffects] and the dependency sets are JavaScript [Set]s: lists
    without repetition, in insertion order.  [effects], [refs], [computeds]
    and [watches] are the arenas of the objects created so far, a handle being
    an index.  [deferred] holds the jobs a user scheduler has put aside. *)
Record State := mkState {
  config : ReactivityConfig;
  targetMap : gmap (target * string) (list nat);
  effectStack : list nat;
  activeEffect : option nat;
  shouldTrack : bool;
  updateQueue : list nat;
  scheduledEffects : list nat;
  batchStack : Z;
  isBatching : bool;
  effects : list EffectFn;
  refs : list value;
  computeds : list ComputedRefImpl;
  watches : list Watch;
  deferred : list nat
}.

Definition set_config v s := mkState v (targetMap s) (effectStack s) (activeEffect s) (shouldTrack s) (updateQueue s) (scheduledEffects s) (batchStack s) (isBatching s) (effects s) (refs s) (computeds s) (watches s) (deferred s).
Definition set_targetMap v s := mkState (config s) v (effectStack s) (activeEffect s) (shouldTrack s) (updateQueue s) (scheduledEffects s) (batchStack s) (isBatching s) (effects s) (refs s) (computeds s) (watches s) (deferred s).
Definition set_effectStack v s := mkState (config s) (targetMap s) v (activeEffect s) (shouldTrack s) (updateQueue s) (scheduledEffects s) (batchStack s) (isBatching s) (effects s) (refs s) (computeds s) (watches s) (deferred s).
Definition set_activeEffect v s := mkState (config s) (targetMap s) (effectStack s) v (shouldTrack s) (updateQueue s) (scheduledEffects s) (batchStack s) (isBatching s) (effects s) (refs s) (computeds s) (watches s) (deferred s).
Definition set_updateQueue v s := mkState (config s) (targetMap s) (effectStack s) (activeEffect s) (shouldTrack s) v (scheduledEffects s) (batchStack s) (isBatching s) (effects s) (refs s) (computeds s) (watches s) (deferred s).
Definition set_scheduledEffects v s := mkState (config s) (targetMap s) (effectStack s) (activeEffect s) (shouldTrack s) (updateQueue s) v (batchStack s) (isBatching s) (effects s) (refs s) (computeds s) (watches s) (deferred s).
Definition set_batchStack v s := mkState (config s) (targetMap s) (effectStack s) (activeEffect s) (shouldTrack s) (updateQueue s) (scheduledEffects s) v (isBatching s) (effects s) (refs s) (computeds s) (watches s) (deferred s).
Definition set_isBatching v s := mkState (config s) (targetMap s) (effectStack s) (activeEffect s) (shouldTrack s) (updateQueue s) (scheduledEffects s) (batchStack s) v (effects s) (refs s) (computeds s) (watches s) (deferred s).
Definition set_effects v s := mkState (config s) (targetMap s) (effectStack s) (activeEffect s) (shouldTrack s) (updateQueue s) (scheduledEffects s) (batchStack s) (isBatching s) v (refs s) (computeds s) (watches s) (deferred s).
Definition set_refs v s := mkState (config s) (targetMap s) (effectStack s) (activeEffect s) (shouldTrack s) (updateQueue s) (scheduledEffects s) (batchStack s) (isBatching s) (effects s) v (computeds s) (watches s) (deferred s).
Definition set_computeds v s := mkState (config s) (targetMap s) (effectStack s) (activeEffect s) (shouldTrack s) (updateQueue s) (scheduledEffects s) (batchStack s) (isBatching s) (effects s) (refs s) v (watches s) (deferred s).
Definition set_watches v s := mkState (config s) (targetMap s) (effectStack s) (activeEffect s) (shouldTrack s) (updateQueue s) (scheduledEffects s) (batchStack s) (isBatching s) (effects s) (refs s) (computeds s) v (deferred s).
Definition set_deferred v s := mkState (config s) (targetMap s) (effectStack s) (activeEffect s) (shouldTrack s) (updateQueue s) (scheduledEffects s) (batchStack s) (isBatching s) (effects s) (refs s) (computeds s) (watches s) v.

(** The state right after the module is loaded (and after
    [clearReactivityState]). *)
Definition initial : State :=
  mkState DEFAULT_CONFIG ∅ [] None true [] [] 0 false [] [] [] [] [].

Definition upd_effect (e : nat) (f : EffectFn → EffectFn) (s : State) : State :=
  set_effects (alter f e (effects s)) s.
Definition upd_computed (c : nat) (f : ComputedRefImpl → ComputedRefImpl) (s : State) : State :=
  set_computeds (alter f c (computeds s)) s.
Definition upd_watch (w : nat) (f : Watch → Watch) (s : State) : State :=
  set_watches (alter f w (watches s)) s.

(** ** Observable events

    What a run does that a test of the library can count: which observer
    function was called, which body, cleanup, scheduler or watch callback was
    entered, and what was written to [console.error]. *)
Inductive event :=
| EvInvoke (e : nat)                        (* effectFn() entered *)
| EvCleanup (e : nat)                       (* effectFn.cleanup() called *)
| EvBody (e : nat)                          (* update() / fn() called *)
| EvScheduler (e : nat)                     (* effect.scheduler(job) called *)
| EvCallback (w : nat) (new old : wvalue)   (* the watch callback called *)
| EvWatchCleanup (w : nat)                  (* pendingCleanup() called *)
| EvError.                                  (* console.error *)

#[global] Instance spec_float_eq_dec : EqDecision spec_float.
Proof. solve_decision. Defined.

#[global] Instance value_eq_dec : EqDecision value.
Proof. solve_decision. Defined.

Fixpoint wvalue_eqb (a b : wvalue) : bool :=
  match a, b with
  | WValue x, WValue y => bool_decide (x = y)
  | WArray l, WArray m =>
      (fix go (l m : list wvalue) : bool :=
         match l, m with
         | [], [] => true
         | x :: l', y :: m' => wvalue_eqb x y && go l' m'
         | _, _ => false
         end) l m
  | _, _ => false
  end.

(** ** The monad of the embedding: state, exceptions, events, fuel *)

Inductive outcome (A : Type) :=
| Returned (a : A) (s : State) (tr : list event)
| Thrown (s : State) (tr : list event)
| OutOfFuel.
Arguments Returned {A} a s tr.
Arguments Thrown {A} s tr.
Arguments OutOfFuel {A}.

Definition M (A : Type) : Type := State → outcome A.

Definition ret {A} (a : A) : M A := fun s => Returned a s [].
Definition throw {A} : M A := fun s => Thrown s [].
Definition emit (ev : event) : M unit := fun s => Returned tt s [ev].
Definition modify (f : State → State) : M unit := fun s => Returned tt (f s) [].

Definition prepend {A} (tr : list event) (o : outcome A) : outcome A :=
  match o with
  | Returned a s t => Returned a s (tr ++ t)
  | Thrown s t => Thrown s (tr ++ t)
  | OutOfFuel => OutOfFuel
  end.

Definition bind {A B} (m : M A) (k : A → M B) : M B := fun s =>
  match m s with
  | Returned a s1 t1 => prepend t1 (k a s1)
  | Thrown s1 t1 => Thrown s1 t1
  | OutOfFuel => OutOfFuel
  end.

(** [try { m } finally { fin }], for a [finally] block that only assigns. *)
Definition try_finally {A} (m : M A) (fin : State → State) : M A := fun s =>
  match m s with
  | Returned a s1 t => Returned a (fin s1) t
  | Thrown s1 t => Thrown (fin s1) t
  | OutOfFuel => OutOfFuel
  end.

(** [try { m } catch { h }] *)
Definition try_catch {A} (m : M A) (h : M A) : M A := fun s =>
  match m s with
  | Thrown s1 t => prepend t (h s1)
  | o => o
  end.

Declare Scope m_scope.
Delimit Scope m_scope with M.
Notation "'let*' x ':=' m 'in' k" := (bind m (fun x => k))
  (at level 10, x name, m at level 200, k at level 200) : m_scope.
Notation "m1 >>> m2" := (bind m1 (fun _ => m2))
  (at level 90, right associativity) : m_scope.
Open Scope m_scope.

Definition trace_of {A} (o : outcome A) : list event :=
  match o with
  | Returned _ _ t => t
  | Thrown _ t => t
  | OutOfFuel => []
  end.

Definition state_of {A} (o : outcome A) : option State :=
  match o with
  | Returned _ s _ => Some s
  | Thrown s _ => Some s
  | OutOfFuel => None
  end.

(** ** User code *)

(** What is passed to a user function: the argument of a setter, the job of
    a scheduler, the [registerCleanup] of a watch callback. *)
Record ctx := mkCtx {
  arg : value;
  job : option nat;
  onCleanup : option nat
}.

Definition no_ctx : ctx := mkCtx VUndefined None None.

(** The statements a user function is made of.  A function returns the value
    of its last statement. *)
Inductive cmd :=
| Const (v : value)
| Arg
| RefNew (v : value)                                  (* ref(v), shallowRef(v) *)
| RefGet (r : nat)                                    (* r.value *)
| RefSet (r : nat) (v : value)                        (* r.value = v *)
| RefSetArg (r : nat)                                 (* r.value = (the argument) *)
| ComputedNew (getter : nat) (setter : option nat)    (* computed(...) *)
| ComputedGet (c : nat)                               (* c.value *)
| ComputedSet (c : nat) (v : value)                   (* c.value = v *)
| EffectNew (update : nat) (lazy : bool) (sch : option nat)
| Stop (e : nat)                                      (* the stop function of effect e *)
| WatchNew (src : source) (cb : nat) (immediate : bool)
| WatchStop (w : nat)                                 (* the stop handle of watch w *)
| BatchCall (fn : nat)                                (* batch(fn) *)
| FlushUpdates                                        (* flushUpdates() *)
| ThrowError                                          (* throw new Error() *)
| RunJob                                              (* job(), inside a scheduler *)
| DeferJob                                            (* the scheduler keeps job for later *)
| RunDeferred                                         (* the oldest kept job is called *)
| OnCleanup (f : nat).                                (* registerCleanup(f), inside a watch callback *)

(** The calls that go back into user code or re-enter [trigger]. *)
Inductive call :=
| CallFunction (c : ctx) (f : nat)
| CallComputedScheduler (c : nat).

(** ** The library, over an arbitrary way [rec] of calling back *)

Section Library.

Variable rec : call → M value.

Definition call_function (c : ctx) (f : nat) : M value := rec (CallFunction c f).

(** [set.add(x)] and [set.delete(x)] on a JavaScript [Set]. *)
Definition set_add (l : list nat) (x : nat) : list nat :=
  if bool_decide (x ∈ l) then l else l ++ [x].
Definition set_delete (l : list nat) (x : nat) : list nat :=
  filter (fun y => y ≠ x) l.

Definition is_active (s : State) (e : nat) : bool :=
  match effects s !! e with
  | Some ef => isActive ef
  | None => false
  end.

Definition dep_of (s : State) (k : target * string) : list nat :=
  default [] (targetMap s !! k).

(** *** Dependency tracking *)

(** [track(target, key)] *)
Definition track (t : target) (key : string) : M unit := fun s =>
  match activeEffect s with
  | Some e =>
      if negb (shouldTrack s) || negb (is_active s e) then Returned tt s []
      else
        let dep := dep_of s (t, key) in
        if bool_decide (e ∈ dep) then Returned tt s []
        else
          Returned tt
            (upd_effect e (fun ef => set_deps (deps ef ++ [(t, key)]) ef)
               (set_targetMap (<[(t, key) := dep ++ [e]]> (targetMap s)) s)) []
  | None => Returned tt s []
  end.

(** [cleanupEffect(effectFn)] *)
Definition cleanupEffect (e : nat) : M unit := fun s =>
  match effects s !! e with
  | Some ef =>
      let tm := foldl (fun tm k => alter (fun dep => set_delete dep e) k tm)
                      (targetMap s) (deps ef) in
      Returned tt (upd_effect e (set_deps []) (set_targetMap tm s)) []
  | None => Returned tt s []
  end.

Definition push_effect (e : nat) (s : State) : State :=
  set_activeEffect (Some e) (set_effectStack (e :: effectStack s) s).

(** [effectStack.pop(); activeEffect = top of the stack, or null] *)
Definition pop_effect (s : State) : State :=
  let st := tail (effectStack s) in
  set_activeEffect (head st) (set_effectStack st s).

(** *** Cells *)

(** [get value()] of [RefImpl] and [ShallowRefImpl] *)
Definition ref_get (r : nat) : M value :=
  track (TRef r) "value" >>>
  fun s => Returned (default VUndefined (refs s !! r)) s [].

(** *** Computed cells *)

(** The [effectFn] of [createComputedEffect]. *)
Definition computed_effectFn (e : nat) : M value :=
  emit (EvInvoke e) >>>
  fun s =>
    match effects s !! e with
    | Some ef =>
        if isStopped ef then Returned (result ef) s []
        else
          match e_body ef with
          | Getter fn =>
              try_finally
                (modify (push_effect e) >>>
                 emit (EvBody e) >>>
                 let* v := call_function no_ctx fn in
                 modify (upd_effect e (set_result v)) >>>
                 ret v)
                pop_effect s
          | _ => Returned VUndefined s []
          end
    | None => Returned VUndefined s []
    end.

(** [get value()] of [ComputedRefImpl] *)
Definition computed_get (c : nat) : M value :=
  track (TComputed c) "value" >>>
  fun s =>
    match computeds s !! c with
    | Some cr =>
        if c_dirty cr then
          (let* v := computed_effectFn (c_runner cr) in
           modify (upd_computed c (set_c_value v)) >>>
           modify (upd_computed c (set_c_dirty false)) >>>
           fun s' => Returned (default VUndefined (c_value <$> computeds s' !! c)) s' []) s
        else Returned (c_value cr) s []
    | None => Returned VUndefined s []
    end.

(** *** Watchers *)

(** [getSourceValue(source)] *)
Fixpoint getSourceValue (src : source) : M wvalue :=
  match src with
  | SrcFunction f => let* v := call_function no_ctx f in ret (WValue v)
  | SrcRef r => let* v := ref_get r in ret (WValue v)
  | SrcComputed c => let* v := computed_get c in ret (WValue v)
  | SrcArray l =>
      let* vs :=
        (fix map (l : list source) : M (list wvalue) :=
           match l with
           | [] => ret []
           | x :: l' =>
               let* v := getSourceValue x in
               let* vs := map l' in
               ret (v :: vs)
           end) l in
      ret (WArray vs)
  | SrcValue v => ret (WValue v)
  end.

(** [Object.is] on what a watcher holds; an array made by [getSourceValue]
    is a new object each time. *)
Definition same_wvalue (a b : wvalue) : bool :=
  match a, b with
  | WValue x, WValue y => Object_is x y
  | _, _ => false
  end.

(** The [hasChanged] test of [watch], for [deep: false]. *)
Definition hasChanged (old new : wvalue) : bool :=
  match new, old with
  | WArray ns, WArray os =>
      existsb (fun p => negb (same_wvalue (fst p) (default (WValue VUndefined) (os !! snd p))))
              (zip ns (seq 0 (length ns)))
  | _, _ => negb (same_wvalue old new)
  end.

Definition wvalue_arg (v : wvalue) : value :=
  match v with
  | WValue x => x
  | WArray _ => VUndefined
  end.

Definition call_callback (w : nat) (new old : wvalue) : M unit := fun s =>
  match watches s !! w with
  | Some wr =>
      (emit (EvCallback w new old) >>>
       call_function (mkCtx (wvalue_arg new) None (Some w)) (w_callback wr) >>>
       ret tt) s
  | None => Returned tt s []
  end.

(** The function [watch] passes to [effect]. *)
Definition watch_update (w : nat) : M value := fun s =>
  match watches s !! w with
  | Some wr =>
      (let* newValue := getSourceValue (w_source wr) in
       fun s1 =>
         match watches s1 !! w with
         | Some wr1 =>
             if isFirstRun wr1 then
               ((if w_immediate wr1
                 then call_callback w newValue (WValue VUndefined)
                 else ret tt) >>>
                modify (upd_watch w (set_oldValue newValue)) >>>
                modify (upd_watch w (set_isFirstRun false)) >>>
                ret VUndefined) s1
             else if hasChanged (oldValue wr1) newValue then
               ((match pendingCleanup wr1 with
                 | Some pc =>
                     emit (EvWatchCleanup w) >>>
                     call_function no_ctx pc >>>
                     modify (upd_watch w (set_pendingCleanup None))
                 | None => ret tt
                 end) >>>
                (fun s2 =>
                   call_callback w newValue
                     (default (WValue VUndefined) (oldValue <$> watches s2 !! w)) s2) >>>
                modify (upd_watch w (set_oldValue newValue)) >>>
                ret VUndefined) s1
             else Returned VUndefined s1 []
         | None => Returned VUndefined s1 []
         end) s
  | None => Returned VUndefined s []
  end.

(** *** Observers *)

(** [update()], for the two kinds of function [effect] is called with. *)
Definition call_update (b : body) : M value :=
  match b with
  | UpdateFn f => call_function no_ctx f
  | WatchUpdate w => watch_update w
  | Getter f => call_function no_ctx f
  end.

(** The [effectFn] of [effect]. *)
Definition effectFn (e : nat) : M value :=
  emit (EvInvoke e) >>>
  (fun s =>
     match cleanup <$> effects s !! e with
     | Some (Some c) =>
         (emit (EvCleanup e) >>>
          call_function no_ctx c >>>
          modify (upd_effect e (set_cleanup None))) s
     | _ => Returned tt s []
     end) >>>
  try_finally
    (modify (push_effect e) >>>
     emit (EvBody e) >>>
     let* res := (fun s => match effects s !! e with
                           | Some ef => call_update (e_body ef) s
                           | None => Returned VUndefined s []
                           end) in
     match res with
     | VFunction f => modify (upd_effect e (set_cleanup (Some f)))
     | _ => ret tt
     end)
    pop_effect >>>
  ret VUndefined.

(** [effect()], for an [effect] found in a dependency set or in the queue:
    it is the function made by [effect] or by [createComputedEffect]. *)
Definition call_effect (e : nat) : M value := fun s =>
  match effects s !! e with
  | Some ef =>
      match e_body ef with
      | Getter _ => computed_effectFn e s
      | _ => effectFn e s
      end
  | None => Returned VUndefined s [EvInvoke e]
  end.

(** *** Triggering *)

(** The set [effectsToRun] built by [trigger]. *)
Definition effectsToRun (s : State) (dep : list nat) : list nat :=
  foldl (fun acc e =>
           if bool_decide (activeEffect s ≠ Some e) && is_active s e
           then set_add acc e else acc)
        [] dep.

(** The two branches of the body of [effectsToRun.forEach] in [trigger]:
    inside a batch the observer is queued, otherwise it is handed to its
    scheduler or called. *)
Definition enqueue (e : nat) : M unit := fun s =>
  if bool_decide (e ∈ scheduledEffects s) then Returned tt s []
  else
    Returned tt
      (set_scheduledEffects (set_add (scheduledEffects s) e)
         (set_updateQueue (set_add (updateQueue s) e) s)) [].

Definition dispatch (e : nat) : M unit := fun s =>
  match effects s !! e ≫= scheduler with
  | Some (UserScheduler f) =>
      (emit (EvScheduler e) >>>
       call_function (mkCtx VUndefined (Some e) None) f >>>
       ret tt) s
  | Some (ComputedScheduler c) =>
      (emit (EvScheduler e) >>>
       rec (CallComputedScheduler c) >>>
       ret tt) s
  | None => (call_effect e >>> ret tt) s
  end.

Definition route (e : nat) : M unit := fun s =>
  if batchUpdates (config s) && isBatching s then enqueue e s else dispatch e s.

Fixpoint forEach {A} (f : A → M unit) (l : list A) : M unit :=
  match l with
  | [] => ret tt
  | x :: l' => f x >>> forEach f l'
  end.

(** [trigger(target, key)] *)
Definition trigger (t : target) (key : string) : M unit := fun s =>
  match targetMap s !! (t, key) with
  | Some dep => forEach route (effectsToRun s dep) s
  | None => Returned tt s []
  end.

(** [set value(newValue)] of [RefImpl] and [ShallowRefImpl] *)
Definition ref_set (r : nat) (newValue : value) : M unit := fun s =>
  if negb (Object_is (default VUndefined (refs s !! r)) newValue) then
    (modify (fun s => set_refs (<[r := newValue]> (refs s)) s) >>>
     trigger (TRef r) "value") s
  else Returned tt s [].

(** The scheduler [ComputedRefImpl] gives to its runner. *)
Definition computed_scheduler (c : nat) : M unit := fun s =>
  match computeds s !! c with
  | Some cr =>
      if negb (c_dirty cr) then
        (modify (upd_computed c (set_c_dirty true)) >>>
         if negb (c_isSetting cr) then trigger (TComputed c) "value" else ret tt) s
      else Returned tt s []
  | None => Returned tt s []
  end.

(** [set value(newValue)] of [ComputedRefImpl] *)
Definition computed_set (c : nat) (newValue : value) : M unit := fun s =>
  match computeds s !! c with
  | Some cr =>
      match c_setter cr with
      | Some setter =>
          (modify (upd_computed c (set_c_isSetting true)) >>>
           try_finally
             (call_function (mkCtx newValue None None) setter >>>
              modify (upd_computed c (set_c_dirty true)) >>>
              trigger (TComputed c) "value")
             (upd_computed c (set_c_isSetting false))) s
      | None => Returned tt s []
      end
  | None => Returned tt s []
  end.

(** *** Batching *)

(** The body of [effects.forEach] in [flushBatch]. *)
Definition flush_one (e : nat) : M unit :=
  try_catch (call_effect e >>> ret tt) (emit EvError).

(** [flushBatch()] *)
Definition flushBatch : M unit := fun s =>
  let effects := updateQueue s in
  (modify (fun s => set_scheduledEffects [] (set_updateQueue []
             (set_batchStack 0 (set_isBatching false s)))) >>>
   forEach flush_one effects) s.

(** [batch(fn)] *)
Definition batch (fn : nat) : M value := fun s =>
  let wasBatching := isBatching s in
  (modify (fun s => set_isBatching true (set_batchStack (batchStack s + 1) s)) >>>
   try_catch
     (let* res := call_function no_ctx fn in
      modify (fun s => set_batchStack (batchStack s - 1) s) >>>
      (fun s => if bool_decide (batchStack s = 0%Z) && negb wasBatching
                then flushBatch s else Returned tt s []) >>>
      ret res)
     (modify (fun s => set_scheduledEffects [] (set_updateQueue []
                (set_isBatching false (set_batchStack 0 s)))) >>>
      throw)) s.

(** [flushUpdates()] *)
Definition flushUpdates : M unit := fun s =>
  if isBatching s then flushBatch s else Returned tt s [].

(** *** Creating and stopping *)

(** [ref(initialValue)] and [shallowRef(initialValue)]; the handle of the new
    cell is returned. *)
Definition ref (initialValue : value) : M nat := fun s =>
  Returned (length (refs s)) (set_refs (refs s ++ [initialValue]) s) [].

(** [computed(getterOrOptions)]: the new [ComputedRefImpl] with its lazy
    runner. *)
Definition computed (getter : nat) (setter : option nat) : M nat := fun s =>
  let c := length (computeds s) in
  let e := length (effects s) in
  Returned c
    (set_computeds (computeds s ++ [mkComputed VUndefined true false getter setter e])
       (set_effects
          (effects s ++ [mkEffectFn (Getter getter) true None []
                           (Some (ComputedScheduler c)) VUndefined false]) s)) [].

(** The [stop] function made by [effect]. *)
Definition stop (e : nat) : M unit := fun s =>
  if is_active s e then
    (cleanupEffect e >>>
     modify (upd_effect e (set_isActive false)) >>>
     (fun s =>
        match cleanup <$> effects s !! e with
        | Some (Some c) => (emit (EvCleanup e) >>> call_function no_ctx c >>> ret tt) s
        | _ => Returned tt s []
        end) >>>
     modify (fun s => set_updateQueue (set_delete (updateQueue s) e) s) >>>
     modify (fun s => set_scheduledEffects (set_delete (scheduledEffects s) e) s)) s
  else Returned tt s [].

(** [effect(update, options)]; the handle of the new observer stands for the
    [stop] function that is returned. *)
Definition effect (update : body) (lazy : bool) (sch : option nat) : M nat := fun s =>
  let e := length (effects s) in
  (modify (set_effects
             (effects s ++ [mkEffectFn update true None [] (UserScheduler <$> sch)
                              VUndefined false])) >>>
   (if lazy then ret VUndefined else effectFn e) >>>
   ret e) s.

(** [watch(source, callback, options)], for [deep: false]. *)
Definition watch (src : source) (callback : nat) (immediate : bool) : M nat := fun s =>
  let w := length (watches s) in
  (modify (set_watches
             (watches s ++ [mkWatch src callback immediate (WValue VUndefined) true None
                              (length (effects s))])) >>>
   effect (WatchUpdate w) false None >>>
   ret w) s.

(** The stop handle returned by [watch]. *)
Definition watch_stop (w : nat) : M unit := fun s =>
  match watches s !! w with
  | Some wr =>
      (stop (w_stop wr) >>>
       fun s1 =>
         match watches s1 !! w ≫= pendingCleanup with
         | Some pc => (emit (EvWatchCleanup w) >>> call_function no_ctx pc >>> ret tt) s1
         | None => Returned tt s1 []
         end) s
  | None => Returned tt s []
  end.

(** *** Running user code *)

Definition exec_cmd (cx : ctx) (c : cmd) : M value :=
  match c with
  | Const v => ret v
  | Arg => ret (arg cx)
  | RefNew v => ref v >>> ret VUndefined
  | RefGet r => ref_get r
  | RefSet r v => ref_set r v >>> ret v
  | RefSetArg r => ref_set r (arg cx) >>> ret (arg cx)
  | ComputedNew g st => computed g st >>> ret VUndefined
  | ComputedGet c => computed_get c
  | ComputedSet c v => computed_set c v >>> ret v
  | EffectNew f lazy sch => effect (UpdateFn f) lazy sch >>> ret VUndefined
  | Stop e => stop e >>> ret VUndefined
  | WatchNew src cb imm => watch src cb imm >>> ret VUndefined
  | WatchStop w => watch_stop w >>> ret VUndefined
  | BatchCall fn => batch fn
  | FlushUpdates => flushUpdates >>> ret VUndefined
  | ThrowError => throw
  | RunJob =>
      match job cx with
      | Some e => call_effect e
      | None => ret VUndefined
      end
  | DeferJob =>
      match job cx with
      | Some e => modify (fun s => set_deferred (deferred s ++ [e]) s) >>> ret VUndefined
      | None => ret VUndefined
      end
  | RunDeferred =>
      fun s =>
        match deferred s with
        | e :: rest => (modify (set_deferred rest) >>> call_effect e) s
        | [] => Returned VUndefined s []
        end
  | OnCleanup f =>
      match onCleanup cx with
      | Some w => modify (upd_watch w (set_pendingCleanup (Some f))) >>> ret VUndefined
      | None => ret VUndefined
      end
  end.

Fixpoint exec_cmds (cx : ctx) (cs : list cmd) (last : value) : M value :=
  match cs with
  | [] => ret last
  | c :: cs' => let* v := exec_cmd cx c in exec_cmds cx cs' v
  end.

End Library.

(** ** Tying the knot *)

Section Run.

(** The table of the user functions of a program. *)
Variable funs : nat → list cmd.

Definition step (rec : call → M value) (c : call) : M value :=
  match c with
  | CallFunction cx f => exec_cmds rec cx (funs f) VUndefined
  | CallComputedScheduler c => computed_scheduler rec c >>> ret VUndefined
  end.

Fixpoint run (fuel : nat) (c : call) : M value :=
  match fuel with
  | O => fun _ => OutOfFuel
  | S fuel' => step (run fuel') c
  end.

(** A program: the function [main] called on the initial state. *)
Definition run_main (fuel : nat) (main : nat) : outcome value :=
  run fuel (CallFunction no_ctx main) initial.

End Run.

(** ** Notions used in the statements *)

(** The job a call hands to a scheduler. *)
Definition job_of (c : call) : option nat :=
  match c with
  | CallFunction cx _ => job cx
  | CallComputedScheduler _ => None
  end.


(** A function that only writes cells and calls [batch] on functions of the
    same kind, the nesting of [batch] being at most [depth] deep. *)
Definition write_cmd (writes : nat → bool) (c : cmd) : bool :=
  match c with
  | Const _ | Arg | RefSet _ _ | RefSetArg _ => true
  | BatchCall g => writes g
  | _ => false
  end.

Fixpoint writes_only (funs : nat → list cmd) (depth : nat) (f : nat) : bool :=
  match depth with
  | O => false
  | S d => forallb (write_cmd (writes_only funs d)) (funs f)
  end.




(** How many times a pending cleanup of watcher [w] was called. *)
Fixpoint watch_cleanups (w : nat) (tr : list event) : nat :=
  match tr with
  | [] => 0
  | EvWatchCleanup i :: tr' => (if Nat.eqb i w then 1 else 0) + watch_cleanups w tr'
  | _ :: tr' => watch_cleanups w tr'
  end.

(** The state an outcome ends in. *)
Definition after {A} (o : outcome A) : State :=
  match o with
  | Returned _ s _ | Thrown s _ => s
  | OutOfFuel => initial
  end.

End Core.

(** * The observed wrapper: [reactive] and the proxy handlers *)

Module Observed.

Import Core.

(** ** Objects on a heap *)

(** A property key: an array index, ["length"], the decimal string of a
    negative integer (what [i.toString()] gives in the splice loop), or any
    other name.  Names are taken to be such that [parseInt] gives NaN; symbol
    keys are left out. *)
Inductive key :=
| KIndex (i : nat)
| KLength
| KNegative (p : positive)
| KProp (s : string).

#[global] Instance key_eq_dec : EqDecision key.
Proof. solve_decision. Defined.

#[global] Instance key_countable : Countable key.
Proof.
  refine (inj_countable'
            (fun k => match k with
                      | KIndex i => inl (inl i)
                      | KLength => inl (inr tt)
                      | KNegative p => inr (inl p)
                      | KProp s => inr (inr s)
                      end)
            (fun x => match x with
                      | inl (inl i) => KIndex i
                      | inl (inr _) => KLength
                      | inr (inl p) => KNegative p
                      | inr (inr s) => KProp s
                      end) _).
  intros []; reflexivity.
Defined.

(** [i.toString()] as a key *)
Definition key_of_Z (i : Z) : key :=
  match i with
  | Z0 => KIndex 0
  | Zpos p => KIndex (Pos.to_nat p)
  | Zneg p => KNegative p
  end.

(** The constructors listed in [NON_REACTIVE_TYPES] whose instances have
    [typeof] equal to ['object']. *)
Inductive builtin := Date | RegExp | Map | Set_ | WeakMap | WeakSet.

(** An object of the heap, with its own properties.  An array keeps its
    elements ([None] is a hole) apart from its other properties. *)
Inductive object :=
| Plain (props : gmap key value)
| Array (elems : list (option value)) (extra : gmap key value)
| Opaque (b : builtin).

(** What [reactive] and a [get] trap return: a value as it is, the proxy
    whose target is at an address, or the function made by
    [createArrayMethodHandler(target, name)]. *)
Inductive view :=
| Raw (v : value)
| Proxy (a : nat)
| MethodHandler (target : nat) (name : string).

(** A call of [track] or [trigger], with the address of the target. *)
Inductive note :=
| Track (a : nat) (k : key)
| Trigger (a : nat) (k : key).

Record OState := mkOState {
  heap : list object;
  reactiveMap : gmap nat nat;       (* target ↦ target of its proxy *)
  maxDepth : Z;                     (* config.deepReactiveMaxDepth *)
  tracking : bool                   (* shouldTrack *)
}.

Definition set_heap h s := mkOState h (reactiveMap s) (maxDepth s) (tracking s).
Definition set_reactiveMap m s := mkOState (heap s) m (maxDepth s) (tracking s).
Definition set_tracking b s := mkOState (heap s) (reactiveMap s) (maxDepth s) b.

(** State, notes, and [None] for a thrown TypeError or RangeError. *)
Definition O (A : Type) : Type := OState → option (A * OState * list note).

Definition oret {A} (a : A) : O A := fun s => Some (a, s, []).
Definition obind {A B} (m : O A) (k : A → O B) : O B := fun s =>
  match m s with
  | Some (a, s1, n1) =>
      match k a s1 with
      | Some (b, s2, n2) => Some (b, s2, n1 ++ n2)
      | None => None
      end
  | None => None
  end.
Definition note_ (n : note) : O unit := fun s => Some (tt, s, [n]).

Declare Scope o_scope.
Delimit Scope o_scope with O.
Notation "'let*' x ':=' m 'in' k" := (obind m (fun x => k))
  (at level 10, x name, m at level 200, k at level 200) : o_scope.
Notation "m1 >>> m2" := (obind m1 (fun _ => m2))
  (at level 90, right associativity) : o_scope.

(** In this module [track] and [trigger] are the calls into the dependency
    graph of [Core]; what is kept of them is that they were made. *)
Definition track (a : nat) (k : key) : O unit := note_ (Track a k).
Definition trigger (a : nat) (k : key) : O unit := note_ (Trigger a k).

(** ** The built-in operations on ordinary objects *)

(** The integer a number stands for, if it is one and is not negative. *)
Definition to_nat (x : spec_float) : option nat :=
  match x with
  | S754_zero _ => Some 0
  | S754_finite false m e =>
      match e with
      | Z0 => Some (Pos.to_nat m)
      | Zpos p => Some (Pos.to_nat m * 2 ^ Pos.to_nat p)
      | Zneg p =>
          if (Pos.to_nat m mod 2 ^ Pos.to_nat p =? 0)
          then Some (Pos.to_nat m / 2 ^ Pos.to_nat p) else None
      end
  | _ => None
  end.

Definition length_value (n : nat) : value := num (Z.of_nat n).

(** [Reflect.get(target, key)], own properties only *)
Definition Reflect_get (o : object) (k : key) : value :=
  match o with
  | Plain props => default VUndefined (props !! k)
  | Array elems extra =>
      match k with
      | KIndex i => default VUndefined (mjoin (elems !! i))
      | KLength => length_value (length elems)
      | _ => default VUndefined (extra !! k)
      end
  | Opaque _ => VUndefined
  end.

(** [Reflect.has(target, key)], own properties only *)
Definition Reflect_has (o : object) (k : key) : bool :=
  match o with
  | Plain props => bool_decide (is_Some (props !! k))
  | Array elems extra =>
      match k with
      | KIndex i => bool_decide (is_Some (mjoin (elems !! i)))
      | KLength => true
      | _ => bool_decide (is_Some (extra !! k))
      end
  | Opaque _ => false
  end.

Definition resize (n : nat) (elems : list (option value)) : list (option value) :=
  take n elems ++ replicate (n - length elems) None.

(** [Reflect.set(target, key, value)]: the new object and the result, or
    [None] when the assignment throws (an invalid array length). *)
Definition Reflect_set (o : object) (k : key) (v : value) : option (object * bool) :=
  match o with
  | Plain props => Some (Plain (<[k := v]> props), true)
  | Array elems extra =>
      match k with
      | KIndex i => Some (Array (<[i := Some v]> (resize (max (S i) (length elems)) elems)) extra, true)
      | KLength =>
          match v with
          | VNumber x =>
              match to_nat x with
              | Some n => Some (Array (resize n elems) extra, true)
              | None => None
              end
          | _ => None
          end
      | _ => Some (Array elems (<[k := v]> extra), true)
      end
  | Opaque b => Some (Opaque b, true)
  end.

(** [Reflect.deleteProperty(target, key)] *)
Definition Reflect_deleteProperty (o : object) (k : key) : object * bool :=
  match o with
  | Plain props => (Plain (delete k props), true)
  | Array elems extra =>
      match k with
      | KIndex i => (Array (<[i := None]> elems) extra, true)
      | KLength => (o, false)
      | _ => (Array elems (delete k extra), true)
      end
  | Opaque b => (Opaque b, true)
  end.

(** [Reflect.ownKeys(target)]; the named properties come in map order. *)
Definition Reflect_ownKeys (o : object) : list key :=
  match o with
  | Plain props => (map_to_list props).*1
  | Array elems extra =>
      omap (fun p => match snd p with Some _ => Some (KIndex (fst p)) | None => None end)
           (zip (seq 0 (length elems)) elems)
      ++ [KLength] ++ (map_to_list extra).*1
  | Opaque _ => []
  end.

(** The methods of [MUTATING_ARRAY_METHODS], with their arguments.  The
    comparator of [sort] is given by the ordering it produces; [splice] is
    called with an integer start, possibly a delete count, and then the
    items to insert. *)
Inductive method :=
| MPush (items : list value)
| MPop
| MShift
| MUnshift (items : list value)
| MSplice (start : Z) (deleteCount : option Z) (items : list value)
| MSort (ordering : list value → list value)
| MReverse.

(** [args.length] *)
Definition args_length (m : method) : nat :=
  match m with
  | MPush items | MUnshift items => length items
  | MSplice _ None _ => 1
  | MSplice _ (Some _) items => 2 + length items
  | MSort _ => 1
  | MPop | MShift | MReverse => 0
  end.

(** The relative start of [splice], clamped to the array. *)
Definition clamp_start (len : nat) (start : Z) : nat :=
  if (start <? 0)%Z then Z.to_nat (Z.max 0 (Z.of_nat len + start))
  else Nat.min (Z.to_nat start) len.

(** [Array.prototype[method].apply(target, args)] on the elements: the new
    elements and the result (the array [splice] returns is left out). *)
Definition apply_method (m : method) (elems : list (option value))
  : list (option value) * value :=
  match m with
  | MPush items =>
      let elems' := elems ++ (Some <$> items) in
      (elems', length_value (length elems'))
  | MPop =>
      match reverse elems with
      | [] => ([], VUndefined)
      | x :: _ => (take (length elems - 1) elems, default VUndefined x)
      end
  | MShift =>
      match elems with
      | [] => ([], VUndefined)
      | x :: rest => (rest, default VUndefined x)
      end
  | MUnshift items =>
      let elems' := (Some <$> items) ++ elems in
      (elems', length_value (length elems'))
  | MSplice start None _ =>
      (take (clamp_start (length elems) start) elems, VUndefined)
  | MSplice start (Some d) items =>
      let from := clamp_start (length elems) start in
      let count := Nat.min (Z.to_nat (Z.max 0 d)) (length elems - from) in
      (take from elems ++ (Some <$> items) ++ drop (from + count) elems, VUndefined)
  | MSort ordering =>
      let present := omap id elems in
      let defined := filter (fun v => v ≠ VUndefined) present in
      let undefineds := filter (fun v => v = VUndefined) present in
      ((Some <$> ordering defined) ++ (Some <$> undefineds)
         ++ replicate (length elems - length present) None,
       VUndefined)
  | MReverse => (reverse elems, VUndefined)
  end.

(** The object at an address, and its replacement. *)
Definition obj_at (s : OState) (a : nat) : option object := heap s !! a.
Definition store (a : nat) (o : object) (s : OState) : OState :=
  set_heap (<[a := o]> (heap s)) s.

(** ** Operations applied to an object itself *)

Inductive mutation :=
| DoSet (k : key) (v : value)
| DoDelete (k : key)
| DoMethod (m : method).

(** [o[k] = v], [delete o[k]] and [o.method(...args)] on the object at [a],
    no proxy being involved. *)
Definition mutate (a : nat) (mu : mutation) : O value := fun s =>
  match obj_at s a with
  | Some o =>
      match mu with
      | DoSet k v =>
          match Reflect_set o k v with
          | Some (o', _) => Some (v, store a o' s, [])
          | None => None
          end
      | DoDelete k =>
          let '(o', r) := Reflect_deleteProperty o k in
          Some (VBool r, store a o' s, [])
      | DoMethod m =>
          match o with
          | Array elems extra =>
              let '(elems', r) := apply_method m elems in
              Some (r, store a (Array elems' extra) s, [])
          | _ => None
          end
      end
  | None => None
  end.

(** ** [reactive] *)

Definition isObject (v : value) : bool :=
  match v with
  | VObject _ => true
  | _ => false
  end.

(** [isReactiveEligible(target)] *)
Definition isReactiveEligible (s : OState) (v : value) : bool :=
  match v with
  | VObject a =>
      match obj_at s a with
      | Some (Plain _) | Some (Array _ _) => true
      | _ => false
      end
  | _ => false
  end.

(** [config.deepReactiveMaxDepth || 10] *)
Definition depth_limit (s : OState) : Z :=
  if (maxDepth s =? 0)%Z then 10%Z else maxDepth s.

(** [[...target]]: the elements in order, a hole read as [undefined]. *)
Definition spread (elems : list (option value)) : list (option value) :=
  (fun x => Some (default VUndefined x)) <$> elems.

(** [reactive(target, depth)] *)
Definition reactive (target : value) (depth : Z) : O view := fun s =>
  if (depth >? depth_limit s)%Z then Some (Raw target, s, [])
  else if negb (isReactiveEligible s target) then Some (Raw target, s, [])
  else
    match target with
    | VObject a =>
        match reactiveMap s !! a with
        | Some existing => Some (Proxy existing, s, [])
        | None =>
            match obj_at s a with
            | Some (Array elems _) =>
                let array := length (heap s) in
                Some (Proxy array,
                      set_reactiveMap (<[a := array]> (reactiveMap s))
                        (set_heap (heap s ++ [Array (spread elems) ∅]) s),
                      [])
            | _ =>
                Some (Proxy a, set_reactiveMap (<[a := a]> (reactiveMap s)) s, [])
            end
        end
    | _ => Some (Raw target, s, [])
    end.

(** ** The handlers *)

Definition wrap (value : value) : O view := fun s =>
  if isReactiveEligible s value then reactive value 0 s else Some (Raw value, s, []).

(** [handleArrayMethodTriggers(target, method, args)] *)
Definition handleArrayMethodTriggers (target : nat) (m : method) : O unit := fun s =>
  let len := match obj_at s target with
             | Some (Array elems _) => length elems
             | _ => 0
             end in
  let args_length := Z.of_nat (args_length m) in
  let range (start : Z) (n : Z) : list key :=
    key_of_Z <$> ((fun i => (start + Z.of_nat i)%Z) <$> seq 0 (Z.to_nat n)) in
  let keys :=
    match m with
    | MPush _ => range (Z.of_nat len - args_length)%Z args_length
    | MUnshift _ => range 0%Z args_length
    | MPop => [KIndex len]
    | MShift => [KIndex 0]
    | MSplice start deleteCount _ =>
        range start (default 0%Z deleteCount) ++ range start (args_length - 2)%Z
    | MSort _ | MReverse => KIndex <$> seq 0 len
    end in
  Some (tt, s, Trigger target <$> keys).

(** The function returned by [createArrayMethodHandler(target, method)],
    called with the arguments. *)
Definition array_method_handler (target : nat) (m : method) : O value := fun s =>
  match obj_at s target with
  | Some (Array elems extra) =>
      let oldLength := length elems in
      let '(elems', result) := apply_method m elems in
      let s1 := set_tracking true (store target (Array elems' extra) (set_tracking false s)) in
      ((if bool_decide (length elems' ≠ oldLength)
        then trigger target KLength else oret tt) >>>
       trigger target (KProp "keys") >>>
       handleArrayMethodTriggers target m >>>
       oret result)%O s1
  | _ => None
  end.

Definition method_name (m : method) : string :=
  match m with
  | MPush _ => "push" | MPop => "pop" | MShift => "shift" | MUnshift _ => "unshift"
  | MSplice _ _ _ => "splice" | MSort _ => "sort" | MReverse => "reverse"
  end.

Definition MUTATING_ARRAY_METHODS : list string :=
  ["push"; "pop"; "shift"; "unshift"; "splice"; "sort"; "reverse"].

Definition is_array (s : OState) (a : nat) : bool :=
  match obj_at s a with
  | Some (Array _ _) => true
  | _ => false
  end.

Definition is_mutating_method (k : key) : option string :=
  match k with
  | KProp name => if bool_decide (name ∈ MUTATING_ARRAY_METHODS) then Some name else None
  | _ => None
  end.

(** The [get] traps of [arrayHandlers] and [objectHandlers]. *)
Definition proxy_get (target : nat) (k : key) : O view := fun s =>
  if bool_decide (k = KProp "__isReactive") then Some (Raw (VBool true), s, [])
  else
    match obj_at s target with
    | Some o =>
        if is_array s target then
          (track target k >>>
           match is_mutating_method k with
           | Some name => oret (MethodHandler target name)
           | None => wrap (Reflect_get o k)
           end)%O s
        else
          (let res := Reflect_get o k in
           track target k >>> wrap res)%O s
    | None => None
    end.

(** [proxy.method(...args)]: the [get] trap gives the function, which is
    called; calling what is not a function throws. *)
Definition proxy_call (target : nat) (m : method) : O value :=
  (let* f := proxy_get target (KProp (method_name m)) in
   match f with
   | MethodHandler t _ => array_method_handler t m
   | _ => fun _ => None
   end)%O.

(** The [set] traps. *)
Definition proxy_set (target : nat) (k : key) (v : value) : O bool := fun s =>
  match obj_at s target with
  | Some o =>
      let isIndex := match k with KIndex _ => true | _ => false end in
      let oldValue := Reflect_get o k in
      if Object_is oldValue v then Some (true, s, [])
      else
        match Reflect_set o k v with
        | Some (o', result) =>
            ((if result then
                trigger target k >>>
                (if is_array s target && isIndex
                 then trigger target (KProp "keys") else oret tt)
              else oret tt) >>>
             oret result)%O (store target o' s)
        | None => None
        end
  | None => None
  end.

(** The [has] traps. *)
Definition proxy_has (target : nat) (k : key) : O bool := fun s =>
  match obj_at s target with
  | Some o => (track target k >>> oret (Reflect_has o k))%O s
  | None => None
  end.

(** The [ownKeys] traps. *)
Definition proxy_ownKeys (target : nat) : O (list key) := fun s =>
  match obj_at s target with
  | Some o => (track target (KProp "keys") >>> oret (Reflect_ownKeys o))%O s
  | None => None
  end.

(** The [deleteProperty] traps. *)
Definition proxy_deleteProperty (target : nat) (k : key) : O bool := fun s =>
  match obj_at s target with
  | Some o =>
      let hadKey := Reflect_has o k in
      let '(o', result) := Reflect_deleteProperty o k in
      ((if hadKey && result then
          trigger target k >>>
          (if is_array s target then trigger target (KProp "keys") else oret tt)
        else oret tt) >>>
       oret result)%O (store target o' s)
  | None => None
  end.

(** A write, a delete or a mutating method call made through a proxy. *)
Definition proxy_mutate (target : nat) (mu : mutation) : O value :=
  match mu with
  | DoSet k v => (let* r := proxy_set target k v in oret (VBool r))%O
  | DoDelete k => (let* r := proxy_deleteProperty target k in oret (VBool r))%O
  | DoMethod m => proxy_call target m
  end.

(** Reading along a path of keys, starting from a view: each step goes
    through the [get] trap when the value in hand is a proxy, and reads the
    property itself otherwise. *)
Fixpoint read_path (v : view) (path : list key) : O view :=
  match path with
  | [] => oret v
  | k :: path' =>
      (let* v' :=
         match v with
         | Proxy a => proxy_get a k
         | Raw (VObject a) =>
             fun s => match obj_at s a with
                      | Some o => Some (Raw (Reflect_get o k), s, [])
                      | None => None
                      end
         | _ => fun _ => None
         end in
       read_path v' path')%O
  end.

(** ** Notions used in the statements *)

(** What a call returns and the calls of [track] and [trigger] it makes. *)
Definition result_of {A} (o : option (A * OState * list note)) : option (A * list note) :=
  match o with
  | Some (a, _, n) => Some (a, n)
  | None => None
  end.

(** Two states that differ at most in the contents of the array at [a]. *)
Definition same_but (a : nat) (s1 s2 : OState) : Prop :=
  length (heap s2) = length (heap s1) ∧
  reactiveMap s2 = reactiveMap s1 ∧
  maxDepth s2 = maxDepth s1 ∧
  (∀ b, b ≠ a → obj_at s2 b = obj_at s1 b) ∧
  (is_array s1 a = true ∧ is_array s2 a = true).

End Observed.

(** * Programs used as test inputs *)

Module Examples.

Import Core.

(** A table of user functions given as a list: function [f] is the [f]-th
    entry. *)
Definition table (l : list (list cmd)) (f : nat) : list cmd := default [] (l !! f).

(** An observer on a cell, with a scheduler that drops every job; the cell is
    written inside a batch. *)
Definition scheduler_in_batch : nat → list cmd :=
  table [ [RefNew (num 0); EffectNew 1 false (Some 2); BatchCall 3];
          [RefGet 0];
          [];
          [RefSet 0 (num 1)] ].

(** The same observer, the cell being written outside a batch. *)
Definition scheduler_no_batch : nat → list cmd :=
  table [ [RefNew (num 0); EffectNew 1 false (Some 2); RefSet 0 (num 1)];
          [RefGet 0];
          [] ].



(** [c = computed(() => a.value)], read once, then [a] is written and [c] is
    read inside a batch. *)
Definition computed_in_batch : nat → list cmd :=
  table [ [RefNew (num 0); ComputedNew 1 None; ComputedGet 0; BatchCall 2];
          [RefGet 0];
          [RefSet 0 (num 1); ComputedGet 0] ].

(** The same, with one more read of [c] after the batch. *)
Definition computed_after_batch : nat → list cmd :=
  table [ [RefNew (num 0); ComputedNew 1 None; ComputedGet 0; BatchCall 2; ComputedGet 0];
          [RefGet 0];
          [RefSet 0 (num 1)] ].

(** The same reads and write with no batch. *)
Definition computed_no_batch : nat → list cmd :=
  table [ [RefNew (num 0); ComputedNew 1 None; ComputedGet 0; RefSet 0 (num 1); ComputedGet 0];
          [RefGet 0] ].



(** A watcher whose callback registers a cleanup; the stop handle is called
    twice. *)
Definition watch_stop_twice : nat → list cmd :=
  table [ [RefNew (num 0); WatchNew (SrcRef 0) 1 false; RefSet 0 (num 1);
           WatchStop 0; WatchStop 0];
          [OnCleanup 2];
          [] ].

(** The same watcher, stopped once. *)
Definition watch_stop_once : nat → list cmd :=
  table [ [RefNew (num 0); WatchNew (SrcRef 0) 1 false; RefSet 0 (num 1); WatchStop 0];
          [OnCleanup 2];
          [] ].

(** Two observers of one cell, the first with a cleanup that throws; the
    cell is written inside a batch.  Function 5 creates the cell and the
    observers, function 6 writes the cell with no batch. *)
Definition flush_continues : nat → list cmd :=
  table [ [RefNew (num 0); EffectNew 1 false None; EffectNew 3 false None; BatchCall 4];
          [RefGet 0; Const (VFunction 2)];
          [ThrowError];
          [RefGet 0];
          [RefSet 0 (num 1)];
          [RefNew (num 0); EffectNew 1 false None; EffectNew 3 false None];
          [RefNew (num 0); EffectNew 1 false None; EffectNew 3 false None; RefSet 0 (num 1)] ].


(** An observer of two cells; function 2 writes both cells, with a nested
    batch in between. *)
Definition batch_example : nat → list cmd :=
  table [ [RefNew (num 0); RefNew (num 0); EffectNew 1 false None];
          [RefGet 0; RefGet 1];
          [RefSet 0 (num 10); BatchCall 3; RefSet 1 (num 20)];
          [RefSet 1 (num 5)] ].

Definition batch_example_ready : State :=
  after (run batch_example 3 (CallFunction no_ctx 0) initial).

(** An observer of a cell; function 2 writes the cell. *)
Definition stop_example : nat → list cmd :=
  table [ [RefNew (num 0); EffectNew 1 false None];
          [RefGet 0];
          [RefSet 0 (num 1)] ].

Definition stop_example_ready : State :=
  after (run stop_example 3 (CallFunction no_ctx 0) initial).

End Examples.

Module ObservedExamples.

Import Core Observed.

(** Objects nested [n] deep through the property ["child"]: the object at
    address [i] holds the object at address [i + 1]. *)
Definition nested (n : nat) : list object :=
  ((fun i => Plain {[KProp "child" := VObject (S i)]}) <$> seq 0 n) ++ [Plain ∅].

(** The nested objects, no proxy made yet, the default configuration. *)
Definition nested_state (n : nat) : OState := mkOState (nested n) ∅ 10 true.

(** [reactive(root)] followed by [n] reads of [.child]. *)
Definition read_nested (n : nat) : O view :=
  (let* p := reactive (VObject 0) 0 in read_path p (replicate n (KProp "child")))%O.

(** The array [[1, 2]] at address 0. *)
Definition array_state : OState :=
  mkOState [Array [Some (num 1); Some (num 2)] ∅] ∅ 10 true.

(** [p = reactive(arr); p.push(3); arr[0] = 9; p[0]] *)
Definition push_then_write : O view :=
  (let* p := reactive (VObject 0) 0 in
   match p with
   | Proxy t =>
       proxy_mutate t (DoMethod (MPush [num 3])) >>>
       mutate 0 (DoSet (KIndex 0) (num 9)) >>>
       proxy_get t (KIndex 0)
   | _ => oret p
   end)%O.

End ObservedExamples.


(** * Invariants and relations used in the proofs *)

Module Invariants.

Import Core.

Section Stopped.

(** The observer that was stopped.  With [tracked] the invariant also says
    that no scheduler holds a job for it and that it is no runner; with
    [strong] that it is not queued either, and then the events of a run do
    not mention it. *)
Variable e : nat.
Variables tracked strong : bool.

Definition inactive (l : list EffectFn) : Prop :=
  ∃ ef, l !! e = Some ef ∧ isActive ef = false.

Definition runners_apart (l : list ComputedRefImpl) : Prop :=
  ∀ c cr, l !! c = Some cr → c_runner cr ≠ e.

Definition Inv (s : State) : Prop :=
  inactive (effects s) ∧
  (tracked = true → (e ∉ deferred s) ∧ runners_apart (computeds s)) ∧
  (strong = true → (e ∉ updateQueue s)).

Definition quiet (t : list event) : Prop :=
  strong = true → Forall (fun ev => ev ≠ EvInvoke e ∧ ev ≠ EvBody e) t.

Definition post {A} (o : outcome A) : Prop :=
  match o with
  | Returned _ s t | Thrown s t => Inv s ∧ quiet t
  | OutOfFuel => True
  end.

Definition ok_job (j : option nat) : Prop := tracked = true → j ≠ Some e.

Definition ok_call (c : call) : Prop := ok_job (job_of c).

Definition ok_event (ev : event) : Prop :=
  strong = true → ev ≠ EvInvoke e ∧ ev ≠ EvBody e.

End Stopped.

(** What [stop] does once the observer is known to be active. *)
Definition stop_cleanup (rec : call → M value) (e : nat) : M unit := fun s =>
  match cleanup <$> effects s !! e with
  | Some (Some c) => (emit (EvCleanup e) >>> call_function rec no_ctx c >>> ret tt) s
  | _ => Returned tt s []
  end.

Definition unqueue (e : nat) (s : State) : State :=
  set_scheduledEffects (set_delete (scheduledEffects (set_updateQueue (set_delete (updateQueue s) e) s)) e)
    (set_updateQueue (set_delete (updateQueue s) e) s).

Definition deactivated (e : nat) (s : State) : State :=
  match effects s !! e with
  | Some ef =>
      upd_effect e (set_isActive false)
        (upd_effect e (set_deps [])
           (set_targetMap
              (foldl (fun tm k => alter (fun dep => set_delete dep e) k tm)
                     (targetMap s) (deps ef)) s))
  | None => upd_effect e (set_isActive false) s
  end.

(** While the function given to [batch] runs: batching is on, and the two
    sets of pending observers agree. *)
Definition pending_ok (s : State) : Prop :=
  batchUpdates (config s) = true ∧ isBatching s = true ∧
  scheduledEffects s = updateQueue s ∧ NoDup (updateQueue s).

Record grows (s s1 : State) : Prop := mkGrows {
  g_config : config s1 = config s;
  g_batching : isBatching s1 = isBatching s;
  g_stack : batchStack s1 = batchStack s;
  g_effects : effects s1 = effects s;
  g_targetMap : targetMap s1 = targetMap s;
  g_active : activeEffect s1 = activeEffect s;
  g_keep : ∀ i, i ∈ updateQueue s → i ∈ updateQueue s1;
  g_new : ∀ i, i ∈ updateQueue s1 → i ∈ updateQueue s ∨ is_active s i = true;
  g_written : ∀ r,
    refs s1 !! r = refs s !! r ∨
    ∀ i, i ∈ dep_of s (TRef r, "value") → is_active s i = true →
         activeEffect s ≠ Some i → i ∈ updateQueue s1
}.

Definition calm {A} (s : State) (o : outcome A) : Prop :=
  ∃ a s1, o = Returned a s1 [] ∧ grows s s1 ∧ pending_ok s1.

(** What a run of an observer that only reads leaves as it was; [x] is the
    observer whose cleanup may change. *)
Record keeps (x : option nat) (s s1 : State) : Prop := mkKeeps {
  k_queue : updateQueue s1 = updateQueue s;
  k_sched : scheduledEffects s1 = scheduledEffects s;
  k_batching : isBatching s1 = isBatching s;
  k_body : ∀ j, e_body <$> effects s1 !! j = e_body <$> effects s !! j;
  k_cleanup : ∀ j, x ≠ Some j → cleanup <$> effects s1 !! j = cleanup <$> effects s !! j
}.

Definition straight {A} (x : option nat) (s : State) (t : list event) (o : outcome A) : Prop :=
  ∃ a s1, o = Returned a s1 t ∧ keeps x s s1.


End Invariants.

(** * Well-formed states *)

Module Wellformed.

Import Core.

(** What every state reached from [initial] satisfies: [activeEffect] is the
    top of [effectStack]; [scheduledEffects] and [updateQueue] hold the same
    observers, once each; a dependency set holds an observer once, and holds
    it exactly when the [deps] of the observer list the set, once; an
    observer that was stopped has no dependency left. *)
Record WF (s : State) : Prop := mkWF {
  wf_stack : activeEffect s = head (effectStack s);
  wf_sched : scheduledEffects s = updateQueue s;
  wf_queue : NoDup (updateQueue s);
  wf_sets : ∀ k dep, targetMap s !! k = Some dep → NoDup dep;
  wf_mirror : ∀ k e, e ∈ dep_of s k ↔ ∃ ef, effects s !! e = Some ef ∧ k ∈ deps ef;
  wf_deps : ∀ e ef, effects s !! e = Some ef → NoDup (deps ef);
  wf_stopped : ∀ e ef, effects s !! e = Some ef → isActive ef = false → deps ef = []
}.

(** What a call leaves as it found it: the configuration, [shouldTrack],
    the stack of running observers.  An observer keeps its body and its
    scheduler and, once inactive, stays so; it leaves a dependency set only
    by being stopped.  A computed cell keeps its getter, its setter and its
    runner; no cell disappears. *)
Definition same_role (ef ef' : EffectFn) : Prop :=
  e_body ef' = e_body ef ∧ scheduler ef' = scheduler ef ∧
  (isActive ef = false → isActive ef' = false).

Definition same_computed (cr cr' : ComputedRefImpl) : Prop :=
  c_getter cr' = c_getter cr ∧ c_setter cr' = c_setter cr ∧ c_runner cr' = c_runner cr.

Record Frame (s s' : State) : Prop := mkFrame {
  f_config : config s' = config s;
  f_track : shouldTrack s' = shouldTrack s;
  f_stack : effectStack s' = effectStack s;
  f_active : activeEffect s' = activeEffect s;
  f_effects : ∀ e ef, effects s !! e = Some ef →
                      ∃ ef', effects s' !! e = Some ef' ∧ same_role ef ef';
  f_computeds : ∀ c cr, computeds s !! c = Some cr →
                        ∃ cr', computeds s' !! c = Some cr' ∧ same_computed cr cr';
  f_refs : length (refs s) ≤ length (refs s');
  f_subs : ∀ k e, e ∈ dep_of s k →
                  e ∈ dep_of s' k ∨ ∃ ef, effects s' !! e = Some ef ∧ isActive ef = false
}.

(** Batching is switched off in the configuration and nothing is queued. *)
Definition unbatched (s : State) : Prop :=
  batchUpdates (config s) = false ∧ updateQueue s = [].

(** A handle that nothing holds: it is in neither pending set, no scheduler
    has kept a job for it, it is not being run, and it is the runner of no
    computed cell. *)
Definition unused (x : nat) (s : State) : Prop :=
  (x ∉ updateQueue s) ∧ (x ∉ deferred s) ∧ (x ∉ effectStack s) ∧
  (∀ c cr, computeds s !! c = Some cr → c_runner cr ≠ x).

(** An observer that exists, is in no dependency set, and that nothing
    holds. *)
Definition Idle (x : nat) (s : State) : Prop :=
  is_Some (effects s !! x) ∧ (∀ k, x ∉ dep_of s k) ∧ unused x s.

(** The dependency sets once [cleanupEffect] has removed observer [e] from
    the sets listed in [ks]. *)
Definition unsubscribe (e : nat) (tm : gmap (target * string) (list nat))
    (ks : list (target * string)) : gmap (target * string) (list nat) :=
  foldl (fun tm k => alter (fun dep => set_delete dep e) k tm) tm ks.

(** What [effectFn] makes of the outcome of the body of the observer: a
    function that the body returned is kept as the cleanup, and the observer
    is popped from the stack. *)
Definition after_body (e : nat) (o : outcome value) : outcome value :=
  match o with
  | Returned res s1 t =>
      Returned VUndefined
        (pop_effect match res with
                    | VFunction f => upd_effect e (set_cleanup (Some f)) s1
                    | _ => s1
                    end) t
  | Thrown s1 t => Thrown (pop_effect s1) t
  | OutOfFuel => OutOfFuel
  end.

(** A property of the state and of the events a call ends with, whether it
    returns or throws. *)
Definition ends_with {A} (o : outcome A) (P : State → list event → Prop) : Prop :=
  match o with
  | Returned _ s t | Thrown s t => P s t
  | OutOfFuel => True
  end.

Section Engine.

(** The invariant of the engine, with two optional parts: that batching is
    off ([nb]), and that observer [x] is idle ([idle]). *)
Variable x : nat.
Variables idle nb : bool.

Definition J (s : State) : Prop :=
  WF s ∧ (nb = true → unbatched s) ∧ (idle = true → Idle x s).

Definition silent (t : list event) : Prop :=
  idle = true → Forall (fun ev => ev ≠ EvInvoke x ∧ ev ≠ EvBody x) t.

Definition wpost {A} (s : State) (o : outcome A) : Prop :=
  match o with
  | Returned _ s' t | Thrown s' t => J s' ∧ Frame s s' ∧ silent t
  | OutOfFuel => True
  end.

Definition free_job (j : option nat) : Prop := idle = true → j ≠ Some x.

End Engine.

End Wellformed.

(** * Configuration and state management *)

Module Utilities.

Import Core.

(** A [Partial<ReactivityConfig>]: for each option, the value given if one
    is given. *)
Record PartialConfig := mkPartial {
  p_enableDebug : option bool;
  p_cyclePrevention : option bool;
  p_batchUpdates : option bool;
  p_deepReactiveMaxDepth : option Z;
  p_trackingDepth : option Z
}.

(** [Object.assign(config, newConfig)] *)
Definition assign (c : ReactivityConfig) (p : PartialConfig) : ReactivityConfig :=
  mkConfig (default (enableDebug c) (p_enableDebug p))
           (default (cyclePrevention c) (p_cyclePrevention p))
           (default (batchUpdates c) (p_batchUpdates p))
           (default (deepReactiveMaxDepth c) (p_deepReactiveMaxDepth p))
           (default (trackingDepth c) (p_trackingDepth p)).

(** [setConfig(newConfig)] *)
Definition setConfig (newConfig : PartialConfig) (s : State) : State :=
  set_config (assign (config s) newConfig) s.

(** [getConfig()] *)
Definition getConfig (s : State) : ReactivityConfig := config s.

(** [getEffectStats()]: [activeEffects] and [queuedUpdates] *)
Definition getEffectStats (s : State) : nat * nat :=
  (length (effectStack s), length (updateQueue s)).

(** [clearReactivityState()].  The module-level variables are reset; the
    observers, cells and watchers that exist are objects of their own and
    are not touched, nor are the jobs a scheduler has kept. *)
Definition clearReactivityState (s : State) : State :=
  mkState DEFAULT_CONFIG ∅ [] None true [] [] 0 false
          (effects s) (refs s) (computeds s) (watches s) (deferred s).

End Utilities.

(** * More programs used as test inputs *)

Module MoreExamples.

Import Core Examples.

(** An observer created with [lazy: true], and a cell it would read. *)
Definition lazy_example : nat → list cmd :=
  table [ [RefNew (num 0); EffectNew 1 true None; RefSet 0 (num 1)];
          [RefGet 0] ].

(** A computed cell over a cell; function 2 is the beginning of function 0,
    up to the first read of the computed cell. *)
Definition computed_example : nat → list cmd :=
  table [ [RefNew (num 0); ComputedNew 1 None; ComputedGet 0; RefSet 0 (num 1); ComputedGet 0];
          [RefGet 0];
          [RefNew (num 0); ComputedNew 1 None; ComputedGet 0] ].

Definition computed_example_ready : State :=
  after (run computed_example 3 (CallFunction no_ctx 2) initial).



(** An observer of a cell; function 2 calls [flushUpdates], function 3
    writes the cell. *)
Definition flush_inside : nat → list cmd :=
  table [ [RefNew (num 0); EffectNew 1 false None];
          [RefGet 0];
          [FlushUpdates];
          [RefSet 0 (num 1)] ].

Definition flush_inside_ready : State :=
  after (run flush_inside 3 (CallFunction no_ctx 0) initial).

(** The state after [batch] was called on function 2. *)
Definition flush_inside_after : State :=
  after (batch (run flush_inside 3) 2 flush_inside_ready).

(** A watcher of a cell; function 1 is its callback. *)
Definition watch_example : nat → list cmd :=
  table [ [RefNew (num 0); WatchNew (SrcRef 0) 1 false];
          [];
          [RefNew (num 0)] ].

Definition watch_example_cell : State :=
  after (run watch_example 3 (CallFunction no_ctx 2) initial).


End MoreExamples.

(** * [deepEqual] *)

Module Deep.

Import Core Observed.

(** [Object.keys(o)]: the own enumerable keys, the named ones in map
    order; ["length"] of an array is not enumerable, and the builtin objects
    have no own enumerable key. *)
Definition Object_keys (o : object) : list key :=
  match o with
  | Plain props => (map_to_list props).*1
  | Array elems extra =>
      omap (fun p => match snd p with Some _ => Some (KIndex (fst p)) | None => None end)
           (zip (seq 0 (length elems)) elems)
      ++ (map_to_list extra).*1
  | Opaque _ => []
  end.

(** [a == null] *)
Definition is_nullish (a : value) : bool :=
  match a with
  | VUndefined | VNull => true
  | _ => false
  end.

(** The loop [for (const key of keysA)] of [deepEqual], the recursive call
    being [rec]. *)
Fixpoint compare_keys (rec : value → value → option bool) (a b : object)
    (keysB : list key) (keysA : list key) : option bool :=
  match keysA with
  | [] => Some true
  | key :: rest =>
      if negb (bool_decide (key ∈ keysB)) then Some false
      else
        match rec (Reflect_get a key) (Reflect_get b key) with
        | Some true => compare_keys rec a b keysB rest
        | r => r
        end
  end.

(** [deepEqual(a, b)] on a heap, with fuel: the source recurses without
    bound on a cyclic value.  [None] when the fuel does not suffice, and for
    an address at which the heap has no object. *)
Fixpoint deepEqual (fuel : nat) (h : list object) (a b : value) : option bool :=
  match fuel with
  | 0 => None
  | S n =>
      if strict_equals a b then Some true
      else if is_nullish a || is_nullish b then Some false
      else
        match a, b with
        | VObject x, VObject y =>
            match h !! x, h !! y with
            | Some oa, Some ob =>
                let keysA := Object_keys oa in
                let keysB := Object_keys ob in
                if negb (length keysA =? length keysB) then Some false
                else compare_keys (deepEqual n h) oa ob keysB keysA
            | _, _ => None
            end
        | _, _ => Some false
        end
  end.

(** The named properties of an array are not indices. *)
Definition array_keys_ok (h : list object) : Prop :=
  ∀ x elems extra, h !! x = Some (Array elems extra) →
    ∀ i, extra !! KIndex i = None.

(** [[1]], [{0: 1}], a [Date] and a [Map]. *)
Definition deep_heap : list object :=
  [Array [Some (num 1)] ∅; Plain {[KIndex 0 := num 1]}; Opaque Date; Opaque Map].

End Deep.

(** * Properties of the engine *)

Module CoreProofs.

Import Core Examples Invariants.

(** ** The monad *)

Lemma prepend_nil {A} (o : outcome A) : prepend [] o = o.
Proof. destruct o; reflexivity. Qed.

Lemma prepend_prepend {A} (t1 t2 : list event) (o : outcome A) :
  prepend t1 (prepend t2 o) = prepend (t1 ++ t2) o.
Proof. destruct o; simpl; rewrite ?app_assoc; reflexivity. Qed.

Lemma prepend_fuel {A} (t : list event) (o : outcome A) :
  prepend t o = OutOfFuel ↔ o = OutOfFuel.
Proof. destruct o; simpl; split; congruence. Qed.

Lemma bind_emit {A} (ev : event) (k : M A) (s : State) :
  (emit ev >>> k) s = prepend [ev] (k s).
Proof. reflexivity. Qed.

Lemma bind_modify {A} (f : State → State) (k : M A) (s : State) :
  (modify f >>> k) s = k (f s).
Proof. unfold bind, modify. simpl. apply prepend_nil. Qed.

(** ** Sets as lists *)

Lemma set_add_elem (l : list nat) (x y : nat) : y ∈ set_add l x ↔ y ∈ l ∨ y = x.
Proof.
  unfold set_add. case_bool_decide.
  - split; [auto | intros [? | ->]; auto].
  - rewrite elem_of_app, list_elem_of_singleton. tauto.
Qed.

Lemma set_add_NoDup (l : list nat) (x : nat) : NoDup l → NoDup (set_add l x).
Proof.
  intros Hl. unfold set_add. case_bool_decide; [done|].
  apply NoDup_app. split_and!; [done | | apply NoDup_singleton].
  intros y Hy ->%list_elem_of_singleton. done.
Qed.

Lemma set_delete_elem (l : list nat) (x y : nat) : y ∈ set_delete l x ↔ y ∈ l ∧ y ≠ x.
Proof. unfold set_delete. rewrite list_elem_of_filter. tauto. Qed.

(** ** What [trigger] selects *)

Definition selected (s : State) (e : nat) : Prop :=
  activeEffect s ≠ Some e ∧ is_active s e = true.

Lemma effectsToRun_acc (s : State) (dep acc : list nat) :
  NoDup acc →
  let r := foldl (fun acc e =>
                    if bool_decide (activeEffect s ≠ Some e) && is_active s e
                    then set_add acc e else acc) acc dep in
  NoDup r ∧ ∀ e, e ∈ r ↔ e ∈ acc ∨ (e ∈ dep ∧ selected s e).
Proof.
  revert acc. induction dep as [|x dep IH]; intros acc Hacc; simpl.
  - split; [done|]. intros e. rewrite elem_of_nil. tauto.
  - destruct (bool_decide (activeEffect s ≠ Some x) && is_active s x) eqn:Hx.
    + destruct (IH (set_add acc x) (set_add_NoDup _ _ Hacc)) as [Hnd Hin].
      split; [done|]. intros e. rewrite Hin, set_add_elem, elem_of_cons.
      apply andb_true_iff in Hx as [Hx1%bool_decide_eq_true Hx2].
      unfold selected. split; [|tauto].
      intros [[? | ->] | ?]; tauto.
    + destruct (IH acc Hacc) as [Hnd Hin].
      split; [done|]. intros e. rewrite Hin, elem_of_cons.
      unfold selected. split; [tauto|].
      intros [? | [[-> | ?] [H1 H2]]]; [tauto| |tauto].
      apply andb_false_iff in Hx as [Hx%bool_decide_eq_false|Hx]; [done|congruence].
Qed.


Lemma effectsToRun_elem (s : State) (dep : list nat) (e : nat) :
  e ∈ effectsToRun s dep ↔ e ∈ dep ∧ selected s e.
Proof.
  destruct (effectsToRun_acc s dep [] (NoDup_nil_2)) as [_ H].
  unfold effectsToRun. rewrite H, elem_of_nil. tauto.
Qed.

(** ** Calling an observer *)



Lemma bind_returned {A B} (m : M A) (k : A → M B) s a s1 t :
  m s = Returned a s1 t → bind m k s = prepend t (k a s1).
Proof. unfold bind. by intros ->. Qed.

Lemma try_catch_returned {A} (m h : M A) s a s1 t :
  m s = Returned a s1 t → try_catch m h s = Returned a s1 t.
Proof. unfold try_catch. by intros ->. Qed.





(** ** Writing a cell *)




(** ** Errors in a flush and in a direct trigger *)



(** The two paths on the program [flush_continues]: in the batch the error of
    observer 0 is reported and observer 1 runs; with no batch the write
    throws and observer 1 does not run again. *)
Lemma flush_continues_runs :
  (∃ s, run_main flush_continues 4 0
        = Returned (num 1) s
            [EvInvoke 0; EvBody 0; EvInvoke 1; EvBody 1;
             EvInvoke 0; EvCleanup 0; EvError; EvInvoke 1; EvBody 1]) ∧
  (∃ s, run_main flush_continues 4 6
        = Thrown s [EvInvoke 0; EvBody 0; EvInvoke 1; EvBody 1; EvInvoke 0; EvCleanup 0]).
Proof. split; eexists; vm_compute; reflexivity. Qed.

(** ** A cleanup that throws *)





(** ** A scheduler and a batch *)

(** Claim C1 fails on the code.  Outside a batch the scheduler of the
    observer is called and, dropping the job, keeps the observer from
    running.  When the same write is made inside a batch, the scheduler is
    not called and the flush calls the observer itself. *)
Theorem scheduler_bypassed_in_batch :
  (∃ s, run_main scheduler_no_batch 4 0
        = Returned (num 1) s [EvInvoke 0; EvBody 0; EvScheduler 0]) ∧
  (∃ s, run_main scheduler_in_batch 4 0
        = Returned (num 1) s [EvInvoke 0; EvBody 0; EvInvoke 0; EvBody 0]).
Proof. split; eexists; vm_compute; reflexivity. Qed.

(** ** A computed cell and a batch *)

(** Claim C5 fails on the code.  With no batch the read that follows the
    write runs the getter again and returns the new value.  Inside a batch
    the write queues the runner instead of calling its scheduler, so the
    cell is not marked dirty: the read made in the batch returns the old
    value, the getter having run once only before it; the flush then calls
    the getter without storing what it returns, and a read made after the
    batch still returns the old value. *)
Theorem computed_stale_in_batch :
  (∃ s, run_main computed_no_batch 4 0
        = Returned (num 1) s
            [EvInvoke 0; EvBody 0; EvScheduler 0; EvInvoke 0; EvBody 0]) ∧
  (∃ s, run_main computed_in_batch 4 0
        = Returned (num 0) s [EvInvoke 0; EvBody 0; EvInvoke 0; EvBody 0] ∧
        refs s !! 0 = Some (num 1)) ∧
  (∃ s, run_main computed_after_batch 4 0
        = Returned (num 0) s [EvInvoke 0; EvBody 0; EvInvoke 0; EvBody 0] ∧
        refs s !! 0 = Some (num 1) ∧
        c_dirty <$> computeds s !! 0 = Some false).
Proof. split_and!; eexists; vm_compute; split_and?; reflexivity. Qed.

(** ** The stop handle of a watcher *)

(** Claim C9 fails on the code.  Called once, the stop handle calls the
    pending cleanup once; called twice, it calls it twice, because the handle
    does not forget the cleanup it has called. *)
Theorem watch_stop_twice_runs_cleanup_twice :
  watch_cleanups 0 (trace_of (run_main watch_stop_once 4 0)) = 1 ∧
  watch_cleanups 0 (trace_of (run_main watch_stop_twice 4 0)) = 2 ∧
  ∃ s, run_main watch_stop_twice 4 0
       = Returned VUndefined s
           [EvInvoke 0; EvBody 0; EvInvoke 0; EvBody 0;
            EvCallback 0 (WValue (num 1)) (WValue (num 0));
            EvWatchCleanup 0; EvWatchCleanup 0].
Proof. split_and!; [vm_compute; reflexivity..|]. eexists. vm_compute. reflexivity. Qed.

(** ** After [stop] *)

Section Stopped.

Variable e : nat.
Variables tracked strong : bool.
Hypothesis Hmode : strong = true → tracked = true.

Local Abbreviation inactive := (Invariants.inactive e).
Local Abbreviation runners_apart := (Invariants.runners_apart e).
Local Abbreviation Inv := (Invariants.Inv e tracked strong).
Local Abbreviation quiet := (Invariants.quiet e strong).
Local Abbreviation post := (@Invariants.post e tracked strong _).
Local Abbreviation ok_job := (Invariants.ok_job e tracked).
Local Abbreviation ok_call := (Invariants.ok_call e tracked).
Local Abbreviation ok_event := (Invariants.ok_event e strong).

Lemma quiet_nil : quiet [].
Proof. intros _. constructor. Qed.

Lemma quiet_app t1 t2 : quiet t1 → quiet t2 → quiet (t1 ++ t2).
Proof. intros H1 H2 Hs. apply Forall_app. auto. Qed.

Lemma ok_event_other ev :
  (∀ i, ev ≠ EvInvoke i) → (∀ i, ev ≠ EvBody i) → ok_event ev.
Proof. intros H1 H2 _. auto. Qed.

Lemma ok_event_invoke i : (strong = true → i ≠ e) → ok_event (EvInvoke i).
Proof. intros Hi Hq. split; [|done]. intros [= ->]. by apply Hi. Qed.

Lemma ok_event_body i : (strong = true → i ≠ e) → ok_event (EvBody i).
Proof. intros Hi Hq. split; [done|]. intros [= ->]. by apply Hi. Qed.

Lemma post_prepend {A} t (o : outcome A) : quiet t → post o → post (prepend t o).
Proof. destruct o; simpl; [|  |done]; intros ? [? ?]; split; auto using quiet_app. Qed.

Lemma post_returned {A} (a : A) s : Inv s → post (Returned a s []).
Proof. split; [done | apply quiet_nil]. Qed.

Lemma post_ret {A} (a : A) s : Inv s → post (ret a s).
Proof. apply post_returned. Qed.

Lemma post_throw {A} s : Inv s → post (@throw A s).
Proof. split; [done | apply quiet_nil]. Qed.

Ltac fin :=
  first [apply post_returned; done | apply post_ret; done | apply post_throw; done
        | split; [done | apply quiet_nil]].

Lemma post_modify f s : Inv (f s) → post (modify f s).
Proof. apply post_returned. Qed.

Lemma post_emit ev s : Inv s → ok_event ev → post (emit ev s).
Proof. intros Hs Hev. split; [done|]. intros Hq. constructor; [by apply Hev | constructor]. Qed.

Lemma post_bind {A B} (m : M A) (k : A → M B) s :
  post (m s) → (∀ a s1, Inv s1 → post (k a s1)) → post (bind m k s).
Proof.
  unfold bind. destruct (m s) as [a s1 t| |]; simpl; [|done|done].
  intros [Hs Ht] Hk. apply post_prepend; auto.
Qed.

Lemma post_try_finally {A} (m : M A) fin s :
  post (m s) → (∀ s1, Inv s1 → Inv (fin s1)) → post (try_finally m fin s).
Proof. unfold try_finally. destruct (m s); simpl; [| |done]; intros [? ?] ?; auto. Qed.

Lemma post_try_catch {A} (m h : M A) s :
  post (m s) → (∀ s1, Inv s1 → post (h s1)) → post (try_catch m h s).
Proof.
  unfold try_catch. destruct (m s); simpl; [done| |done].
  intros [? ?] Hh. apply post_prepend; auto.
Qed.

Lemma post_forEach {A} (f : A → M unit) (l : list A) s :
  Inv s → (∀ x s1, x ∈ l → Inv s1 → post (f x s1)) → post (forEach f l s).
Proof.
  revert s. induction l as [|x l IH]; intros s Hs Hf; simpl.
  - fin.
  - apply post_bind.
    + apply Hf; [left | done].
    + intros _ s1 Hs1. apply IH; [done|]. intros y s2 Hy. apply Hf. by right.
Qed.

(** state updates *)

Lemma inactive_alter f i l :
  (∀ ef, isActive ef = false → isActive (f ef) = false) →
  inactive l → inactive (alter f i l).
Proof.
  intros Hf (ef & Hl & Ha). unfold inactive.
  destruct (decide (i = e)) as [->|Hne].
  - rewrite list_lookup_alter_eq, Hl. simpl. eauto.
  - rewrite list_lookup_alter_ne by done. eauto.
Qed.

Lemma inactive_app l l' : inactive l → inactive (l ++ l').
Proof. intros (ef & Hl & Ha). exists ef. split; [|done]. by apply lookup_app_l_Some. Qed.

Lemma inactive_lt l : inactive l → e < length l.
Proof. intros (ef & Hl & _). by eapply lookup_lt_Some. Qed.

Lemma runners_alter f i l :
  (∀ c, c_runner (f c) = c_runner c) → runners_apart l → runners_apart (alter f i l).
Proof.
  intros Hf Hl c cr. destruct (decide (i = c)) as [->|Hne].
  - rewrite list_lookup_alter_eq. destruct (l !! c) as [cr0|] eqn:E; simpl; [|done].
    intros [= <-]. rewrite Hf. eauto.
  - rewrite list_lookup_alter_ne by done. eauto.
Qed.

Lemma Inv_upd_effect i f s :
  (∀ ef, isActive ef = false → isActive (f ef) = false) → Inv s → Inv (upd_effect i f s).
Proof. intros Hf (?&?&?). split_and!; simpl; auto using inactive_alter. Qed.

Lemma Inv_upd_computed i f s :
  (∀ c, c_runner (f c) = c_runner c) → Inv s → Inv (upd_computed i f s).
Proof.
  intros Hf (?&Ht&?). split_and!; simpl; auto.
  intros Htr. destruct (Ht Htr). auto using runners_alter.
Qed.

Lemma Inv_upd_watch i f s : Inv s → Inv (upd_watch i f s).
Proof. intros (?&?&?). split_and!; simpl; auto. Qed.

Lemma Inv_clear_queue s :
  Inv s → Inv (set_scheduledEffects [] (set_updateQueue [] s)).
Proof. intros (?&?&?). split_and!; simpl; auto. intros _. apply not_elem_of_nil. Qed.

Lemma Inv_same s s' :
  effects s' = effects s → deferred s' = deferred s → computeds s' = computeds s →
  updateQueue s' = updateQueue s → Inv s → Inv s'.
Proof. unfold Inv. intros -> -> -> ->. done. Qed.

Lemma active_ne s i : Inv s → is_active s i = true → i ≠ e.
Proof.
  intros ((ef & Hl & Ha) & _) Hi ->. unfold is_active in Hi. rewrite Hl in Hi. congruence.
Qed.

Lemma ok_job_None : ok_job None.
Proof. intros _. done. Qed.

Lemma ok_job_Some i : i ≠ e → ok_job (Some i).
Proof. intros Hi _. congruence. Qed.

Variable rec : call → M value.
Hypothesis Hrec : ∀ c s, ok_call c → Inv s → post (rec c s).

Lemma post_call_function cx f s :
  ok_job (job cx) → Inv s → post (call_function rec cx f s).
Proof. intros. by apply Hrec. Qed.

Lemma post_call_plain f s : Inv s → post (call_function rec no_ctx f s).
Proof. apply post_call_function, ok_job_None. Qed.

Lemma post_track t k s : Inv s → post (track t k s).
Proof.
  intros Hs. unfold track.
  destruct (activeEffect s) as [a|]; [|fin].
  destruct (negb (shouldTrack s) || negb (is_active s a)); [fin|].
  case_bool_decide; [fin|].
  apply post_returned. apply Inv_upd_effect; [done|].
  eapply Inv_same; [..|exact Hs]; reflexivity.
Qed.

Lemma post_cleanupEffect i s : Inv s → post (cleanupEffect i s).
Proof.
  intros Hs. unfold cleanupEffect.
  destruct (effects s !! i); [|fin].
  apply post_returned. apply Inv_upd_effect; [done|].
  eapply Inv_same; [..|exact Hs]; reflexivity.
Qed.

Lemma Inv_push i s : Inv s → Inv (push_effect i s).
Proof. intros Hs. eapply Inv_same; [..|exact Hs]; reflexivity. Qed.

Lemma Inv_pop s : Inv s → Inv (pop_effect s).
Proof. intros Hs. eapply Inv_same; [..|exact Hs]; reflexivity. Qed.

Lemma post_ref_get r s : Inv s → post (ref_get r s).
Proof.
  intros Hs. unfold ref_get. apply post_bind; [by apply post_track|].
  intros _ s1 Hs1. fin.
Qed.

Lemma post_computed_effectFn i s :
  (strong = true → i ≠ e) → Inv s → post (computed_effectFn rec i s).
Proof.
  intros Hi Hs. unfold computed_effectFn.
  apply post_bind; [apply post_emit; [done|by apply ok_event_invoke]|].
  intros _ s1 Hs1.
  destruct (effects s1 !! i) as [ef|]; [|fin].
  destruct (isStopped ef); [fin|].
  destruct (e_body ef); try fin.
  apply post_try_finally; [|apply Inv_pop].
  apply post_bind; [apply post_modify; by apply Inv_push|].
  intros _ s2 Hs2. apply post_bind; [apply post_emit; [done|by apply ok_event_body]|].
  intros _ s3 Hs3. apply post_bind; [by apply post_call_plain|].
  intros v s4 Hs4. apply post_bind; [apply post_modify; by apply Inv_upd_effect|].
  intros _ s5 Hs5. fin.
Qed.

Lemma post_computed_get c s : Inv s → post (computed_get rec c s).
Proof.
  intros Hs. unfold computed_get. apply post_bind; [by apply post_track|].
  intros _ s1 Hs1.
  destruct (computeds s1 !! c) as [cr|] eqn:Hc; [|fin].
  destruct (c_dirty cr); [|fin].
  apply post_bind.
  { apply post_computed_effectFn; [|done]. intros Hq.
    destruct Hs1 as (_&Ht&_). destruct (Ht (Hmode Hq)) as [_ Hr]. by eapply Hr. }
  intros v s2 Hs2. apply post_bind; [apply post_modify; by apply Inv_upd_computed|].
  intros _ s3 Hs3. apply post_bind; [apply post_modify; by apply Inv_upd_computed|].
  intros _ s4 Hs4. fin.
Qed.

Lemma post_getSourceValue src s : Inv s → post (getSourceValue rec src s).
Proof.
  revert s. induction src as [f|r|c|l IH|v] using
    (fix IHsrc (P : source → Prop)
       (Hf : ∀ f, P (SrcFunction f)) (Hr : ∀ r, P (SrcRef r)) (Hc : ∀ c, P (SrcComputed c))
       (Ha : ∀ l, Forall P l → P (SrcArray l)) (Hv : ∀ v, P (SrcValue v))
       (src : source) {struct src} : P src :=
       match src with
       | SrcFunction f => Hf f
       | SrcRef r => Hr r
       | SrcComputed c => Hc c
       | SrcArray l =>
           Ha l ((fix go (l : list source) : Forall P l :=
                    match l with
                    | [] => Forall_nil_2 P
                    | x :: l' => Forall_cons_2 P x l' (IHsrc P Hf Hr Hc Ha Hv x) (go l')
                    end) l)
       | SrcValue v => Hv v
       end); intros s Hs; simpl.
  - apply post_bind; [by apply post_call_plain|]. intros; fin.
  - apply post_bind; [by apply post_ref_get|]. intros; fin.
  - apply post_bind; [by apply post_computed_get|]. intros; fin.
  - apply post_bind; [|intros; fin].
    revert s Hs. induction IH as [|x l Hx _ IHl]; intros s Hs.
    + fin.
    + apply post_bind; [by apply Hx|]. intros v s1 Hs1.
      apply post_bind; [by apply IHl|]. intros; fin.
  - fin.
Qed.

Lemma post_call_callback w new old s : Inv s → post (call_callback rec w new old s).
Proof.
  intros Hs. unfold call_callback.
  destruct (watches s !! w); [|fin].
  apply post_bind; [apply post_emit; [done|by apply ok_event_other]|]. intros _ s1 Hs1.
  apply post_bind; [|intros; fin]. apply post_call_function; [|done]. apply ok_job_None.
Qed.

Lemma post_watch_update w s : Inv s → post (watch_update rec w s).
Proof.
  intros Hs. unfold watch_update.
  destruct (watches s !! w) as [wr|]; [|fin].
  apply post_bind; [by apply post_getSourceValue|]. intros nv s1 Hs1.
  destruct (watches s1 !! w) as [wr1|]; [|fin].
  destruct (isFirstRun wr1).
  - apply post_bind.
    { destruct (w_immediate wr1); [by apply post_call_callback|fin]. }
    intros _ s2 Hs2. apply post_bind; [apply post_modify; by apply Inv_upd_watch|].
    intros _ s3 Hs3. apply post_bind; [apply post_modify; by apply Inv_upd_watch|].
    intros; fin.
  - destruct (hasChanged (oldValue wr1) nv); [|fin].
    apply post_bind.
    { destruct (pendingCleanup wr1); [|fin].
      apply post_bind; [apply post_emit; [done|by apply ok_event_other]|]. intros _ s2 Hs2.
      apply post_bind; [by apply post_call_plain|]. intros _ s3 Hs3.
      apply post_modify; by apply Inv_upd_watch. }
    intros _ s2 Hs2. apply post_bind; [by apply post_call_callback|].
    intros _ s3 Hs3. apply post_bind; [apply post_modify; by apply Inv_upd_watch|].
    intros; fin.
Qed.

Lemma post_call_update b s : Inv s → post (call_update rec b s).
Proof.
  intros Hs. destruct b; simpl;
    [by apply post_call_plain | by apply post_watch_update | by apply post_call_plain].
Qed.

Lemma post_effectFn i s :
  (strong = true → i ≠ e) → Inv s → post (effectFn rec i s).
Proof.
  intros Hi Hs. unfold effectFn.
  apply post_bind; [apply post_emit; [done|by apply ok_event_invoke]|].
  intros _ s1 Hs1. apply post_bind.
  { destruct (cleanup <$> effects s1 !! i) as [[c|]|]; try fin.
    apply post_bind; [apply post_emit; [done|by apply ok_event_other]|]. intros _ s2 Hs2.
    apply post_bind; [by apply post_call_plain|]. intros _ s3 Hs3.
    apply post_modify; by apply Inv_upd_effect. }
  intros _ s2 Hs2. apply post_bind; [|intros; fin].
  apply post_try_finally; [|apply Inv_pop].
  apply post_bind; [apply post_modify; by apply Inv_push|].
  intros _ s3 Hs3. apply post_bind; [apply post_emit; [done|by apply ok_event_body]|].
  intros _ s4 Hs4. apply post_bind.
  { destruct (effects s4 !! i); [by apply post_call_update|fin]. }
  intros res s5 Hs5.
  destruct res; try fin.
  apply post_modify; by apply Inv_upd_effect.
Qed.

Lemma post_call_effect i s :
  (strong = true → i ≠ e) → Inv s → post (call_effect rec i s).
Proof.
  intros Hi Hs. unfold call_effect.
  destruct (effects s !! i) as [ef|].
  - destruct (e_body ef); [by apply post_effectFn..|by apply post_computed_effectFn].
  - split; [done|]. intros Hq. constructor; [by apply ok_event_invoke | constructor].
Qed.

Lemma post_enqueue i s : i ≠ e → Inv s → post (enqueue i s).
Proof.
  intros Hi Hs. unfold enqueue. case_bool_decide; [fin|].
  apply post_returned. destruct Hs as (?&?&Hq). split_and!; simpl; auto.
  intros Hs. rewrite set_add_elem. intros [?|?]; [by apply Hq|done].
Qed.

Lemma post_dispatch i s : i ≠ e → Inv s → post (dispatch rec i s).
Proof.
  intros Hi Hs. unfold dispatch.
  destruct (effects s !! i ≫= scheduler) as [[f|c]|].
  - apply post_bind; [apply post_emit; [done|by apply ok_event_other]|]. intros _ s1 Hs1.
    apply post_bind; [|intros; fin].
    apply post_call_function; [|done]. by apply ok_job_Some.
  - apply post_bind; [apply post_emit; [done|by apply ok_event_other]|]. intros _ s1 Hs1.
    apply post_bind; [|intros; fin]. by apply Hrec.
  - apply post_bind; [by apply post_call_effect|]. intros; fin.
Qed.

Lemma post_route i s : i ≠ e → Inv s → post (route rec i s).
Proof.
  intros Hi Hs. unfold route.
  destruct (batchUpdates (config s) && isBatching s);
    [by apply post_enqueue|by apply post_dispatch].
Qed.

Lemma post_trigger t k s : Inv s → post (trigger rec t k s).
Proof.
  intros Hs. unfold trigger.
  destruct (targetMap s !! (t, k)) as [dep|]; [|fin].
  apply post_forEach; [done|]. intros i s1 Hi Hs1. apply post_route; [|done].
  apply effectsToRun_elem in Hi as [_ [_ Hi]]. exact (active_ne s i Hs Hi).
Qed.

Lemma post_ref_set r v s : Inv s → post (ref_set rec r v s).
Proof.
  intros Hs. unfold ref_set.
  destruct (negb _); [|fin].
  apply post_bind; [|intros; by apply post_trigger].
  apply post_modify. eapply Inv_same; [..|exact Hs]; reflexivity.
Qed.

Lemma post_computed_scheduler c s : Inv s → post (computed_scheduler rec c s).
Proof.
  intros Hs. unfold computed_scheduler.
  destruct (computeds s !! c) as [cr|]; [|fin].
  destruct (negb (c_dirty cr)); [|fin].
  apply post_bind; [apply post_modify; by apply Inv_upd_computed|].
  intros _ s1 Hs1. destruct (negb (c_isSetting cr)); [by apply post_trigger|fin].
Qed.

Lemma post_computed_set c v s : Inv s → post (computed_set rec c v s).
Proof.
  intros Hs. unfold computed_set.
  destruct (computeds s !! c) as [cr|]; [|fin].
  destruct (c_setter cr); [|fin].
  apply post_bind; [apply post_modify; by apply Inv_upd_computed|].
  intros _ s1 Hs1. apply post_try_finally; [|intros; by apply Inv_upd_computed].
  apply post_bind; [by apply post_call_function|]. intros _ s2 Hs2.
  apply post_bind; [apply post_modify; by apply Inv_upd_computed|].
  intros; by apply post_trigger.
Qed.

Lemma post_flush_loop es s :
  (strong = true → e ∉ es) → Inv s → post (forEach (flush_one rec) es s).
Proof.
  intros Hes Hs. apply post_forEach; [done|]. intros i s1 Hi Hs1.
  unfold flush_one. apply post_try_catch.
  - apply post_bind; [|intros; fin].
    apply post_call_effect; [|done]. intros Hq ->. by apply Hes.
  - intros. apply post_emit; [done|by apply ok_event_other].
Qed.

Lemma post_flushBatch s : Inv s → post (flushBatch rec s).
Proof.
  intros Hs. unfold flushBatch. rewrite bind_modify.
  apply post_flush_loop; [by apply Hs|].
  apply Inv_clear_queue. eapply Inv_same; [..|exact Hs]; reflexivity.
Qed.

Lemma post_batch fn s : Inv s → post (batch rec fn s).
Proof.
  intros Hs. unfold batch.
  apply post_bind; [apply post_modify; eapply Inv_same; [..|exact Hs]; reflexivity|].
  intros _ s1 Hs1. apply post_try_catch.
  - apply post_bind; [by apply post_call_plain|]. intros res s2 Hs2.
    apply post_bind; [apply post_modify; eapply Inv_same; [..|exact Hs2]; reflexivity|].
    intros _ s3 Hs3. apply post_bind; [|intros; fin].
    destruct (_ && _); [by apply post_flushBatch|fin].
  - intros s2 Hs2. apply post_bind; [|intros; fin].
    apply post_modify. apply Inv_clear_queue. eapply Inv_same; [..|exact Hs2]; reflexivity.
Qed.

Lemma post_flushUpdates s : Inv s → post (flushUpdates rec s).
Proof.
  intros Hs. unfold flushUpdates.
  destruct (isBatching s); [by apply post_flushBatch|fin].
Qed.

Lemma post_stop i s : Inv s → post (stop rec i s).
Proof.
  intros Hs. unfold stop.
  destruct (is_active s i); [|fin].
  apply post_bind; [by apply post_cleanupEffect|]. intros _ s1 Hs1.
  apply post_bind; [apply post_modify; by apply Inv_upd_effect|]. intros _ s2 Hs2.
  apply post_bind.
  { destruct (cleanup <$> effects s2 !! i) as [[c|]|]; try fin.
    apply post_bind; [apply post_emit; [done|by apply ok_event_other]|]. intros _ s3 Hs3.
    apply post_bind; [by apply post_call_plain|]. intros; fin. }
  intros _ s3 Hs3. apply post_bind.
  { apply post_modify. destruct Hs3 as (?&?&Hq). split_and!; simpl; auto.
    intros Hst [? _]%set_delete_elem. by apply Hq. }
  intros _ s4 Hs4. apply post_modify. eapply Inv_same; [..|exact Hs4]; reflexivity.
Qed.

Lemma post_effect b lazy sch s : Inv s → post (effect rec b lazy sch s).
Proof.
  intros Hs. unfold effect.
  pose proof (inactive_lt _ (proj1 Hs)) as Hlt.
  apply post_bind.
  { apply post_modify. destruct Hs as (?&?&?). split_and!; simpl; auto using inactive_app. }
  intros _ s1 Hs1. apply post_bind; [|intros; fin].
  destruct lazy; [fin|]. apply post_effectFn; [|done]. lia.
Qed.

Lemma post_watch src cb imm s : Inv s → post (watch rec src cb imm s).
Proof.
  intros Hs. unfold watch.
  apply post_bind; [apply post_modify; eapply Inv_same; [..|exact Hs]; reflexivity|].
  intros _ s1 Hs1. apply post_bind; [by apply post_effect|]. intros; fin.
Qed.

Lemma post_watch_stop w s : Inv s → post (watch_stop rec w s).
Proof.
  intros Hs. unfold watch_stop.
  destruct (watches s !! w) as [wr|]; [|fin].
  apply post_bind; [by apply post_stop|]. intros _ s1 Hs1.
  destruct (watches s1 !! w ≫= pendingCleanup); [|fin].
  apply post_bind; [apply post_emit; [done|by apply ok_event_other]|]. intros _ s2 Hs2.
  apply post_bind; [by apply post_call_plain|]. intros; fin.
Qed.

Lemma post_computed g st s : Inv s → post (computed g st s).
Proof.
  intros Hs. unfold computed. apply post_returned.
  pose proof (inactive_lt _ (proj1 Hs)) as Hlt.
  destruct Hs as (?&Ht&?). split_and!; simpl; auto using inactive_app.
  intros Htr. destruct (Ht Htr) as [? Hr]. split; [done|].
  intros c cr [[_ ?]|[_ <-]]%lookup_snoc_Some; [by eapply Hr|]. simpl. lia.
Qed.

Lemma post_ref v s : Inv s → post (ref v s).
Proof.
  intros Hs. unfold ref. apply post_returned.
  eapply Inv_same; [..|exact Hs]; reflexivity.
Qed.

Lemma post_exec_cmd cx c s : ok_job (job cx) → Inv s → post (exec_cmd rec cx c s).
Proof.
  intros Hcx Hs. destruct c; cbn [exec_cmd].
  - fin.
  - fin.
  - apply post_bind; [by apply post_ref|]. intros; fin.
  - by apply post_ref_get.
  - apply post_bind; [by apply post_ref_set|]. intros; fin.
  - apply post_bind; [by apply post_ref_set|]. intros; fin.
  - apply post_bind; [by apply post_computed|]. intros; fin.
  - by apply post_computed_get.
  - apply post_bind; [by apply post_computed_set|]. intros; fin.
  - apply post_bind; [by apply post_effect|]. intros; fin.
  - apply post_bind; [by apply post_stop|]. intros; fin.
  - apply post_bind; [by apply post_watch|]. intros; fin.
  - apply post_bind; [by apply post_watch_stop|]. intros; fin.
  - by apply post_batch.
  - apply post_bind; [by apply post_flushUpdates|]. intros; fin.
  - fin.
  - destruct (job cx) as [j|] eqn:Hj; [|fin].
    apply post_call_effect; [|done]. intros Hq ->. exact (Hcx (Hmode Hq) eq_refl).
  - destruct (job cx) as [j|] eqn:Hj; [|fin].
    apply post_bind; [|intros; fin]. apply post_modify.
    destruct Hs as (?&Ht&?). split_and!; simpl; auto.
    intros Htr. destruct (Ht Htr) as [Hd ?]. split; [|done].
    rewrite elem_of_app, list_elem_of_singleton. intros [?|Heq]; [done|].
    subst j. exact (Hcx Htr eq_refl).
  - destruct (deferred s) as [|j rest] eqn:Hd; [fin|].
    apply post_bind.
    + apply post_modify. destruct Hs as (?&Ht&?). split_and!; simpl; auto.
      intros Htr. destruct (Ht Htr) as [Hd' ?]. split; [|done].
      rewrite Hd in Hd'. apply not_elem_of_cons in Hd'. tauto.
    + intros _ s1 Hs1. apply post_call_effect; [|done].
      intros Hq ->. destruct Hs as (_&Ht&_). destruct (Ht (Hmode Hq)) as [Hd' _].
      rewrite Hd in Hd'. apply Hd'. left.
  - destruct (onCleanup cx); [|fin].
    apply post_bind; [apply post_modify; by apply Inv_upd_watch|]. intros; fin.
Qed.

Lemma post_exec_cmds cx cs v s : ok_job (job cx) → Inv s → post (exec_cmds rec cx cs v s).
Proof.
  intros Hcx. revert v s. induction cs as [|c cs IH]; intros v s Hs; simpl.
  - fin.
  - apply post_bind; [by apply post_exec_cmd|]. intros; by apply IH.
Qed.

End Stopped.

Lemma run_post (funs : nat → list cmd) (e : nat) (tracked strong : bool) (n : nat) :
  (strong = true → tracked = true) →
  ∀ c s, ok_call e tracked c → Inv e tracked strong s → post e tracked strong (run funs n c s).
Proof.
  intros Hmode. induction n as [|n IH]; intros c s Hc Hs; simpl; [done|].
  destruct c as [cx f|c]; simpl.
  - by apply post_exec_cmds.
  - apply post_bind; [by apply post_computed_scheduler|]. intros. by apply post_ret.
Qed.


Lemma stop_unfold rec e s :
  is_active s e = true →
  stop rec e s =
  match stop_cleanup rec e (deactivated e s) with
  | Returned _ s3 t => Returned tt (unqueue e s3) t
  | Thrown s3 t => Thrown s3 t
  | OutOfFuel => OutOfFuel
  end.
Proof.
  intros Ha. unfold stop. rewrite Ha.
  unfold bind at 1. unfold cleanupEffect, deactivated.
  assert (Hrest : ∀ S,
    ((fun s => match cleanup <$> effects s !! e with
               | Some (Some c) =>
                   (emit (EvCleanup e) >>> call_function rec no_ctx c >>> ret tt) s
               | _ => Returned tt s []
               end) >>>
     modify (fun s => set_updateQueue (set_delete (updateQueue s) e) s) >>>
     modify (fun s => set_scheduledEffects (set_delete (scheduledEffects s) e) s)) S =
    match stop_cleanup rec e S with
    | Returned _ s3 t => Returned tt (unqueue e s3) t
    | Thrown s3 t => Thrown s3 t
    | OutOfFuel => OutOfFuel
    end).
  { intros S. unfold bind at 1. fold (stop_cleanup rec e S).
    destruct (stop_cleanup rec e S) as [[] s3 t| |]; [|reflexivity..].
    rewrite !bind_modify. simpl. rewrite app_nil_r. reflexivity. }
  destruct (effects s !! e) as [ef|] eqn:He; rewrite prepend_nil, bind_modify; apply Hrest.
Qed.

Lemma deactivated_inactive e s : is_active s e = true → inactive e (effects (deactivated e s)).
Proof.
  unfold is_active, deactivated, inactive. intros Ha.
  destruct (effects s !! e) as [ef|] eqn:He; [|done].
  simpl. rewrite !list_lookup_alter_eq, He. simpl. eauto.
Qed.


Section StopCleanup.

Variable e : nat.
Variables tracked strong : bool.
Hypothesis Hmode : strong = true → tracked = true.
Variable rec : call → M value.
Hypothesis Hrec : ∀ c s, ok_call e tracked c → Inv e tracked strong s → post e tracked strong (rec c s).

Lemma post_stop_cleanup i s :
  Inv e tracked strong s → post e tracked strong (stop_cleanup rec i s).
Proof.
  intros Hs. unfold stop_cleanup.
  destruct (cleanup <$> effects s !! i) as [[c|]|]; try (by apply post_returned).
  apply post_bind; [apply post_emit; [done|by apply ok_event_other]|]. intros _ s3 Hs3.
  apply post_bind; [by apply post_call_plain|]. intros. by apply post_ret.
Qed.

End StopCleanup.

Lemma stop_leaves_inactive funs n e s :
  match stop (run funs n) e s with
  | Returned _ s1 _ | Thrown s1 _ => is_active s1 e = false
  | OutOfFuel => True
  end.
Proof.
  destruct (is_active s e) eqn:Ha.
  - rewrite stop_unfold by done.
    assert (Inv e false false (deactivated e s)) as Hinv.
    { split_and!; [by apply deactivated_inactive|done..]. }
    pose proof (post_stop_cleanup e false false (run funs n)
                  (run_post funs e false false n (fun H => H)) e _ Hinv) as Hp.
    destruct (stop_cleanup _ _ _) as [[] s3 t|s3 t|]; [| |done].
    + destruct Hp as [((ef & He & Hf) & _) _]. unfold is_active, unqueue. simpl.
      by rewrite He.
    + destruct Hp as [((ef & He & Hf) & _) _]. unfold is_active. by rewrite He.
  - unfold stop. by rewrite Ha.
Qed.



(** ** A batch of writes *)

Lemma grows_refl s : grows s s.
Proof. split; auto. Qed.

Lemma grows_trans s1 s2 s3 : grows s1 s2 → grows s2 s3 → grows s1 s3.
Proof.
  intros [c1 b1 k1 e1 t1 a1 keep1 new1 wr1] [c2 b2 k2 e2 t2 a2 keep2 new2 wr2].
  split; try congruence; auto.
  - intros i Hi. destruct (new2 i Hi) as [H|H]; [auto|].
    right. unfold is_active in *. by rewrite <- e1.
  - intros r. destruct (wr1 r) as [H1|H1]; [|right; auto].
    destruct (wr2 r) as [H2|H2]; [left; congruence|].
    right. intros i Hi Ha Hne. apply H2.
    + unfold dep_of in *. by rewrite t1.
    + unfold is_active in *. by rewrite e1.
    + by rewrite a1.
Qed.

Lemma calm_bind {A B} (m : M A) (k : A → M B) s :
  calm s (m s) → (∀ a s1, grows s s1 → pending_ok s1 → calm s1 (k a s1)) → calm s (bind m k s).
Proof.
  intros (a & s1 & Hm & Hg & Hp) Hk. unfold bind. rewrite Hm.
  destruct (Hk a s1 Hg Hp) as (b & s2 & Hk' & Hg' & Hp').
  exists b, s2. rewrite Hk'. split_and!; [done| |done]. by eapply grows_trans.
Qed.

Lemma calm_ret {A} (a : A) s : pending_ok s → calm s (ret a s).
Proof. intros. exists a, s. split_and!; [done|apply grows_refl|done]. Qed.

Lemma calm_enqueue e s :
  pending_ok s → is_active s e = true → calm s (enqueue e s) ∧
  ∀ a s1, enqueue e s = Returned a s1 [] → e ∈ updateQueue s1.
Proof.
  intros (Hb & Hi & Hq & Hnd) Ha. unfold enqueue. case_bool_decide as He.
  - split; [apply calm_ret; done|]. intros a s1 [= _ <-]. by rewrite <- Hq.
  - split.
    + eexists tt, _. split; [reflexivity|]. split.
      * split; simpl; auto.
        -- intros i Hi'. apply set_add_elem. auto.
        -- intros i [?| ->]%set_add_elem; auto.
      * split_and!; simpl; auto.
        -- by rewrite Hq.
        -- by apply set_add_NoDup.
    + intros a s1 [= _ <-]. simpl. apply set_add_elem. auto.
Qed.

Lemma calm_forEach_route rec es s :
  pending_ok s → (∀ i, i ∈ es → is_active s i = true) →
  ∃ s1, forEach (route rec) es s = Returned tt s1 [] ∧ grows s s1 ∧ pending_ok s1 ∧
        ∀ i, i ∈ es → i ∈ updateQueue s1.
Proof.
  revert s. induction es as [|x es IH]; intros s Hp Hact.
  - exists s. split_and!; [done|apply grows_refl|done|]. intros i Hi. inversion Hi.
  - destruct (calm_enqueue x s Hp) as [(a & s1 & Hx & Hg & Hp1) Hin].
    { apply Hact. left. }
    destruct (IH s1 Hp1) as (s2 & Hes & Hg2 & Hp2 & Hin2).
    { intros i Hi. unfold is_active. rewrite (g_effects _ _ Hg). apply Hact. by right. }
    exists s2. split_and!.
    + simpl. unfold bind. unfold route at 1.
      destruct Hp as (-> & -> & _). simpl. rewrite Hx. rewrite Hes. by destruct a.
    + by eapply grows_trans.
    + done.
    + intros i [->|Hi]%elem_of_cons; [|auto]. eapply g_keep; [exact Hg2|]. by eapply Hin.
Qed.

Lemma calm_trigger rec t k s :
  pending_ok s →
  ∃ s1, trigger rec t k s = Returned tt s1 [] ∧ grows s s1 ∧ pending_ok s1 ∧
        ∀ i, i ∈ dep_of s (t, k) → is_active s i = true → activeEffect s ≠ Some i →
             i ∈ updateQueue s1.
Proof.
  intros Hp. unfold trigger, dep_of.
  destruct (targetMap s !! (t, k)) as [dep|]; simpl.
  - destruct (calm_forEach_route rec (effectsToRun s dep) s Hp) as (s1 & H1 & H2 & H3 & H4).
    { intros i Hi%effectsToRun_elem. apply Hi. }
    exists s1. split_and!; try done. intros i Hi Ha Hne. apply H4.
    apply effectsToRun_elem. by repeat split.
  - exists s. split_and!; [done|apply grows_refl|done|]. intros i Hi. inversion Hi.
Qed.

Lemma calm_ref_set rec r v s :
  pending_ok s →
  ∃ s1, ref_set rec r v s = Returned tt s1 [] ∧ grows s s1 ∧ pending_ok s1 ∧
        (Object_is (default VUndefined (refs s !! r)) v = false →
         ∀ i, i ∈ dep_of s (TRef r, "value") → is_active s i = true →
              activeEffect s ≠ Some i → i ∈ updateQueue s1).
Proof.
  intros Hp. unfold ref_set.
  destruct (Object_is _ v) eqn:Hv; cbn [negb].
  - exists s. split_and!; [done|apply grows_refl|done|done].
  - destruct (calm_trigger rec (TRef r) "value" (set_refs (<[r:=v]> (refs s)) s))
      as (s1 & H1 & H2 & H3 & H4); [done|].
    exists s1. rewrite bind_modify. split_and!; try done.
    destruct H2 as [c2 b2 k2 e2 t2 a2 keep2 new2 wr2]. split; auto.
    intros r'. destruct (decide (r' = r)) as [->|Hr]; [right; exact H4|].
    destruct (wr2 r') as [Hw|Hw]; [|right; exact Hw].
    left. rewrite Hw. simpl. by apply list_lookup_insert_ne.
Qed.

Section FnPhase.

Variable funs : nat → list cmd.
Variable rec : call → M value.
Variable writes : nat → bool.
Hypothesis Hrec : ∀ cx g s, writes g = true → pending_ok s → calm s (rec (CallFunction cx g) s).

Lemma calm_batch g s : writes g = true → pending_ok s → calm s (batch rec g s).
Proof.
  intros Hg Hp. unfold batch. cbv zeta. rewrite bind_modify.
  pose proof Hp as (Hb & Hi & Hq & Hnd). rewrite Hi.
  set (s0 := set_isBatching true (set_batchStack (batchStack s + 1) s)).
  assert (pending_ok s0) as Hp0 by (split_and!; done).
  destruct (Hrec no_ctx g s0 Hg Hp0) as (v & s1 & Hcall & Hgr & Hp1).
  exists v, (set_batchStack (batchStack s1 - 1) s1). split_and!.
  - apply try_catch_returned.
    rewrite (bind_returned _ _ _ _ _ _ Hcall), prepend_nil, bind_modify.
    unfold bind at 1. rewrite andb_false_r. reflexivity.
  - destruct Hgr. subst s0. split; simpl in *; auto; [congruence | lia].
  - destruct Hp1 as (?&?&?&?). split_and!; done.
Qed.

Lemma calm_exec_cmd cx c s :
  write_cmd writes c = true → pending_ok s → calm s (exec_cmd rec cx c s).
Proof.
  intros Hc Hp. destruct c; try discriminate; cbn [exec_cmd].
  - by apply calm_ret.
  - by apply calm_ret.
  - apply calm_bind; [|intros; by apply calm_ret].
    destruct (calm_ref_set rec r v s Hp) as (s1 & H1 & H2 & H3 & _). by exists tt, s1.
  - apply calm_bind; [|intros; by apply calm_ret].
    destruct (calm_ref_set rec r (arg cx) s Hp) as (s1 & H1 & H2 & H3 & _). by exists tt, s1.
  - by apply calm_batch.
Qed.

Lemma calm_exec_cmds cx cs v s :
  forallb (write_cmd writes) cs = true → pending_ok s → calm s (exec_cmds rec cx cs v s).
Proof.
  revert v s. induction cs as [|c cs IH]; intros v s Hcs Hp; simpl.
  - by apply calm_ret.
  - simpl in Hcs. apply andb_true_iff in Hcs as [Hc Hcs].
    apply calm_bind; [by apply calm_exec_cmd|]. intros; by apply IH.
Qed.

End FnPhase.

Lemma fn_phase funs d : ∀ n, d ≤ n → ∀ cx g s,
  writes_only funs d g = true → pending_ok s → calm s (run funs n (CallFunction cx g) s).
Proof.
  induction d as [|d IH]; intros n Hn cx g s Hg Hp; [done|].
  destruct n as [|n]; [lia|]. simpl in *.
  eapply calm_exec_cmds; [|exact Hg|done].
  intros cx' g' s' Hg' Hp'. apply IH; [lia|done..].
Qed.
















Lemma straight_weaken {A} x s t (o : outcome A) : straight None s t o → straight x s t o.
Proof.
  intros (a & s1 & -> & [q c b kb kc]). exists a, s1. split; [done|].
  split; auto.
Qed.









(** The program of the test "should handle nested batch calls": the
    observer runs once more, after the outer function has returned. *)
Lemma batch_example_runs :
  ∃ s, batch (run batch_example 3) 2 batch_example_ready
       = Returned (num 20) s [EvInvoke 0; EvBody 0].
Proof. eexists. vm_compute. reflexivity. Qed.

End CoreProofs.

(** * Properties of the observed wrapper *)

Module ObservedProofs.

Import Core Observed ObservedExamples.

(** ** Wrapping on read *)

Lemma depth_limit_nonneg (s : OState) : (0 ≤ maxDepth s)%Z → (0 >? depth_limit s)%Z = false.
Proof.
  intros H. unfold depth_limit. destruct (Z.eqb_spec (maxDepth s) 0); lia.
Qed.

Lemma reactive_wraps (s : OState) (a : nat) :
  (0 ≤ maxDepth s)%Z → isReactiveEligible s (VObject a) = true →
  ∃ p s', reactive (VObject a) 0 s = Some (Proxy p, s', []).
Proof.
  intros Hd He. unfold reactive. rewrite (depth_limit_nonneg s Hd), He. simpl.
  destruct (reactiveMap s !! a) as [p|]; [eauto|].
  unfold isReactiveEligible in He.
  destruct (obj_at s a) as [[| |]|]; try discriminate; eauto.
Qed.

(** A [get] through a proxy never looks at how deep its target lies: when the
    value read is an eligible object it comes back wrapped. *)
Lemma proxy_get_wraps_at_any_depth (s : OState) (target a : nat) (o : object) (k : key) :
  (0 ≤ maxDepth s)%Z →
  obj_at s target = Some o →
  Reflect_get o k = VObject a →
  isReactiveEligible s (VObject a) = true →
  k ≠ KProp "__isReactive" →
  is_mutating_method k = None →
  ∃ p s', proxy_get target k s = Some (Proxy p, s', [Track target k]).
Proof.
  intros Hd Ho Hget He Hk Hm. unfold proxy_get.
  rewrite bool_decide_eq_false_2 by done. rewrite Ho.
  destruct (reactive_wraps s a Hd He) as (p & s' & Hr).
  assert (wrap (VObject a) s = Some (Proxy p, s', [])) as Hw.
  { unfold wrap. by rewrite He. }
  exists p, s'. destruct (is_array s target).
  - rewrite Hm, Hget. unfold obind, track, note_. rewrite Hw. reflexivity.
  - rewrite Hget. unfold obind, track, note_. rewrite Hw. reflexivity.
Qed.

(** Claim C3 fails on the code.  With the default limit of 10, twelve
    objects nested one in another are read through [reactive(root)]: the
    twelfth read still returns a proxy.  [reactive] itself returns its target
    as it is when called with a depth of 11, but the [get] traps call it with
    no depth, that is with depth 0. *)
Theorem nested_read_wrapped_beyond_max_depth :
  depth_limit (nested_state 12) = 10%Z ∧
  result_of (read_nested 12 (nested_state 12))
  = Some (Proxy 12, (fun a => Track a (KProp "child")) <$> seq 0 12) ∧
  result_of (reactive (VObject 12) 11 (nested_state 12)) = Some (Raw (VObject 12), []).
Proof. split_and!; vm_compute; reflexivity. Qed.

(** ** Arrays *)

Lemma obj_at_store_eq (s : OState) (a : nat) (o o' : object) :
  obj_at s a = Some o → obj_at (store a o' s) a = Some o'.
Proof. intros H. unfold obj_at, store. simpl. apply list_lookup_insert_eq. by eapply lookup_lt_Some. Qed.

Lemma obj_at_store_ne (s : OState) (a b : nat) (o' : object) :
  a ≠ b → obj_at (store a o' s) b = obj_at s b.
Proof. intros H. unfold obj_at, store. simpl. by apply list_lookup_insert_ne. Qed.

Lemma array_method_handler_frame (t : nat) (m : method) (s1 s2 : OState) r n (b : nat) :
  array_method_handler t m s1 = Some (r, s2, n) → b ≠ t → obj_at s2 b = obj_at s1 b.
Proof.
  unfold array_method_handler. intros H Hb.
  destruct (obj_at s1 t) as [[|elems extra|]|] eqn:Ho; try discriminate.
  destruct (apply_method m elems) as [elems' result].
  unfold obind, trigger, note_, oret, handleArrayMethodTriggers in H.
  destruct (bool_decide _) in H; simpl in H; injection H as _ <- _;
    unfold obj_at; simpl; by rewrite list_lookup_insert_ne.
Qed.

Lemma reactive_not_handler (v : value) (d : Z) (s s' : OState) t name n :
  reactive v d s ≠ Some (MethodHandler t name, s', n).
Proof.
  unfold reactive.
  destruct (_ >? _)%Z; [discriminate|].
  destruct (negb _); [discriminate|].
  destruct v; try discriminate.
  destruct (reactiveMap s !! a); [discriminate|].
  destruct (obj_at s a) as [[| |]|]; discriminate.
Qed.

Lemma wrap_not_handler (v : value) (s s' : OState) t name n :
  wrap v s ≠ Some (MethodHandler t name, s', n).
Proof.
  unfold wrap. destruct (isReactiveEligible s v); [apply reactive_not_handler|discriminate].
Qed.

Lemma proxy_get_handler (t : nat) (k : key) (s s' : OState) t' name n :
  proxy_get t k s = Some (MethodHandler t' name, s', n) → t' = t ∧ s' = s.
Proof.
  unfold proxy_get. destruct (bool_decide _); [discriminate|].
  destruct (obj_at s t) as [o|]; [|discriminate].
  unfold obind, track, note_, oret.
  destruct (is_array s t).
  - destruct (is_mutating_method k).
    + intros H. by simplify_eq.
    + destruct (wrap _ s) as [[[f s1] n1]|] eqn:Hw; [|discriminate].
      intros H. simplify_eq. by apply wrap_not_handler in Hw.
  - destruct (wrap _ s) as [[[f s1] n1]|] eqn:Hw; [|discriminate].
    intros H. simplify_eq. by apply wrap_not_handler in Hw.
Qed.

Lemma proxy_mutate_frame (t : nat) (mu : mutation) (s1 s2 : OState) r n (b : nat) :
  proxy_mutate t mu s1 = Some (r, s2, n) → b ≠ t → obj_at s2 b = obj_at s1 b.
Proof.
  intros H Hb. destruct mu as [k v|k|m]; simpl in H.
  - unfold obind, proxy_set in H.
    destruct (obj_at s1 t) as [o|] eqn:Ho; [|discriminate].
    destruct (Object_is _ v); [simpl in H; by injection H as _ <- _|].
    destruct (Reflect_set o k v) as [[o' res]|]; [|discriminate].
    unfold obind, trigger, note_, oret in H.
    destruct res; [destruct (_ && _) in H|]; simpl in H; injection H as _ <- _;
      unfold obj_at; simpl; by rewrite list_lookup_insert_ne.
  - unfold obind, proxy_deleteProperty in H.
    destruct (obj_at s1 t) as [o|] eqn:Ho; [|discriminate].
    destruct (Reflect_deleteProperty o k) as [o' res].
    unfold obind, trigger, note_, oret in H.
    destruct (_ && _) in H; [destruct (is_array s1 t) in H|]; simpl in H;
      injection H as _ <- _; unfold obj_at; simpl; by rewrite list_lookup_insert_ne.
  - unfold proxy_call, obind in H.
    destruct (proxy_get t (KProp (method_name m)) s1) as [[[f s1'] n1]|] eqn:Hget; [|discriminate].
    destruct f as [|?|t' name]; try discriminate.
    destruct (array_method_handler t' m s1') as [[[r' s2'] n2]|] eqn:Hh; [|discriminate].
    injection H as _ <- _.
    apply proxy_get_handler in Hget as [-> ->].
    by eapply array_method_handler_frame.
Qed.

Lemma mutate_same_but (a : nat) (mu : mutation) (s1 s2 : OState) r n :
  is_array s1 a = true →
  mutate a mu s1 = Some (r, s2, n) →
  n = [] ∧ same_but a s1 s2.
Proof.
  unfold is_array, mutate. intros Ha H.
  destruct (obj_at s1 a) as [[|elems extra|]|] eqn:Ho; try discriminate.
  assert (∀ o', (∃ e' x', o' = Array e' x') → n = [] ∧ s2 = store a o' s1 →
                n = [] ∧ same_but a s1 s2) as Hfin.
  { intros o' (e' & x' & ->) [-> ->]. split; [done|]. split_and!; simpl; try done.
    - apply length_insert.
    - intros b Hb. by apply obj_at_store_ne.
    - unfold is_array. by rewrite Ho.
    - unfold is_array. by rewrite (obj_at_store_eq _ _ _ _ Ho). }
  destruct mu as [k v|k|m].
  - destruct (Reflect_set (Array elems extra) k v) as [[o' res]|] eqn:Hs; [|discriminate].
    injection H as _ <- <-. apply (Hfin o'); [|done].
    simpl in Hs. destruct k; try (injection Hs as <- _; eauto).
    destruct v; try discriminate. destruct (to_nat x); [|discriminate].
    injection Hs as <- _; eauto.
  - destruct (Reflect_deleteProperty (Array elems extra) k) as [o' res] eqn:Hd.
    injection H as _ <- <-. apply (Hfin o'); [|done].
    simpl in Hd. destruct k; injection Hd as <- _; eauto.
  - destruct (apply_method m elems) as [elems' r'].
    injection H as _ <- <-. apply (Hfin (Array elems' extra)); eauto.
Qed.

(** What a proxy lets one see is the same in two such states. *)
Lemma isReactiveEligible_same_but a s1 s2 v :
  same_but a s1 s2 → isReactiveEligible s2 v = isReactiveEligible s1 v.
Proof.
  intros (_ & _ & _ & Hne & Ha1 & Ha2). destruct v; try done. simpl.
  destruct (decide (a0 = a)) as [->|Hb].
  - unfold is_array in *. destruct (obj_at s1 a) as [[| |]|]; try discriminate.
    destruct (obj_at s2 a) as [[| |]|]; try discriminate. done.
  - by rewrite Hne.
Qed.

Lemma reactive_same_but a s1 s2 v d :
  same_but a s1 s2 → is_Some (reactiveMap s1 !! a) →
  result_of (reactive v d s2) = result_of (reactive v d s1).
Proof.
  intros Hsb Hmap. pose proof Hsb as (Hlen & Hrm & Hmd & Hne & Ha1 & Ha2).
  unfold reactive, depth_limit. rewrite Hmd.
  destruct (_ >? _)%Z; [done|].
  rewrite (isReactiveEligible_same_but a s1 s2 v Hsb).
  destruct (negb _); [done|].
  destruct v; try done. rewrite Hrm.
  destruct (reactiveMap s1 !! a0) as [p|] eqn:Hp; [done|].
  assert (a0 ≠ a) as Hb. { intros ->. rewrite Hp in Hmap. by destruct Hmap. }
  rewrite (Hne a0 Hb).
  destruct (obj_at s1 a0) as [[| |]|]; simpl; rewrite ?Hlen; done.
Qed.

Lemma proxy_reads_same_but (a p : nat) (s1 s2 : OState) :
  same_but a s1 s2 → is_Some (reactiveMap s1 !! a) → p ≠ a →
  (∀ k, result_of (proxy_get p k s2) = result_of (proxy_get p k s1)) ∧
  (∀ k, result_of (proxy_has p k s2) = result_of (proxy_has p k s1)) ∧
  result_of (proxy_ownKeys p s2) = result_of (proxy_ownKeys p s1).
Proof.
  intros Hsb Hmap Hp. pose proof Hsb as (Hlen & Hrm & Hmd & Hne & Ha1 & Ha2).
  assert (∀ v, result_of (wrap v s2) = result_of (wrap v s1)) as Hwrap.
  { intros v. unfold wrap. rewrite (isReactiveEligible_same_but a s1 s2 v Hsb).
    destruct (isReactiveEligible s1 v); [|done]. by apply reactive_same_but with a. }
  assert (is_array s2 p = is_array s1 p) as Harr.
  { unfold is_array. by rewrite (Hne p Hp). }
  split_and!.
  - intros k. unfold proxy_get. destruct (bool_decide _); [done|].
    rewrite (Hne p Hp), Harr. destruct (obj_at s1 p) as [o|]; [|done].
    unfold obind, track, note_, oret.
    destruct (is_array s1 p).
    + destruct (is_mutating_method k); [done|].
      specialize (Hwrap (Reflect_get o k)).
      destruct (wrap _ s2) as [[[? ?] ?]|], (wrap _ s1) as [[[? ?] ?]|];
        simpl in *; congruence.
    + specialize (Hwrap (Reflect_get o k)).
      destruct (wrap _ s2) as [[[? ?] ?]|], (wrap _ s1) as [[[? ?] ?]|];
        simpl in *; congruence.
  - intros k. unfold proxy_has. rewrite (Hne p Hp). by destruct (obj_at s1 p).
  - unfold proxy_ownKeys. rewrite (Hne p Hp). by destruct (obj_at s1 p).
Qed.

(** Claim C10.  [reactive] applied to an array that has no proxy yet makes
    the proxy over a new array holding the same elements, at a new address,
    and leaves the array as it is.  A write, a delete or a mutating method
    call made through that proxy, in any state, leaves the original array as
    it is.  A write, a delete or a mutating method call made on the original
    array itself calls neither [track] nor [trigger], leaves the array of the
    proxy as it is, and changes nothing of what [reactive] and the [get],
    [has] and [ownKeys] traps of the proxy return. *)
Theorem array_proxy_over_copy (s : OState) (a : nat) (elems : list (option value))
    (extra : gmap key value) :
  obj_at s a = Some (Array elems extra) →
  reactiveMap s !! a = None →
  (0 ≤ maxDepth s)%Z →
  let array := length (heap s) in
  ∃ s',
    reactive (VObject a) 0 s = Some (Proxy array, s', []) ∧
    array ≠ a ∧
    obj_at s' array = Some (Array (spread elems) ∅) ∧
    obj_at s' a = Some (Array elems extra) ∧
    reactiveMap s' !! a = Some array ∧
    (∀ mu s1 r s2 n,
       proxy_mutate array mu s1 = Some (r, s2, n) → obj_at s2 a = obj_at s1 a) ∧
    (∀ mu s1 r s2 n,
       is_array s1 a = true → reactiveMap s1 !! a = Some array →
       mutate a mu s1 = Some (r, s2, n) →
       n = [] ∧
       obj_at s2 array = obj_at s1 array ∧
       reactiveMap s2 = reactiveMap s1 ∧
       result_of (reactive (VObject a) 0 s2) = result_of (reactive (VObject a) 0 s1) ∧
       (∀ k, result_of (proxy_get array k s2) = result_of (proxy_get array k s1)) ∧
       (∀ k, result_of (proxy_has array k s2) = result_of (proxy_has array k s1)) ∧
       result_of (proxy_ownKeys array s2) = result_of (proxy_ownKeys array s1)).
Proof.
  intros Ho Hm Hd array.
  assert (array ≠ a) as Hne.
  { apply lookup_lt_Some in Ho. unfold array. lia. }
  eexists. split_and!.
  - assert (isReactiveEligible s (VObject a) = true) as He.
    { unfold isReactiveEligible. by rewrite Ho. }
    unfold reactive. rewrite (depth_limit_nonneg s Hd), He, Hm, Ho. reflexivity.
  - done.
  - unfold obj_at. simpl. rewrite lookup_app_r by done.
    by rewrite Nat.sub_diag.
  - unfold obj_at. simpl. by apply lookup_app_l_Some.
  - simpl. apply lookup_insert_eq.
  - intros mu s1 r s2 n H. eapply proxy_mutate_frame; [exact H|]. done.
  - intros mu s1 r s2 n Ha Hmap H.
    destruct (mutate_same_but a mu s1 s2 r n Ha H) as [-> Hsb].
    pose proof Hsb as (Hlen & Hrm & Hmd & Hother & _).
    assert (is_Some (reactiveMap s1 !! a)) as Hsome by (rewrite Hmap; eauto).
    destruct (proxy_reads_same_but a array s1 s2 Hsb Hsome Hne) as (Hg & Hh & Hk).
    split_and!; try done.
    + by apply Hother.
    + by apply reactive_same_but with a.
Qed.

(** A use of [array_proxy_over_copy]: the array [[1, 2]]. *)
Lemma array_proxy_over_copy_witness :
  ∃ s', reactive (VObject 0) 0 array_state = Some (Proxy 1, s', []) ∧
        obj_at s' 1 = Some (Array [Some (num 1); Some (num 2)] ∅) ∧
        obj_at s' 0 = Some (Array [Some (num 1); Some (num 2)] ∅).
Proof.
  destruct (array_proxy_over_copy array_state 0 [Some (num 1); Some (num 2)] ∅
              eq_refl eq_refl ltac:(vm_compute; discriminate))
    as (s' & H1 & _ & H3 & H4 & _).
  exists s'. split_and!; [exact H1 | exact H3 | exact H4].
Defined.

(** After a push through the proxy and a write to the array itself, the
    proxy reads its own first element, and the two arrays have gone apart. *)
Lemma push_then_write_runs :
  ∃ s, push_then_write array_state
       = Some (Raw (num 1), s,
               [Track 1 (KProp "push"); Trigger 1 KLength; Trigger 1 (KProp "keys");
                Trigger 1 (KIndex 2); Track 1 (KIndex 0)]) ∧
       obj_at s 0 = Some (Array [Some (num 9); Some (num 2)] ∅) ∧
       obj_at s 1 = Some (Array [Some (num 1); Some (num 2); Some (num 3)] ∅).
Proof. eexists. split_and!; vm_compute; reflexivity. Qed.

End ObservedProofs.

Module EngineProofs.

Import Core Invariants Wellformed CoreProofs.

(** ** Frames *)

Lemma same_role_refl ef : same_role ef ef.
Proof. by split_and!. Qed.

Lemma same_computed_refl cr : same_computed cr cr.
Proof. by split_and!. Qed.

Lemma Frame_refl s : Frame s s.
Proof.
  split; try done.
  - intros e ef He. eauto using same_role_refl.
  - intros c cr Hc. eauto using same_computed_refl.
  - auto.
Qed.

Lemma Frame_trans s1 s2 s3 : Frame s1 s2 → Frame s2 s3 → Frame s1 s3.
Proof.
  intros [c1 t1 k1 a1 e1 m1 r1 u1] [c2 t2 k2 a2 e2 m2 r2 u2].
  split; try congruence; [| |lia|].
  - intros e ef He. destruct (e1 e ef He) as (ef1 & He1 & b1 & h1 & i1).
    destruct (e2 e ef1 He1) as (ef2 & He2 & b2 & h2 & i2).
    exists ef2. split; [done|]. split_and!; [congruence..|auto].
  - intros c cr Hc. destruct (m1 c cr Hc) as (cr1 & Hc1 & g1 & st1 & rn1).
    destruct (m2 c cr1 Hc1) as (cr2 & Hc2 & g2 & st2 & rn2).
    exists cr2. split; [done|]. split_and!; congruence.
  - intros k e He. destruct (u1 k e He) as [H1|(ef1 & He1 & Hi1)]; [auto|].
    right. destruct (e2 e ef1 He1) as (ef2 & He2 & _ & _ & i2). eauto.
Qed.

(** A state that differs in none of the fields a frame looks at. *)
Lemma Frame_fields s s' :
  config s' = config s → shouldTrack s' = shouldTrack s →
  effectStack s' = effectStack s → activeEffect s' = activeEffect s →
  effects s' = effects s → computeds s' = computeds s →
  targetMap s' = targetMap s →
  length (refs s) ≤ length (refs s') → Frame s s'.
Proof.
  intros Hc Ht Hk Ha He Hm Htm Hr. split; try done.
  - intros e ef. rewrite He. eauto using same_role_refl.
  - intros c cr. rewrite Hm. eauto using same_computed_refl.
  - intros k e. unfold dep_of. rewrite Htm. auto.
Qed.

Lemma Frame_upd_effect i f s :
  (∀ ef, same_role ef (f ef)) → Frame s (upd_effect i f s).
Proof.
  intros Hf. split; try done; simpl.
  - intros e ef He. destruct (decide (i = e)) as [->|Hne].
    + rewrite list_lookup_alter_eq, He. simpl. eauto.
    + rewrite list_lookup_alter_ne by done. eauto using same_role_refl.
  - intros c cr Hc. eauto using same_computed_refl.
  - auto.
Qed.

Lemma Frame_upd_computed i f s :
  (∀ cr, same_computed cr (f cr)) → Frame s (upd_computed i f s).
Proof.
  intros Hf. split; try done; simpl.
  - intros e ef He. eauto using same_role_refl.
  - intros c cr Hc. simpl. destruct (decide (i = c)) as [->|Hne].
    + rewrite list_lookup_alter_eq, Hc. simpl. eauto.
    + rewrite list_lookup_alter_ne by done. eauto using same_computed_refl.
  - auto.
Qed.

Lemma Frame_new_effect ef0 s : Frame s (set_effects (effects s ++ [ef0]) s).
Proof.
  split; try done; simpl.
  - intros e ef He. exists ef. split; [by apply lookup_app_l_Some | apply same_role_refl].
  - intros c cr Hc. eauto using same_computed_refl.
  - auto.
Qed.

(** A dependency set gets one more member. *)
Lemma Frame_subscribe k e s :
  Frame s (set_targetMap (<[k := dep_of s k ++ [e]]> (targetMap s)) s).
Proof.
  split; try done; simpl.
  - intros i ef He. eauto using same_role_refl.
  - intros c cr Hc. eauto using same_computed_refl.
  - intros k' i Hi. left. unfold dep_of at 1. simpl.
    destruct (decide (k = k')) as [->|Hne].
    + rewrite lookup_insert_eq. simpl. apply elem_of_app. by left.
    + by rewrite lookup_insert_ne.
Qed.

(** ** Dependency sets after [cleanupEffect] *)

Lemma unsubscribe_elem e tm ks k i :
  i ∈ default [] (unsubscribe e tm ks !! k)
  ↔ i ∈ default [] (tm !! k) ∧ (k ∈ ks → i ≠ e).
Proof.
  revert tm. induction ks as [|k0 ks IH]; intros tm; simpl.
  - split; [intros H; split; [done|by intros ?%elem_of_nil] | tauto].
  - unfold unsubscribe in *. simpl. rewrite IH.
    destruct (decide (k0 = k)) as [->|Hne].
    + rewrite lookup_alter_eq. destruct (tm !! k) as [dep|]; simpl.
      * rewrite set_delete_elem. split.
        -- intros [[H1 H2] H3]. split; [done|]. by intros _.
        -- intros [H1 H2]. split_and!; [done| |]; [apply H2; left|intros H; apply H2; by right].
      * split; [intros [[]%elem_of_nil _] | intros [[]%elem_of_nil _]].
    + rewrite lookup_alter_ne by done. split.
      * intros [H1 H2]. split; [done|]. intros [?|?]%elem_of_cons; [congruence|auto].
      * intros [H1 H2]. split; [done|]. intros H. apply H2. by right.
Qed.

Lemma unsubscribe_NoDup e tm ks :
  (∀ k dep, tm !! k = Some dep → NoDup dep) →
  ∀ k dep, unsubscribe e tm ks !! k = Some dep → NoDup dep.
Proof.
  revert tm. induction ks as [|k0 ks IH]; intros tm Htm; simpl; [done|].
  apply IH. intros k dep. destruct (decide (k0 = k)) as [->|Hne].
  - rewrite lookup_alter_eq. destruct (tm !! k) as [d|] eqn:E; simpl; [|done].
    intros [= <-]. apply NoDup_filter. eauto.
  - rewrite lookup_alter_ne by done. eauto.
Qed.

Section Engine.

Variable x : nat.
Variables idle nb : bool.

Local Abbreviation J := (Wellformed.J x idle nb).
Local Abbreviation silent := (Wellformed.silent x idle).
Local Abbreviation wpost := (@Wellformed.wpost x idle nb _).
Local Abbreviation free_job := (Wellformed.free_job x idle).

(** ** Events *)

Lemma silent_nil : silent [].
Proof. intros _. constructor. Qed.

Lemma silent_app t1 t2 : silent t1 → silent t2 → silent (t1 ++ t2).
Proof. intros H1 H2 Hs. apply Forall_app. auto. Qed.

Lemma silent_one ev :
  (idle = true → ev ≠ EvInvoke x ∧ ev ≠ EvBody x) → silent [ev].
Proof. intros H Hi. constructor; [auto | constructor]. Qed.

Lemma silent_other ev :
  (∀ i, ev ≠ EvInvoke i) → (∀ i, ev ≠ EvBody i) → silent [ev].
Proof. intros H1 H2. apply silent_one. auto. Qed.

Lemma silent_invoke i : (idle = true → i ≠ x) → silent [EvInvoke i].
Proof. intros Hi. apply silent_one. intros H. split; [|done]. intros [= ->]. by apply Hi. Qed.

Lemma silent_body i : (idle = true → i ≠ x) → silent [EvBody i].
Proof. intros Hi. apply silent_one. intros H. split; [done|]. intros [= ->]. by apply Hi. Qed.

(** ** The rules *)

Lemma wpost_prepend {A} t s0 s (o : outcome A) :
  silent t → Frame s0 s → wpost s o → wpost s0 (prepend t o).
Proof.
  destruct o; simpl; [| |done]; intros ? ? (?&?&?);
    split_and!; eauto using silent_app, Frame_trans.
Qed.

Lemma wpost_from {A} s0 s (o : outcome A) : Frame s0 s → wpost s o → wpost s0 o.
Proof.
  destruct o; simpl; [| |done]; intros ? (?&?&?); split_and!; eauto using Frame_trans.
Qed.

Lemma wpost_returned {A} (a : A) s s' : J s' → Frame s s' → wpost s (Returned a s' []).
Proof. intros. split_and!; [done..|apply silent_nil]. Qed.

Lemma wpost_same {A} (a : A) s : J s → wpost s (Returned a s []).
Proof. intros. apply wpost_returned; [done|apply Frame_refl]. Qed.

Lemma wpost_ret {A} (a : A) s : J s → wpost s (ret a s).
Proof. apply wpost_same. Qed.

Lemma wpost_throw {A} s : J s → wpost s (@throw A s).
Proof. intros. split_and!; [done|apply Frame_refl|apply silent_nil]. Qed.

Lemma wpost_modify f s : J (f s) → Frame s (f s) → wpost s (modify f s).
Proof. apply wpost_returned. Qed.

Lemma wpost_emit ev s : J s → silent [ev] → wpost s (emit ev s).
Proof. intros. split_and!; [done|apply Frame_refl|done]. Qed.

Lemma wpost_bind {A B} (m : M A) (k : A → M B) s :
  wpost s (m s) → (∀ a s1, J s1 → wpost s1 (k a s1)) → wpost s (bind m k s).
Proof.
  unfold bind. destruct (m s) as [a s1 t| |]; simpl; [|done|done].
  intros (Hs & Hf & Ht) Hk. eapply wpost_prepend; eauto.
Qed.

Lemma wpost_try_catch {A} (m h : M A) s :
  wpost s (m s) → (∀ s1, J s1 → wpost s1 (h s1)) → wpost s (try_catch m h s).
Proof.
  unfold try_catch. destruct (m s); simpl; [done| |done].
  intros (? & ? & ?) Hh. eapply wpost_prepend; eauto.
Qed.

Lemma wpost_try_finally {A} (m : M A) fin s :
  wpost s (m s) → (∀ s1, J s1 → J (fin s1) ∧ Frame s1 (fin s1)) →
  wpost s (try_finally m fin s).
Proof.
  unfold try_finally. destruct (m s); simpl; [| |done];
    intros (Hs & Hf & Ht) Hfin; destruct (Hfin _ Hs);
    split_and!; eauto using Frame_trans.
Qed.

Ltac fin :=
  first [apply wpost_same; done | apply wpost_ret; done | apply wpost_throw; done
        | split_and!; [done | apply Frame_refl | apply silent_nil]].

Lemma wpost_forEach {A} (f : A → M unit) (l : list A) s :
  J s → (∀ y s1, y ∈ l → J s1 → wpost s1 (f y s1)) → wpost s (forEach f l s).
Proof.
  revert s. induction l as [|y l IH]; intros s Hs Hf; simpl.
  - fin.
  - apply wpost_bind.
    + apply Hf; [left | done].
    + intros _ s1 Hs1. apply IH; [done|]. intros z s2 Hz. apply Hf. by right.
Qed.


(** ** State updates *)

Lemma alter_Some {A} (f : A → A) i (l : list A) e a' :
  alter f i l !! e = Some a' ↔
  ∃ a, l !! e = Some a ∧ a' = (if decide (i = e) then f a else a).
Proof.
  destruct (decide (i = e)) as [->|Hne].
  - rewrite list_lookup_alter_eq. destruct (l !! e); simpl; split.
    + intros [= <-]. eauto.
    + intros (a0 & [= <-] & ->). done.
    + done.
    + intros (a0 & [=] & _).
  - rewrite list_lookup_alter_ne by done. split; [eauto|]. intros (a0 & -> & ->). done.
Qed.

Lemma J_fields s s' :
  effects s' = effects s → targetMap s' = targetMap s →
  effectStack s' = effectStack s → activeEffect s' = activeEffect s →
  updateQueue s' = updateQueue s → scheduledEffects s' = scheduledEffects s →
  deferred s' = deferred s → config s' = config s →
  computeds s' = computeds s → J s → J s'.
Proof.
  intros He Ht Hk Ha Hq Hsc Hd Hc Hm (Hwf & Hnb & Hid). split_and!.
  - destruct Hwf. split; unfold dep_of in *; rewrite ?He, ?Ht, ?Hk, ?Ha, ?Hq, ?Hsc; done.
  - intros H. destruct (Hnb H). split; congruence.
  - intros H. destruct (Hid H) as (?&?&?&?&?&?).
    unfold Idle, unused, dep_of in *. rewrite He, Ht, Hq, Hd, Hk, Hm. done.
Qed.

Lemma J_upd_effect i f s :
  (∀ ef, deps (f ef) = deps ef) → (∀ ef, isActive (f ef) = isActive ef) →
  J s → J (upd_effect i f s).
Proof.
  intros Hd Ha (Hwf & Hnb & Hid). split_and!.
  - destruct Hwf. split; simpl; unfold dep_of in *; simpl; try done.
    + intros k e. rewrite wf_mirror0. split.
      * intros (ef & He & Hk). destruct (decide (i = e)) as [->|Hne].
        -- exists (f ef). rewrite list_lookup_alter_eq, He, Hd. done.
        -- exists ef. rewrite list_lookup_alter_ne by done. done.
      * intros (ef' & (ef & He & ->)%alter_Some & Hk). exists ef. split; [done|].
        destruct (decide (i = e)); [by rewrite Hd in Hk|done].
    + intros e ef' (ef & He & ->)%alter_Some.
      destruct (decide (i = e)); [rewrite Hd|]; eauto.
    + intros e ef' (ef & He & ->)%alter_Some.
      destruct (decide (i = e)); [rewrite Hd, Ha|]; eauto.
  - done.
  - intros H. destruct (Hid H) as ([ef He] & ? & ? & ? & ? & ?). unfold Idle, unused; split_and!; try done.
    simpl. destruct (decide (i = x)) as [->|Hne].
    + rewrite list_lookup_alter_eq, He. by eexists.
    + rewrite list_lookup_alter_ne by done. by eexists.
Qed.

Lemma J_deactivate i s :
  (∀ ef, effects s !! i = Some ef → deps ef = []) →
  J s → J (upd_effect i (set_isActive false) s).
Proof.
  intros Hi (Hwf & Hnb & Hid). split_and!.
  - destruct Hwf. split; simpl; unfold dep_of in *; simpl; try done.
    + intros k e. rewrite wf_mirror0. split.
      * intros (ef & He & Hk). destruct (decide (i = e)) as [->|Hne].
        -- exists (set_isActive false ef). rewrite list_lookup_alter_eq, He. done.
        -- exists ef. rewrite list_lookup_alter_ne by done. done.
      * intros (ef' & (ef & He & ->)%alter_Some & Hk). exists ef. split; [done|].
        by destruct (decide (i = e)).
    + intros e ef' (ef & He & ->)%alter_Some.
      destruct (decide (i = e)); simpl; eauto.
    + intros e ef' (ef & He & ->)%alter_Some.
      destruct (decide (i = e)) as [->|]; simpl; eauto.
  - done.
  - intros H. destruct (Hid H) as ([ef He] & ? & ? & ? & ? & ?). unfold Idle, unused; split_and!; try done.
    simpl. destruct (decide (i = x)) as [->|Hne].
    + rewrite list_lookup_alter_eq, He. by eexists.
    + rewrite list_lookup_alter_ne by done. by eexists.
Qed.

Lemma J_upd_computed i f s :
  (∀ cr, c_runner (f cr) = c_runner cr) → J s → J (upd_computed i f s).
Proof.
  intros Hf (Hwf & Hnb & Hid). split_and!.
  - destruct Hwf. by split.
  - done.
  - intros H. destruct (Hid H) as (? & ? & ? & ? & ? & Hr). unfold Idle, unused; split_and!; try done.
    simpl. intros c cr' (cr & Hc & ->)%alter_Some.
    destruct (decide (i = c)); [rewrite Hf|]; eauto.
Qed.

Lemma J_upd_watch i f s : J s → J (upd_watch i f s).
Proof. apply J_fields; reflexivity. Qed.

Lemma J_push i s : (idle = true → i ≠ x) → J s → J (push_effect i s).
Proof.
  intros Hi (Hwf & Hnb & Hid). split_and!.
  - destruct Hwf. by split.
  - done.
  - intros H. destruct (Hid H) as (? & ? & ? & ? & Hk & ?). unfold Idle, unused; split_and!; try done.
    simpl. rewrite not_elem_of_cons. split; [|done]. intros ->. by apply Hi.
Qed.

Lemma J_pop s : J s → J (pop_effect s).
Proof.
  intros (Hwf & Hnb & Hid). split_and!.
  - destruct Hwf. by split.
  - done.
  - intros H. destruct (Hid H) as (? & ? & ? & ? & Hk & ?). unfold Idle, unused; split_and!; try done.
    simpl. intros Hx. apply Hk. destruct (effectStack s); [done|]. by right.
Qed.

(** The calls of [modify (push_effect i)] and of [pop_effect] around the
    body of an observer. *)
Lemma wpost_running {A} i (m : M A) s :
  (idle = true → i ≠ x) → J s →
  (∀ s1, J s1 → wpost s1 (m s1)) →
  wpost s (try_finally (modify (push_effect i) >>> m) pop_effect s).
Proof.
  intros Hi Hs Hm. unfold try_finally. rewrite bind_modify.
  specialize (Hm (push_effect i s) (J_push i s Hi Hs)).
  assert (∀ s3, J s3 → Frame (push_effect i s) s3 → J (pop_effect s3) ∧ Frame s (pop_effect s3)) as Hpop.
  { intros s3 Hs3 [c t k a e m0 r]. split; [by apply J_pop|].
    simpl in *. split; simpl; try done.
    - by rewrite k.
    - rewrite k. simpl. symmetry. apply Hs. }
  destruct (m (push_effect i s)) as [a s3 t|s3 t|]; simpl in *; [| |done];
    destruct Hm as (Hs3 & Hf & Ht); destruct (Hpop s3 Hs3 Hf); by split_and!.
Qed.

Lemma J_track_add e s ef :
  activeEffect s = Some e → effects s !! e = Some ef → isActive ef = true →
  ∀ k, e ∉ dep_of s k →
  J s →
  J (upd_effect e (fun ef => set_deps (deps ef ++ [k]) ef)
       (set_targetMap (<[k := dep_of s k ++ [e]]> (targetMap s)) s)).
Proof.
  intros Hact He Hon k Hnotin (Hwf & Hnb & Hid).
  assert (∀ k', default [] (<[k := dep_of s k ++ [e]]> (targetMap s) !! k')
               = if decide (k = k') then dep_of s k ++ [e] else dep_of s k') as Hdep.
  { intros k'. destruct (decide (k = k')) as [->|Hne].
    - by rewrite lookup_insert_eq.
    - by rewrite lookup_insert_ne. }
  split_and!.
  - destruct Hwf. split; simpl; try done.
    + intros k' dep. destruct (decide (k = k')) as [->|Hne].
      * rewrite lookup_insert_eq. intros [= <-]. apply NoDup_app. split_and!.
        -- unfold dep_of. destruct (targetMap s !! k') eqn:E; simpl; [eauto|constructor].
        -- intros y Hy ->%list_elem_of_singleton. done.
        -- apply NoDup_singleton.
      * rewrite lookup_insert_ne by done. eauto.
    + intros k' e'. unfold dep_of at 1. simpl. rewrite Hdep. split.
      * intros Hin. destruct (decide (e = e')) as [<-|Hne].
        -- exists (set_deps (deps ef ++ [k]) ef). rewrite list_lookup_alter_eq, He.
           split; [done|]. simpl. rewrite elem_of_app, list_elem_of_singleton.
           destruct (decide (k = k')) as [->|]; [by right|].
           left. apply wf_mirror0 in Hin as (ef0 & He0 & ?). congruence.
        -- rewrite list_lookup_alter_ne by done. apply wf_mirror0.
           destruct (decide (k = k')) as [->|]; [|done].
           apply elem_of_app in Hin as [?|?%list_elem_of_singleton]; [done|congruence].
      * intros (ef' & (ef0 & He0 & ->)%alter_Some & Hk).
        destruct (decide (e = e')) as [<-|Hne].
        -- simpl in Hk. rewrite He in He0. injection He0 as <-.
           apply elem_of_app in Hk as [Hk|Hk%list_elem_of_singleton].
           ++ assert (e ∈ dep_of s k') by (apply wf_mirror0; eauto).
              destruct (decide (k = k')) as [->|]; [apply elem_of_app; by left|done].
           ++ subst k'. rewrite decide_True by done. apply elem_of_app. right. by left.
        -- assert (e' ∈ dep_of s k') by (apply wf_mirror0; eauto).
           destruct (decide (k = k')) as [->|]; [apply elem_of_app; by left|done].
    + intros e' ef' (ef0 & He0 & ->)%alter_Some.
      destruct (decide (e = e')) as [<-|Hne]; [|eauto].
      simpl. rewrite He in He0. injection He0 as <-. apply NoDup_app. split_and!.
      * eauto.
      * intros y Hy ->%list_elem_of_singleton. apply Hnotin. apply wf_mirror0. eauto.
      * apply NoDup_singleton.
    + intros e' ef' (ef0 & He0 & ->)%alter_Some.
      destruct (decide (e = e')) as [<-|Hne]; [|eauto].
      simpl. rewrite He in He0. injection He0 as <-. congruence.
  - done.
  - intros H. destruct (Hid H) as ([efx Hx] & Hnd & Hq & Hdf & Hk & Hr).
    assert (e ≠ x) as Hne.
    { intros ->. apply Hk. destruct Hwf. rewrite Hact in wf_stack0.
      destruct (effectStack s) as [|y st]; [done|]. injection wf_stack0 as ->. left. }
    split_and!; try done.
    + simpl. rewrite list_lookup_alter_ne by done. by eexists.
    + intros k'. unfold dep_of. simpl. rewrite Hdep.
      destruct (decide (k = k')) as [->|]; [|apply Hnd].
      rewrite elem_of_app, list_elem_of_singleton. intros [?|?]; [by eapply Hnd|congruence].
Qed.

Lemma wpost_track t k s : J s → wpost s (track t k s).
Proof.
  intros Hs. unfold track.
  destruct (activeEffect s) as [a|] eqn:Ha; [|fin].
  destruct (negb (shouldTrack s) || negb (is_active s a)) eqn:Hb; [fin|].
  case_bool_decide as Hin; [fin|].
  apply orb_false_iff in Hb as [_ Hb]. apply negb_false_iff in Hb.
  unfold is_active in Hb. destruct (effects s !! a) as [ef|] eqn:He; [|done].
  apply wpost_returned.
  - by eapply J_track_add.
  - eapply Frame_trans; [apply Frame_subscribe|].
    apply Frame_upd_effect; intros; by split_and!.
Qed.

Lemma J_cleanupEffect i ef s :
  effects s !! i = Some ef →
  J s → J (upd_effect i (set_deps []) (set_targetMap (unsubscribe i (targetMap s) (deps ef)) s)).
Proof.
  intros He (Hwf & Hnb & Hid). split_and!.
  - destruct Hwf. split; simpl; try done.
    + by apply unsubscribe_NoDup.
    + intros k e. unfold dep_of. simpl. rewrite unsubscribe_elem.
      fold (dep_of s k). rewrite wf_mirror0. split.
      * intros [(ef0 & He0 & Hk) Hne].
        destruct (decide (i = e)) as [->|Hie].
        -- exfalso. rewrite He in He0. injection He0 as <-. by apply Hne.
        -- exists ef0. rewrite list_lookup_alter_ne by done. done.
      * intros (ef' & (ef0 & He0 & ->)%alter_Some & Hk).
        destruct (decide (i = e)) as [->|Hie]; [by apply elem_of_nil in Hk|].
        split; [eauto|]. intros _ ->. done.
    + intros e ef' (ef0 & He0 & ->)%alter_Some.
      destruct (decide (i = e)); [constructor|eauto].
    + intros e ef' (ef0 & He0 & ->)%alter_Some.
      destruct (decide (i = e)); [done|eauto].
  - done.
  - intros H. destruct (Hid H) as ([efx Hx] & Hnd & ? & ? & ? & ?). unfold Idle, unused; split_and!; try done.
    + simpl. destruct (decide (i = x)) as [->|Hne].
      * rewrite list_lookup_alter_eq, Hx. by eexists.
      * rewrite list_lookup_alter_ne by done. by eexists.
    + intros k. unfold dep_of. simpl. rewrite unsubscribe_elem. intros [? _]. by eapply Hnd.
Qed.

Lemma J_deactivated i s : is_active s i = true → J s → J (deactivated i s).
Proof.
  intros Ha Hs. unfold deactivated, is_active in *.
  destruct (effects s !! i) as [ef|] eqn:He; [|done].
  apply J_deactivate; [|by apply (J_cleanupEffect i ef)].
  intros ef'. simpl. rewrite list_lookup_alter_eq, He. simpl. by intros [= <-].
Qed.

Lemma Frame_deactivated i s : is_active s i = true → Frame s (deactivated i s).
Proof.
  intros Ha. unfold deactivated, is_active in *.
  destruct (effects s !! i) as [ef|] eqn:He; [|done].
  split; try done; simpl.
  - intros e ef0 He0. destruct (decide (i = e)) as [->|Hne].
    + rewrite !list_lookup_alter_eq, He0. simpl. eexists. split; [done|]. by split_and!.
    + rewrite !list_lookup_alter_ne by done. eauto using same_role_refl.
  - intros c cr Hc. eauto using same_computed_refl.
  - intros k e Hin. destruct (decide (e = i)) as [->|Hne].
    + right. rewrite !list_lookup_alter_eq, He. simpl. eauto.
    + left. unfold dep_of at 1. simpl. apply unsubscribe_elem. split; [done|]. by intros _.
Qed.


Lemma wpost_bind_eq {A B} (m : M A) (k : A → M B) s :
  wpost s (m s) → (∀ a s1 t, m s = Returned a s1 t → J s1 → wpost s1 (k a s1)) →
  wpost s (bind m k s).
Proof.
  unfold bind. destruct (m s) as [a s1 t| |] eqn:E; simpl; [|done|done].
  intros (Hs & Hf & Ht) Hk. eapply wpost_prepend; eauto.
Qed.

Lemma J_clear_queue s :
  J s → J (set_scheduledEffects [] (set_updateQueue [] s)).
Proof.
  intros (Hwf & Hnb & Hid). split_and!.
  - destruct Hwf. split; try done. constructor.
  - intros H. destruct (Hnb H). by split.
  - intros H. destruct (Hid H) as (? & ? & ? & ? & ? & ?).
    unfold Idle, unused; split_and!; try done. apply not_elem_of_nil.
Qed.

Lemma J_unqueue i s : J s → J (unqueue i s).
Proof.
  intros (Hwf & Hnb & Hid). unfold unqueue. split_and!.
  - destruct Hwf. split; simpl; try done.
    + by rewrite wf_sched0.
    + by apply NoDup_filter.
  - intros H. destruct (Hnb H) as [? Hq]. split; [done|]. simpl. by rewrite Hq.
  - intros H. destruct (Hid H) as (? & ? & Hq & ? & ? & ?).
    unfold Idle, unused; split_and!; try done.
    simpl. intros [? _]%set_delete_elem. done.
Qed.

Lemma J_enqueue i s :
  batchUpdates (config s) = true → (idle = true → i ≠ x) →
  J s → J (set_scheduledEffects (set_add (scheduledEffects s) i)
             (set_updateQueue (set_add (updateQueue s) i) s)).
Proof.
  intros Hb Hi (Hwf & Hnb & Hid). split_and!.
  - destruct Hwf. split; simpl; try done.
    + by rewrite wf_sched0.
    + by apply set_add_NoDup.
  - intros H. destruct (Hnb H). congruence.
  - intros H. destruct (Hid H) as (? & ? & Hq & ? & ? & ?).
    unfold Idle, unused; split_and!; try done.
    simpl. intros [?|?]%set_add_elem; [done|]. by apply Hi.
Qed.

Lemma J_new_effect b sch s :
  J s → J (set_effects (effects s ++ [mkEffectFn b true None [] sch VUndefined false]) s).
Proof.
  intros (Hwf & Hnb & Hid). split_and!.
  - destruct Hwf. split; simpl; try done.
    + intros k e. unfold dep_of. simpl. fold (dep_of s k). rewrite wf_mirror0. split.
      * intros (ef & He & Hk). exists ef. split; [by apply lookup_app_l_Some|done].
      * intros (ef & [[_ He]|[_ <-]]%lookup_snoc_Some & Hk); [eauto|].
        by apply elem_of_nil in Hk.
    + intros e ef [[_ He]|[_ <-]]%lookup_snoc_Some; [eauto|constructor].
    + intros e ef [[_ He]|[_ <-]]%lookup_snoc_Some; [eauto|done].
  - done.
  - intros H. destruct (Hid H) as ([ef He] & ? & ? & ? & ? & ?).
    unfold Idle, unused; split_and!; try done.
    simpl. exists ef. by apply lookup_app_l_Some.
Qed.

Lemma J_exists s : idle = true → J s → x < length (effects s).
Proof. intros H (_ & _ & Hid). destruct (Hid H) as ([ef He] & _). by eapply lookup_lt_Some. Qed.

Variable rec : call → M value.
Hypothesis Hrec : ∀ c s, free_job (job_of c) → J s → wpost s (rec c s).

Lemma free_job_None : free_job None.
Proof. intros _. done. Qed.

Lemma free_job_Some i : (idle = true → i ≠ x) → free_job (Some i).
Proof. intros Hi H [= ->]. by apply Hi. Qed.

Lemma wpost_call_function cx f s :
  free_job (job cx) → J s → wpost s (call_function rec cx f s).
Proof. intros. by apply Hrec. Qed.

Lemma wpost_call_plain f s : J s → wpost s (call_function rec no_ctx f s).
Proof. apply wpost_call_function, free_job_None. Qed.

Lemma wpost_ref_get r s : J s → wpost s (ref_get r s).
Proof.
  intros Hs. unfold ref_get. apply wpost_bind; [by apply wpost_track|].
  intros _ s1 Hs1. fin.
Qed.

Lemma wpost_computed_effectFn i s :
  (idle = true → i ≠ x) → J s → wpost s (computed_effectFn rec i s).
Proof.
  intros Hi Hs. unfold computed_effectFn.
  apply wpost_bind; [apply wpost_emit; [done|by apply silent_invoke]|].
  intros _ s1 Hs1.
  destruct (effects s1 !! i) as [ef|]; [|fin].
  destruct (isStopped ef); [fin|].
  destruct (e_body ef); try fin.
  apply wpost_running; [done..|]. intros s2 Hs2.
  apply wpost_bind; [apply wpost_emit; [done|by apply silent_body]|].
  intros _ s3 Hs3. apply wpost_bind; [by apply wpost_call_plain|].
  intros v s4 Hs4. apply wpost_bind.
  { apply wpost_modify; [by apply J_upd_effect|]. apply Frame_upd_effect. intros; by split_and!. }
  intros _ s5 Hs5. fin.
Qed.

Lemma wpost_computed_get c s : J s → wpost s (computed_get rec c s).
Proof.
  intros Hs. unfold computed_get. apply wpost_bind; [by apply wpost_track|].
  intros _ s1 Hs1.
  destruct (computeds s1 !! c) as [cr|] eqn:Hc; [|fin].
  destruct (c_dirty cr); [|fin].
  apply wpost_bind.
  { apply wpost_computed_effectFn; [|done]. intros Hq.
    destruct Hs1 as (_&_&Ht). destruct (Ht Hq) as (_ & _ & _ & _ & _ & Hr). by eapply Hr. }
  intros v s2 Hs2. apply wpost_bind.
  { apply wpost_modify; [by apply J_upd_computed|]. apply Frame_upd_computed. intros; by split_and!. }
  intros _ s3 Hs3. apply wpost_bind.
  { apply wpost_modify; [by apply J_upd_computed|]. apply Frame_upd_computed. intros; by split_and!. }
  intros _ s4 Hs4. fin.
Qed.

Lemma wpost_getSourceValue src s : J s → wpost s (getSourceValue rec src s).
Proof.
  revert s. induction src as [f|r|c|l IH|v] using
    (fix IHsrc (P : source → Prop)
       (Hf : ∀ f, P (SrcFunction f)) (Hr : ∀ r, P (SrcRef r)) (Hc : ∀ c, P (SrcComputed c))
       (Ha : ∀ l, Forall P l → P (SrcArray l)) (Hv : ∀ v, P (SrcValue v))
       (src : source) {struct src} : P src :=
       match src with
       | SrcFunction f => Hf f
       | SrcRef r => Hr r
       | SrcComputed c => Hc c
       | SrcArray l =>
           Ha l ((fix go (l : list source) : Forall P l :=
                    match l with
                    | [] => Forall_nil_2 P
                    | y :: l' => Forall_cons_2 P y l' (IHsrc P Hf Hr Hc Ha Hv y) (go l')
                    end) l)
       | SrcValue v => Hv v
       end); intros s Hs; simpl.
  - apply wpost_bind; [by apply wpost_call_plain|]. intros; fin.
  - apply wpost_bind; [by apply wpost_ref_get|]. intros; fin.
  - apply wpost_bind; [by apply wpost_computed_get|]. intros; fin.
  - apply wpost_bind; [|intros; fin].
    revert s Hs. induction IH as [|y l Hy _ IHl]; intros s Hs.
    + fin.
    + apply wpost_bind; [by apply Hy|]. intros v s1 Hs1.
      apply wpost_bind; [by apply IHl|]. intros; fin.
  - fin.
Qed.

Lemma wpost_upd_watch w f s : J s → wpost s (modify (upd_watch w f) s).
Proof. intros. apply wpost_modify; [by apply J_upd_watch|]. by apply Frame_fields. Qed.

Lemma wpost_call_callback w new old s : J s → wpost s (call_callback rec w new old s).
Proof.
  intros Hs. unfold call_callback.
  destruct (watches s !! w); [|fin].
  apply wpost_bind; [apply wpost_emit; [done|by apply silent_other]|]. intros _ s1 Hs1.
  apply wpost_bind; [|intros; fin]. apply wpost_call_function; [|done]. apply free_job_None.
Qed.

Lemma wpost_watch_update w s : J s → wpost s (watch_update rec w s).
Proof.
  intros Hs. unfold watch_update.
  destruct (watches s !! w) as [wr|]; [|fin].
  apply wpost_bind; [by apply wpost_getSourceValue|]. intros nv s1 Hs1.
  destruct (watches s1 !! w) as [wr1|]; [|fin].
  destruct (isFirstRun wr1).
  - apply wpost_bind.
    { destruct (w_immediate wr1); [by apply wpost_call_callback|fin]. }
    intros _ s2 Hs2. apply wpost_bind; [by apply wpost_upd_watch|].
    intros _ s3 Hs3. apply wpost_bind; [by apply wpost_upd_watch|].
    intros; fin.
  - destruct (hasChanged (oldValue wr1) nv); [|fin].
    apply wpost_bind.
    { destruct (pendingCleanup wr1); [|fin].
      apply wpost_bind; [apply wpost_emit; [done|by apply silent_other]|]. intros _ s2 Hs2.
      apply wpost_bind; [by apply wpost_call_plain|]. intros _ s3 Hs3.
      by apply wpost_upd_watch. }
    intros _ s2 Hs2. apply wpost_bind; [by apply wpost_call_callback|].
    intros _ s3 Hs3. apply wpost_bind; [by apply wpost_upd_watch|].
    intros; fin.
Qed.

Lemma wpost_call_update b s : J s → wpost s (call_update rec b s).
Proof.
  intros Hs. destruct b; simpl;
    [by apply wpost_call_plain | by apply wpost_watch_update | by apply wpost_call_plain].
Qed.

Lemma wpost_set_cleanup i c s : J s → wpost s (modify (upd_effect i (set_cleanup c)) s).
Proof.
  intros. apply wpost_modify; [by apply J_upd_effect|].
  apply Frame_upd_effect. intros; by split_and!.
Qed.

Lemma wpost_effectFn i s :
  (idle = true → i ≠ x) → J s → wpost s (effectFn rec i s).
Proof.
  intros Hi Hs. unfold effectFn.
  apply wpost_bind; [apply wpost_emit; [done|by apply silent_invoke]|].
  intros _ s1 Hs1. apply wpost_bind.
  { destruct (cleanup <$> effects s1 !! i) as [[c|]|]; try fin.
    apply wpost_bind; [apply wpost_emit; [done|by apply silent_other]|]. intros _ s2 Hs2.
    apply wpost_bind; [by apply wpost_call_plain|]. intros _ s3 Hs3.
    by apply wpost_set_cleanup. }
  intros _ s2 Hs2. apply wpost_bind; [|intros; fin].
  apply wpost_running; [done..|]. intros s3 Hs3.
  apply wpost_bind; [apply wpost_emit; [done|by apply silent_body]|].
  intros _ s4 Hs4. apply wpost_bind.
  { destruct (effects s4 !! i); [by apply wpost_call_update|fin]. }
  intros res s5 Hs5.
  destruct res; try fin.
  by apply wpost_set_cleanup.
Qed.

Lemma wpost_call_effect i s :
  (idle = true → i ≠ x) → J s → wpost s (call_effect rec i s).
Proof.
  intros Hi Hs. unfold call_effect.
  destruct (effects s !! i) as [ef|].
  - destruct (e_body ef); [by apply wpost_effectFn..|by apply wpost_computed_effectFn].
  - split_and!; [done|apply Frame_refl|by apply silent_invoke].
Qed.

Lemma wpost_enqueue i s :
  batchUpdates (config s) = true → (idle = true → i ≠ x) → J s → wpost s (enqueue i s).
Proof.
  intros Hb Hi Hs. unfold enqueue. case_bool_decide; [fin|].
  apply wpost_returned; [by apply J_enqueue|]. by apply Frame_fields.
Qed.

Lemma wpost_dispatch i s : (idle = true → i ≠ x) → J s → wpost s (dispatch rec i s).
Proof.
  intros Hi Hs. unfold dispatch.
  destruct (effects s !! i ≫= scheduler) as [[f|c]|].
  - apply wpost_bind; [apply wpost_emit; [done|by apply silent_other]|]. intros _ s1 Hs1.
    apply wpost_bind; [|intros; fin].
    apply wpost_call_function; [|done]. by apply free_job_Some.
  - apply wpost_bind; [apply wpost_emit; [done|by apply silent_other]|]. intros _ s1 Hs1.
    apply wpost_bind; [|intros; fin]. apply Hrec; [|done]. apply free_job_None.
  - apply wpost_bind; [by apply wpost_call_effect|]. intros; fin.
Qed.

Lemma wpost_route i s : (idle = true → i ≠ x) → J s → wpost s (route rec i s).
Proof.
  intros Hi Hs. unfold route.
  destruct (batchUpdates (config s) && isBatching s) eqn:Hb.
  - apply andb_true_iff in Hb as [Hb _]. by apply wpost_enqueue.
  - by apply wpost_dispatch.
Qed.

Lemma wpost_trigger t k s : J s → wpost s (trigger rec t k s).
Proof.
  intros Hs. unfold trigger.
  destruct (targetMap s !! (t, k)) as [dep|] eqn:Hd; [|fin].
  apply wpost_forEach; [done|]. intros i s1 Hi Hs1. apply wpost_route; [|done].
  intros Hq ->. apply effectsToRun_elem in Hi as [Hi _].
  destruct Hs as (_ & _ & Hid). destruct (Hid Hq) as (_ & Hnd & _).
  apply (Hnd (t, k)). unfold dep_of. by rewrite Hd.
Qed.

Lemma wpost_ref_set r v s : J s → wpost s (ref_set rec r v s).
Proof.
  intros Hs. unfold ref_set.
  destruct (negb _); [|fin].
  apply wpost_bind; [|intros; by apply wpost_trigger].
  apply wpost_modify; [by eapply J_fields; [..|exact Hs]|].
  apply Frame_fields; try done. simpl. by rewrite length_insert.
Qed.

Lemma wpost_upd_computed c f s :
  (∀ cr, same_computed cr (f cr)) → J s → wpost s (modify (upd_computed c f) s).
Proof.
  intros Hf Hs. apply wpost_modify.
  - apply J_upd_computed; [|done]. intros cr. apply Hf.
  - by apply Frame_upd_computed.
Qed.

Lemma wpost_computed_scheduler c s : J s → wpost s (computed_scheduler rec c s).
Proof.
  intros Hs. unfold computed_scheduler.
  destruct (computeds s !! c) as [cr|]; [|fin].
  destruct (negb (c_dirty cr)); [|fin].
  apply wpost_bind; [by apply wpost_upd_computed|].
  intros _ s1 Hs1. destruct (negb (c_isSetting cr)); [by apply wpost_trigger|fin].
Qed.

Lemma wpost_computed_set c v s : J s → wpost s (computed_set rec c v s).
Proof.
  intros Hs. unfold computed_set.
  destruct (computeds s !! c) as [cr|]; [|fin].
  destruct (c_setter cr); [|fin].
  apply wpost_bind; [by apply wpost_upd_computed|].
  intros _ s1 Hs1. apply wpost_try_finally.
  - apply wpost_bind; [by apply wpost_call_function; [apply free_job_None|]|]. intros _ s2 Hs2.
    apply wpost_bind; [by apply wpost_upd_computed|].
    intros; by apply wpost_trigger.
  - intros s2 Hs2. split; [by apply J_upd_computed|]. by apply Frame_upd_computed.
Qed.

Lemma wpost_flush_loop es s :
  (idle = true → x ∉ es) → J s → wpost s (forEach (flush_one rec) es s).
Proof.
  intros Hes Hs. apply wpost_forEach; [done|]. intros i s1 Hi Hs1.
  unfold flush_one. apply wpost_try_catch.
  - apply wpost_bind; [|intros; fin].
    apply wpost_call_effect; [|done]. intros Hq ->. by apply Hes.
  - intros. apply wpost_emit; [done|by apply silent_other].
Qed.

Lemma wpost_flushBatch s : J s → wpost s (flushBatch rec s).
Proof.
  intros Hs. unfold flushBatch. rewrite bind_modify.
  eapply wpost_from; [|apply wpost_flush_loop].
  - by apply Frame_fields.
  - intros Hq. destruct Hs as (_ & _ & Hid). by destruct (Hid Hq) as (_ & _ & ? & _).
  - apply J_clear_queue. by eapply J_fields; [..|exact Hs].
Qed.


Lemma wpost_batch fn s : J s → wpost s (batch rec fn s).
Proof.
  intros Hs. unfold batch.
  apply wpost_bind.
  { apply wpost_modify; [by eapply J_fields; [..|exact Hs]|]. by apply Frame_fields. }
  intros _ s1 Hs1. apply wpost_try_catch.
  - apply wpost_bind; [by apply wpost_call_plain|]. intros res s2 Hs2.
    apply wpost_bind.
    { apply wpost_modify; [by eapply J_fields; [..|exact Hs2]|]. by apply Frame_fields. }
    intros _ s3 Hs3. apply wpost_bind; [|intros; fin].
    destruct (_ && _); [by apply wpost_flushBatch|fin].
  - intros s2 Hs2. apply wpost_bind; [|intros; fin].
    apply wpost_modify; [|by apply Frame_fields].
    apply J_clear_queue. by eapply J_fields; [..|exact Hs2].
Qed.

Lemma wpost_flushUpdates s : J s → wpost s (flushUpdates rec s).
Proof.
  intros Hs. unfold flushUpdates.
  destruct (isBatching s); [by apply wpost_flushBatch|fin].
Qed.

Lemma wpost_stop i s : J s → wpost s (stop rec i s).
Proof.
  intros Hs. destruct (is_active s i) eqn:Hact.
  - rewrite stop_unfold by done.
    assert (wpost s (stop_cleanup rec i (deactivated i s))) as Hp.
    { eapply wpost_from; [by apply Frame_deactivated|].
      pose proof (J_deactivated i s Hact Hs) as Hd. unfold stop_cleanup.
      destruct (cleanup <$> effects (deactivated i s) !! i) as [[c|]|]; try fin.
      apply wpost_bind; [apply wpost_emit; [done|by apply silent_other]|]. intros _ s3 Hs3.
      apply wpost_bind; [by apply wpost_call_plain|]. intros; fin. }
    destruct (stop_cleanup rec i (deactivated i s)) as [[] s3 t|s3 t|]; [|done..].
    destruct Hp as (Hs3 & Hf & Ht). split_and!; [by apply J_unqueue| |done].
    eapply Frame_trans; [exact Hf|]. by apply Frame_fields.
  - unfold stop. rewrite Hact. fin.
Qed.

Lemma wpost_effect b lazy sch s : J s → wpost s (effect rec b lazy sch s).
Proof.
  intros Hs. unfold effect.
  apply wpost_bind.
  { apply wpost_modify; [by apply J_new_effect|apply Frame_new_effect]. }
  intros _ s1 Hs1. apply wpost_bind; [|intros; fin].
  destruct lazy; [fin|]. apply wpost_effectFn; [|done].
  intros Hq. pose proof (J_exists s Hq Hs). lia.
Qed.

Lemma wpost_watch src cb imm s : J s → wpost s (watch rec src cb imm s).
Proof.
  intros Hs. unfold watch.
  apply wpost_bind.
  { apply wpost_modify; [by eapply J_fields; [..|exact Hs]|]. by apply Frame_fields. }
  intros _ s1 Hs1. apply wpost_bind; [by apply wpost_effect|]. intros; fin.
Qed.

Lemma wpost_watch_stop w s : J s → wpost s (watch_stop rec w s).
Proof.
  intros Hs. unfold watch_stop.
  destruct (watches s !! w) as [wr|]; [|fin].
  apply wpost_bind; [by apply wpost_stop|]. intros _ s1 Hs1.
  destruct (watches s1 !! w ≫= pendingCleanup); [|fin].
  apply wpost_bind; [apply wpost_emit; [done|by apply silent_other]|]. intros _ s2 Hs2.
  apply wpost_bind; [by apply wpost_call_plain|]. intros; fin.
Qed.

Lemma wpost_computed g st s : J s → wpost s (computed g st s).
Proof.
  intros Hs. unfold computed. apply wpost_returned.
  - pose proof (J_new_effect (Getter g) (Some (ComputedScheduler (length (computeds s)))) s Hs)
      as (Hwf & Hnb & Hid).
    split_and!.
    + destruct Hwf. by split.
    + done.
    + intros H. destruct (Hid H) as (? & ? & ? & ? & ? & Hr).
      unfold Idle, unused; split_and!; try done.
      simpl. intros c cr [[_ ?]|[_ <-]]%lookup_snoc_Some; [by eapply Hr|]. simpl.
      pose proof (J_exists s H Hs). lia.
  - split; simpl; try done.
    + intros e ef He. exists ef. split; [by apply lookup_app_l_Some | apply same_role_refl].
    + intros c cr Hc. exists cr. split; [by apply lookup_app_l_Some | apply same_computed_refl].
    + auto.
Qed.

Lemma wpost_ref v s : J s → wpost s (ref v s).
Proof.
  intros Hs. unfold ref. apply wpost_returned.
  - by eapply J_fields; [..|exact Hs].
  - apply Frame_fields; try done. simpl. rewrite length_app. lia.
Qed.

Lemma wpost_exec_cmd cx c s : free_job (job cx) → J s → wpost s (exec_cmd rec cx c s).
Proof.
  intros Hcx Hs. destruct c; cbn [exec_cmd].
  - fin.
  - fin.
  - apply wpost_bind; [by apply wpost_ref|]. intros; fin.
  - by apply wpost_ref_get.
  - apply wpost_bind; [by apply wpost_ref_set|]. intros; fin.
  - apply wpost_bind; [by apply wpost_ref_set|]. intros; fin.
  - apply wpost_bind; [by apply wpost_computed|]. intros; fin.
  - by apply wpost_computed_get.
  - apply wpost_bind; [by apply wpost_computed_set|]. intros; fin.
  - apply wpost_bind; [by apply wpost_effect|]. intros; fin.
  - apply wpost_bind; [by apply wpost_stop|]. intros; fin.
  - apply wpost_bind; [by apply wpost_watch|]. intros; fin.
  - apply wpost_bind; [by apply wpost_watch_stop|]. intros; fin.
  - by apply wpost_batch.
  - apply wpost_bind; [by apply wpost_flushUpdates|]. intros; fin.
  - fin.
  - destruct (job cx) as [j|] eqn:Hj; [|fin].
    apply wpost_call_effect; [|done]. intros Hq ->. exact (Hcx Hq eq_refl).
  - destruct (job cx) as [j|] eqn:Hj; [|fin].
    apply wpost_bind; [|intros; fin]. apply wpost_modify; [|by apply Frame_fields].
    destruct Hs as (Hwf & Hnb & Hid). split_and!.
    + destruct Hwf. by split.
    + done.
    + intros H. destruct (Hid H) as (? & ? & ? & Hd & ? & ?).
      unfold Idle, unused; split_and!; try done.
      simpl. rewrite elem_of_app, list_elem_of_singleton. intros [?|Heq]; [done|].
      subst j. exact (Hcx H eq_refl).
  - destruct (deferred s) as [|j rest] eqn:Hd; [fin|].
    apply wpost_bind.
    + apply wpost_modify; [|by apply Frame_fields].
      destruct Hs as (Hwf & Hnb & Hid). split_and!.
      * destruct Hwf. by split.
      * done.
      * intros H. destruct (Hid H) as (? & ? & ? & Hd' & ? & ?).
        unfold Idle, unused; split_and!; try done.
        simpl. rewrite Hd in Hd'. apply not_elem_of_cons in Hd'. tauto.
    + intros _ s1 Hs1. apply wpost_call_effect; [|done].
      intros Hq ->. destruct Hs as (_ & _ & Hid). destruct (Hid Hq) as (_ & _ & _ & Hd' & _).
      rewrite Hd in Hd'. apply Hd'. left.
  - destruct (onCleanup cx); [|fin].
    apply wpost_bind; [by apply wpost_upd_watch|]. intros; fin.
Qed.

Lemma wpost_exec_cmds cx cs v s :
  free_job (job cx) → J s → wpost s (exec_cmds rec cx cs v s).
Proof.
  intros Hcx. revert v s. induction cs as [|c cs IH]; intros v s Hs; simpl.
  - fin.
  - apply wpost_bind; [by apply wpost_exec_cmd|]. intros; by apply IH.
Qed.

End Engine.

(** Every call keeps the invariant and the frame. *)
Lemma run_wpost (funs : nat → list cmd) (x : nat) (idle nb : bool) (n : nat) :
  ∀ c s, free_job x idle (job_of c) → J x idle nb s → wpost x idle nb s (run funs n c s).
Proof.
  induction n as [|n IH]; intros c s Hc Hs; simpl; [done|].
  destruct c as [cx f|c]; simpl.
  - by apply wpost_exec_cmds.
  - apply wpost_bind; [by apply wpost_computed_scheduler|]. intros. by apply wpost_ret.
Qed.

Lemma WF_initial : WF initial.
Proof.
  split; simpl; try done.
  - constructor.
  - intros k e. unfold dep_of. simpl. rewrite lookup_empty. simpl. split.
    + by intros ?%elem_of_nil.
    + by intros (ef & ? & _).
Qed.


(** ** What holds of every call *)

Lemma run_keeps (funs : nat → list cmd) (n : nat) (c : call) (s : State) :
  WF s → ends_with (run funs n c s) (fun s' _ => WF s' ∧ Frame s s').
Proof.
  intros Hs.
  pose proof (run_wpost funs 0 false false n c s) as H.
  unfold wpost, ends_with in *.
  destruct (run funs n c s); [| |done];
    (destruct H as ((Hwf & _) & Hf & _); [done|by split_and!|by split]).
Qed.

End EngineProofs.

(** * Further properties of the engine *)

Module CoreExtras.

Import Core Examples MoreExamples Invariants Wellformed Utilities CoreProofs EngineProofs.

Lemma WF_after funs n c s : WF s → WF (after (run funs n c s)).
Proof.
  intros Hs. pose proof (run_keeps funs n c s Hs) as H.
  destruct (run funs n c s); simpl in *; [apply H|apply H|apply WF_initial].
Qed.

(** A stopped observer is in no dependency set. *)
Lemma stopped_unsubscribed e s :
  WF s → is_active s e = false → ∀ k, e ∉ dep_of s k.
Proof.
  intros Hs Ha k Hin. apply (wf_mirror s Hs) in Hin as (ef & He & Hk).
  unfold is_active in Ha. rewrite He in Ha.
  rewrite (wf_stopped s Hs e ef He Ha) in Hk. by apply elem_of_nil in Hk.
Qed.

(** ** The state the engine keeps *)

(** Whatever is called, with whatever user functions, and whether the call
    returns or throws, a well-formed state stays well-formed:
    [activeEffect] is the top of [effectStack]; [scheduledEffects] and
    [updateQueue] hold the same observers, once each; every dependency set
    holds an observer at most once, and holds it exactly when the [deps] of
    the observer list that set; a stopped observer has no dependency. *)
Theorem well_formed_states_are_kept (funs : nat → list cmd) (n : nat) (c : call) (s : State) :
  WF s → ends_with (run funs n c s) (fun s' _ => WF s').
Proof.
  intros Hs. pose proof (run_keeps funs n c s Hs) as H.
  unfold ends_with in *. destruct (run funs n c s); [apply H|apply H|done].
Qed.

(** A use of [well_formed_states_are_kept]: the state after the module is
    loaded is well-formed, and so is the state the program [batch_example]
    ends in. *)
Lemma well_formed_states_are_kept_witness :
  ends_with (run batch_example 4 (CallFunction no_ctx 0) initial) (fun s' _ => WF s').
Proof.
  apply (well_formed_states_are_kept batch_example 4 (CallFunction no_ctx 0) initial).
  split; simpl; try done.
  - constructor.
  - intros k e. unfold dep_of. simpl. rewrite lookup_empty. simpl. split.
    + by intros ?%elem_of_nil.
    + by intros (ef & ? & _).
Defined.

(** Every call leaves the stack of running observers as it found it, also
    when an observer, a getter or a cleanup throws: [effectStack] and
    [activeEffect] are what they were, and so is the [activeEffects] count
    of [getEffectStats]. *)
Theorem calls_restore_the_effect_stack (funs : nat → list cmd) (n : nat) (c : call) (s : State) :
  WF s →
  ends_with (run funs n c s) (fun s' _ =>
    effectStack s' = effectStack s ∧ activeEffect s' = activeEffect s ∧
    fst (getEffectStats s') = fst (getEffectStats s)).
Proof.
  intros Hs. pose proof (run_keeps funs n c s Hs) as H.
  unfold ends_with in *.
  destruct (run funs n c s); [| |done]; destruct H as [_ [? ? Hk Ha]];
    unfold getEffectStats; simpl; rewrite Hk; done.
Qed.

(** A use of [calls_restore_the_effect_stack]: the program [flush_continues],
    in which an observer throws during a flush, and its function 6, in which
    the exception reaches the caller. *)
Lemma calls_restore_the_effect_stack_witness :
  ends_with (run flush_continues 4 (CallFunction no_ctx 6) initial) (fun s' _ =>
    effectStack s' = effectStack initial ∧ activeEffect s' = activeEffect initial ∧
    fst (getEffectStats s') = fst (getEffectStats initial)).
Proof.
  apply (calls_restore_the_effect_stack flush_continues 4 (CallFunction no_ctx 6) initial).
  split; simpl; try done.
  - constructor.
  - intros k e. unfold dep_of. simpl. rewrite lookup_empty. simpl. split.
    + by intros ?%elem_of_nil.
    + by intros (ef & ? & _).
Defined.

(** An observer leaves a dependency set only by being stopped.  Running an
    observer again never unregisters it: a dependency it had stays, whether
    or not the new run reads the cell. *)
Theorem subscriptions_end_only_by_stop (funs : nat → list cmd) (n : nat) (c : call)
    (s : State) (k : target * string) (e : nat) :
  WF s → e ∈ dep_of s k →
  ends_with (run funs n c s) (fun s' _ =>
    e ∈ dep_of s' k ∨ ∃ ef, effects s' !! e = Some ef ∧ isActive ef = false).
Proof.
  intros Hs Hin. pose proof (run_keeps funs n c s Hs) as H.
  unfold ends_with in *.
  destruct (run funs n c s); [| |done]; destruct H as [_ Hf]; by apply (f_subs _ _ Hf).
Qed.

(** A use of [subscriptions_end_only_by_stop]: the observer of
    [batch_example], and a call of the function that writes its cells. *)
Lemma subscriptions_end_only_by_stop_witness :
  ends_with (run batch_example 3 (CallFunction no_ctx 2) batch_example_ready) (fun s' _ =>
    0 ∈ dep_of s' (TRef 0, "value") ∨ ∃ ef, effects s' !! 0 = Some ef ∧ isActive ef = false).
Proof.
  apply (subscriptions_end_only_by_stop batch_example 3 (CallFunction no_ctx 2)
           batch_example_ready (TRef 0, "value") 0).
  - exact (WF_after batch_example 3 (CallFunction no_ctx 0) initial WF_initial).
  - vm_compute. left.
Defined.

(** When [stop] ends, by returning or because the cleanup threw, the
    observer is inactive and is in no dependency set; and whatever is called
    later, an observer that was stopped is never in a dependency set again,
    not even when a job that a scheduler kept runs its body. *)
Theorem stop_unsubscribes (funs : nat → list cmd) (n : nat) (e : nat) (s : State) :
  WF s →
  ends_with (stop (run funs n) e s) (fun s' _ =>
    WF s' ∧ is_active s' e = false ∧ ∀ k, e ∉ dep_of s' k) ∧
  (∀ ef m c, effects s !! e = Some ef → isActive ef = false →
     ends_with (run funs m c s) (fun s' _ => ∀ k, e ∉ dep_of s' k)).
Proof.
  intros Hs. split.
  - pose proof (wpost_stop 0 false false (run funs n)
                  (run_wpost funs 0 false false n) e s) as H.
    pose proof (stop_leaves_inactive funs n e s) as Hi.
    unfold ends_with, wpost in *.
    destruct (stop (run funs n) e s); [| |done];
      (destruct H as ((Hwf & _) & _ & _); [by split_and!|];
       split_and!; [done..|by apply stopped_unsubscribed]).
  - intros ef m c He Ha. pose proof (run_keeps funs m c s Hs) as H.
    unfold ends_with in *.
    destruct (run funs m c s); [| |done]; destruct H as [Hwf Hf];
      destruct (f_effects _ _ Hf e ef He) as (ef' & He' & _ & _ & Hi);
      (apply stopped_unsubscribed; [done|]; unfold is_active; rewrite He'; auto).
Qed.

(** A use of [stop_unsubscribes]: the observer of [stop_example] is
    stopped. *)
Lemma stop_unsubscribes_witness :
  ends_with (stop (run stop_example 3) 0 stop_example_ready) (fun s' _ =>
    WF s' ∧ is_active s' 0 = false ∧ ∀ k, 0 ∉ dep_of s' k).
Proof.
  apply (stop_unsubscribes stop_example 3 0 stop_example_ready).
  exact (WF_after stop_example 3 (CallFunction no_ctx 0) initial WF_initial).
Defined.

(** An observer created with [lazy: true] is never run.  [effect] returns
    only the [stop] function, the observer is in no dependency set because it
    has not run, and nothing else holds it: whatever is called afterwards, no
    call enters the observer or its body. *)
Theorem lazy_effect_never_runs (funs : nat → list cmd) (n : nat) (f : nat)
    (sch : option nat) (s : State) :
  WF s → unused (length (effects s)) s →
  let e := length (effects s) in
  ∃ s1, effect (run funs n) (UpdateFn f) true sch s = Returned e s1 [] ∧
        WF s1 ∧ Idle e s1 ∧
        ∀ m c s2, WF s2 → Idle e s2 → job_of c ≠ Some e →
          ends_with (run funs m c s2) (fun s' t =>
            WF s' ∧ Idle e s' ∧ (EvInvoke e ∉ t) ∧ (EvBody e ∉ t)).
Proof.
  intros Hs Hu e. eexists. split; [reflexivity|].
  pose proof (J_new_effect 0 false false (UpdateFn f) (UserScheduler <$> sch) s) as Hn.
  assert (WF (set_effects (effects s ++
            [mkEffectFn (UpdateFn f) true None [] (UserScheduler <$> sch) VUndefined false]) s))
    as Hwf1 by (apply Hn; by split_and!).
  split_and!; [done| |].
  - unfold Idle. split_and!.
    + simpl. rewrite lookup_app_r by done. rewrite Nat.sub_diag. by eexists.
    + intros k Hin. unfold dep_of in Hin. simpl in Hin.
      apply (wf_mirror s Hs) in Hin as (ef & He & _).
      apply lookup_lt_Some in He. unfold e in He. lia.
    + exact Hu.
  - intros m c s2 Hs2 Hid Hjob.
    pose proof (run_wpost funs e true false m c s2) as H.
    unfold ends_with, wpost, silent in *.
    assert (free_job e true (job_of c)) as Hfree by (intros _; done).
    assert (J e true false s2) as HJ by (by split_and!).
    destruct (run funs m c s2); [| |done];
      destruct (H Hfree HJ) as ((Hwf & _ & Hi) & _ & Ht);
      specialize (Ht eq_refl); (split_and!; [done|by apply Hi|..]);
      intros Hin; eapply Forall_forall in Ht; try exact Hin; by destruct Ht.
Qed.

(** A use of [lazy_effect_never_runs]: a lazy observer created in the
    initial state. *)
Lemma lazy_effect_never_runs_witness :
  ∃ s1, effect (run lazy_example 3) (UpdateFn 1) true None initial = Returned 0 s1 [] ∧
        WF s1 ∧ Idle 0 s1 ∧
        ∀ m c s2, WF s2 → Idle 0 s2 → job_of c ≠ Some 0 →
          ends_with (run lazy_example m c s2) (fun s' t =>
            WF s' ∧ Idle 0 s' ∧ (EvInvoke 0 ∉ t) ∧ (EvBody 0 ∉ t)).
Proof.
  apply (lazy_effect_never_runs lazy_example 3 1 None initial).
  - split; simpl; try done.
    + constructor.
    + intros k e. unfold dep_of. simpl. rewrite lookup_empty. simpl. split.
      * by intros ?%elem_of_nil.
      * by intros (ef & ? & _).
  - unfold unused. simpl. split_and!; try apply not_elem_of_nil. intros c cr H. done.
Defined.

(** With [batchUpdates] switched off by [setConfig] no observer is ever
    queued: whatever is called afterwards, also inside [batch], both pending
    sets stay empty, and the option stays off. *)
Theorem nothing_queued_without_batching (funs : nat → list cmd) (n : nat) (c : call)
    (p : PartialConfig) (s : State) :
  WF s → updateQueue s = [] → p_batchUpdates p = Some false →
  ends_with (run funs n c (setConfig p s)) (fun s' _ =>
    updateQueue s' = [] ∧ scheduledEffects s' = [] ∧ batchUpdates (getConfig s') = false).
Proof.
  intros Hs Hq Hp.
  pose proof (run_wpost funs 0 false true n c (setConfig p s)) as H.
  assert (J 0 false true (setConfig p s)) as HJ.
  { split_and!; [|intros _|done].
    - destruct Hs. by split.
    - split; [|done]. simpl. by rewrite Hp. }
  assert (free_job 0 false (job_of c)) as Hfree by done.
  unfold ends_with, wpost in *.
  destruct (run funs n c (setConfig p s)); [| |done];
    (destruct (H Hfree HJ) as ((Hwf & Hnb & _) & _ & _);
     destruct (Hnb eq_refl) as [Hb Hq']; split_and!; [done| |done];
     by rewrite (wf_sched _ Hwf)).
Qed.

(** A use of [nothing_queued_without_batching]: the program
    [batch_example] run with the option switched off. *)
Lemma nothing_queued_without_batching_witness :
  ends_with (run batch_example 4 (CallFunction no_ctx 0)
               (setConfig (mkPartial None None (Some false) None None) initial))
    (fun s' _ =>
       updateQueue s' = [] ∧ scheduledEffects s' = [] ∧ batchUpdates (getConfig s') = false).
Proof.
  apply (nothing_queued_without_batching batch_example 4 (CallFunction no_ctx 0)
           (mkPartial None None (Some false) None None) initial).
  - split; simpl; try done.
    + constructor.
    + intros k e. unfold dep_of. simpl. rewrite lookup_empty. simpl. split.
      * by intros ?%elem_of_nil.
      * by intros (ef & ? & _).
  - reflexivity.
  - reflexivity.
Defined.


(** ** Reading a computed cell *)

Lemma track_returns t k s :
  ∃ s', track t k s = Returned tt s' [] ∧
        computeds s' = computeds s ∧ refs s' = refs s ∧ watches s' = watches s ∧
        activeEffect s' = activeEffect s ∧ effectStack s' = effectStack s ∧
        shouldTrack s' = shouldTrack s ∧
        (∀ j, e_body <$> effects s' !! j = e_body <$> effects s !! j) ∧
        (∀ j, cleanup <$> effects s' !! j = cleanup <$> effects s !! j) ∧
        (∀ j, is_active s' j = is_active s j) ∧
        (∀ e, activeEffect s = Some e → shouldTrack s = true → is_active s e = true →
              e ∈ dep_of s' (t, k)).
Proof.
  unfold track.
  destruct (activeEffect s) as [a|] eqn:Ha; [|exists s; by split_and!].
  destruct (shouldTrack s) eqn:Hk; simpl; [|exists s; by split_and!].
  destruct (is_active s a) eqn:Hact; simpl; [|exists s; split_and!; try done; congruence].
  case_bool_decide as Hin; [exists s; split_and!; try done; congruence|].
  eexists. split; [reflexivity|]. split_and!; try done.
  1-3: intros j; unfold is_active; simpl;
    (destruct (decide (a = j)) as [->|];
     [rewrite list_lookup_alter_eq; by destruct (effects s !! j)
     |by rewrite list_lookup_alter_ne]).
  intros e [= <-] _ _. unfold dep_of at 1. simpl. rewrite lookup_insert_eq. simpl.
  apply elem_of_app. right. by left.
Qed.

(** A read of a computed cell that returns is followed by a read that
    returns the same value without calling the getter: the second read makes
    no event at all, and changes neither the computed cells nor the
    cells. *)
Theorem computed_read_is_cached (rec : call → M value) (c : nat) (s s1 : State)
    (v : value) (t : list event) :
  computed_get rec c s = Returned v s1 t →
  ∃ s2, computed_get rec c s1 = Returned v s2 [] ∧
        computeds s2 = computeds s1 ∧ refs s2 = refs s1.
Proof.
  intros H.
  destruct (track_returns (TComputed c) "value" s1) as (s2 & Ht2 & Hc2 & Hr2 & _).
  assert (default VUndefined (c_value <$> computeds s1 !! c) = v ∧
          (∀ cr, computeds s1 !! c = Some cr → c_dirty cr = false)) as [Hv Hd].
  { unfold computed_get in H.
    destruct (track_returns (TComputed c) "value" s) as (s0 & Ht & Hc0 & _).
    rewrite (bind_returned _ _ _ _ _ _ Ht), prepend_nil in H.
    destruct (computeds s0 !! c) as [cr|] eqn:Ec.
    - destruct (c_dirty cr) eqn:Ed.
      + unfold bind in H at 1.
        destruct (computed_effectFn rec (c_runner cr) s0) as [v' s' t'| |]; [|done..].
        rewrite !bind_modify in H. simpl in H. injection H as <- <- _.
        split; [done|]. intros cr1. simpl. rewrite !list_lookup_alter_eq.
        destruct (computeds s' !! c); simpl; [|done]. by intros [= <-].
      + injection H as <- <- _. rewrite Ec. split; [done|]. by intros ? [= <-].
    - injection H as <- <- _. rewrite Ec. split; [done|]. by intros ? [=]. }
  exists s2. split_and!; [|done..].
  unfold computed_get. rewrite (bind_returned _ _ _ _ _ _ Ht2), prepend_nil.
  rewrite Hc2. destruct (computeds s1 !! c) as [cr|] eqn:Ec; simpl in *.
  - rewrite (Hd cr eq_refl). by subst v.
  - by subst v.
Qed.

(** A use of [computed_read_is_cached]: the computed cell of
    [computed_example], read twice in a row. *)
Lemma computed_read_is_cached_witness :
  ∃ s2, computed_get (run computed_example 3) 0
          (after (computed_get (run computed_example 3) 0 computed_example_ready))
        = Returned (num 0) s2 [] ∧
        computeds s2 = computeds (after (computed_get (run computed_example 3) 0 computed_example_ready)) ∧
        refs s2 = refs (after (computed_get (run computed_example 3) 0 computed_example_ready)).
Proof.
  apply (computed_read_is_cached (run computed_example 3) 0 computed_example_ready _ (num 0) []).
  vm_compute. reflexivity.
Defined.





(** ** Errors and [flushUpdates] in a batch *)





(** A call of [flushUpdates] made by the function given to [batch] resets
    the counter of open batches, so that [batch] leaves it at -1.  A later
    call of [batch] then finds the counter different from 0 when its
    function has returned and does not flush: no observer runs, batching
    stays on, and the observers of the cells that were written stay in the
    queue. *)
Theorem flush_in_batch_skews_the_counter (funs : nat → list cmd) (n d f g : nat) (s : State) :
  funs f = [FlushUpdates] →
  batchUpdates (config s) = true → updateQueue s = [] →
  writes_only funs d g = true → d ≤ S n →
  ∃ s1 v s2,
    batch (run funs (S n)) f s = Returned VUndefined s1 [] ∧
    batchStack s1 = (-1)%Z ∧ isBatching s1 = false ∧
    batch (run funs (S n)) g s1 = Returned v s2 [] ∧
    batchStack s2 = (-1)%Z ∧ isBatching s2 = true ∧
    (∀ e r, refs s2 !! r ≠ refs s1 !! r →
            e ∈ dep_of s1 (TRef r, "value") → is_active s1 e = true →
            activeEffect s1 ≠ Some e → e ∈ updateQueue s2).
Proof.
  intros Hf Hb Hq Hg Hd.
  pose (s1 := set_batchStack (-1)
                (set_scheduledEffects [] (set_updateQueue []
                   (set_batchStack 0 (set_isBatching false
                      (set_isBatching true (set_batchStack (batchStack s + 1) s))))))).
  assert (batch (run funs (S n)) f s = Returned VUndefined s1 []) as H1.
  { pose (sA := set_isBatching true (set_batchStack (batchStack s + 1) s)).
    assert (run funs (S n) (CallFunction no_ctx f) sA
            = Returned VUndefined
                (set_scheduledEffects [] (set_updateQueue []
                   (set_batchStack 0 (set_isBatching false sA)))) []) as Hcall.
    { change (run funs (S n) (CallFunction no_ctx f)) with
        (exec_cmds (run funs n) no_ctx (funs f) VUndefined).
      rewrite Hf. cbn [exec_cmds exec_cmd].
      assert (flushUpdates (run funs n) sA
              = Returned tt (set_scheduledEffects [] (set_updateQueue []
                               (set_batchStack 0 (set_isBatching false sA)))) []) as Hfl.
      { unfold flushUpdates, flushBatch. cbn [isBatching sA set_isBatching].
        rewrite bind_modify. change (updateQueue sA) with (updateQueue s). by rewrite Hq. }
      unfold bind. rewrite Hfl. reflexivity. }
    unfold batch. rewrite bind_modify. fold sA.
    unfold try_catch, bind at 1, call_function. rewrite Hcall.
    cbn [prepend]. rewrite bind_modify. reflexivity. }
  pose (s0 := set_isBatching true (set_batchStack (batchStack s1 + 1) s1)).
  assert (pending_ok s0) as Hp0.
  { split_and!; simpl; try done. constructor. }
  destruct (fn_phase funs d (S n) Hd no_ctx g s0 Hg Hp0) as (v & s2 & Hrun & Hgr & Hp2).
  exists s1, v, (set_batchStack (batchStack s2 - 1) s2). split_and!; try done.
  - unfold batch. rewrite bind_modify. fold s0.
    unfold try_catch, bind at 1, call_function. rewrite Hrun.
    cbn [prepend]. rewrite bind_modify. simpl.
    rewrite (g_stack _ _ Hgr). simpl. reflexivity.
  - simpl. rewrite (g_stack _ _ Hgr). reflexivity.
  - simpl. apply Hp2.
  - intros e r Hr Hdep Ha Hne. simpl in *.
    destruct (g_written _ _ Hgr r) as [Hsame|Hq2]; [done|]. by apply Hq2.
Qed.

(** A use of [flush_in_batch_skews_the_counter]: the program
    [flush_inside]. *)
Lemma flush_in_batch_skews_the_counter_witness :
  ∃ s1 v s2,
    batch (run flush_inside 3) 2 flush_inside_ready = Returned VUndefined s1 [] ∧
    batchStack s1 = (-1)%Z ∧ isBatching s1 = false ∧
    batch (run flush_inside 3) 3 s1 = Returned v s2 [] ∧
    batchStack s2 = (-1)%Z ∧ isBatching s2 = true ∧
    (∀ e r, refs s2 !! r ≠ refs s1 !! r →
            e ∈ dep_of s1 (TRef r, "value") → is_active s1 e = true →
            activeEffect s1 ≠ Some e → e ∈ updateQueue s2).
Proof.
  apply (flush_in_batch_skews_the_counter flush_inside 2 1 2 3 flush_inside_ready);
    first [lia | vm_compute; reflexivity].
Defined.

(** ** Watchers *)

Lemma ref_get_returns r s :
  ∃ s', ref_get r s = Returned (default VUndefined (refs s !! r)) s' [] ∧
        watches s' = watches s ∧
        activeEffect s' = activeEffect s ∧ effectStack s' = effectStack s ∧
        (∀ j, e_body <$> effects s' !! j = e_body <$> effects s !! j) ∧
        (∀ j, cleanup <$> effects s' !! j = cleanup <$> effects s !! j) ∧
        (∀ j, is_active s' j = is_active s j) ∧
        (∀ e, activeEffect s = Some e → shouldTrack s = true → is_active s e = true →
              e ∈ dep_of s' (TRef r, "value")).
Proof.
  destruct (track_returns (TRef r) "value" s)
    as (s' & Ht & _ & Hr & Hw & Ha & Hk & _ & Hb & Hc & Hi & Hd).
  exists s'. split_and!; try done.
  unfold ref_get. rewrite (bind_returned _ _ _ _ _ _ Ht). by rewrite Hr.
Qed.

Lemma after_body_prepend e t o : after_body e (prepend t o) = prepend t (after_body e o).
Proof. by destruct o. Qed.

Lemma effectFn_no_cleanup rec e ef s :
  effects s !! e = Some ef → cleanup ef = None →
  effectFn rec e s
  = prepend [EvInvoke e; EvBody e] (after_body e (call_update rec (e_body ef) (push_effect e s))).
Proof.
  intros He Hc. unfold effectFn. rewrite bind_emit.
  unfold bind at 1. rewrite He. simpl. rewrite Hc. simpl.
  unfold bind at 1. unfold try_finally. rewrite bind_modify, bind_emit.
  unfold bind at 1. simpl. rewrite He.
  destruct (call_update rec (e_body ef) (push_effect e s)) as [res s1 t| |]; simpl; [|done..].
  destruct res; simpl; by rewrite ?app_nil_r.
Qed.

Lemma watch_update_cell rec w r wr s sg v :
  watches s !! w = Some wr → w_source wr = SrcRef r →
  ref_get r s = Returned v sg [] → watches sg = watches s →
  watch_update rec w s =
  if isFirstRun wr then
    ((if w_immediate wr
      then call_callback rec w (WValue v) (WValue VUndefined)
      else ret tt) >>>
     modify (upd_watch w (set_oldValue (WValue v))) >>>
     modify (upd_watch w (set_isFirstRun false)) >>>
     ret VUndefined) sg
  else if hasChanged (oldValue wr) (WValue v) then
    ((match pendingCleanup wr with
      | Some pc =>
          emit (EvWatchCleanup w) >>>
          call_function rec no_ctx pc >>>
          modify (upd_watch w (set_pendingCleanup None))
      | None => ret tt
      end) >>>
     (fun s2 =>
        call_callback rec w (WValue v)
          (default (WValue VUndefined) (oldValue <$> watches s2 !! w)) s2) >>>
     modify (upd_watch w (set_oldValue (WValue v))) >>>
     ret VUndefined) sg
  else Returned VUndefined sg [].
Proof.
  intros Hw Hsrc Hget Hwg. unfold watch_update. rewrite Hw, Hsrc.
  cbn [getSourceValue]. unfold bind at 1. unfold bind at 1. rewrite Hget.
  cbn [prepend ret app]. rewrite Hwg, Hw. apply prepend_nil.
Qed.

Lemma bind_prepend {A B} t (m : M A) (k : A → M B) s :
  bind (fun s => prepend t (m s)) k s = prepend t (bind m k s).
Proof.
  unfold bind. destruct (m s) as [a s1 t1| |]; simpl; [|done..].
  by rewrite prepend_prepend.
Qed.


Lemma call_callback_known rec w wr new old s :
  watches s !! w = Some wr →
  call_callback rec w new old s
  = prepend [EvCallback w new old]
      ((call_function rec (mkCtx (wvalue_arg new) None (Some w)) (w_callback wr) >>> ret tt) s).
Proof. intros Hw. unfold call_callback. by rewrite Hw. Qed.

(** [watch(cell, callback)] runs the observer it creates once, at once.
    Without [immediate] the callback is not called: the value of the cell is
    kept as the old value, and the observer is registered on the cell.  With
    [immediate] the callback is called during that first run, with the value
    of the cell and [undefined]. *)
Theorem watch_first_run (rec : call → M value) (r cb : nat) (s : State) :
  let w := length (watches s) in
  let e := length (effects s) in
  let v := default VUndefined (refs s !! r) in
  (∃ s', watch rec (SrcRef r) cb false s = Returned w s' [EvInvoke e; EvBody e] ∧
         watches s' !! w = Some (mkWatch (SrcRef r) cb false (WValue v) false None e) ∧
         (∃ ef, effects s' !! e = Some ef ∧ e_body ef = WatchUpdate w ∧ isActive ef = true) ∧
         (shouldTrack s = true → e ∈ dep_of s' (TRef r, "value"))) ∧
  (∃ o, watch rec (SrcRef r) cb true s
        = prepend [EvInvoke e; EvBody e; EvCallback w (WValue v) (WValue VUndefined)] o).
Proof.
  intros w e v.
  assert (∀ imm, ∃ sg,
    let wr := mkWatch (SrcRef r) cb imm (WValue VUndefined) true None e in
    watches sg !! w = Some wr ∧
    (∃ ef', effects sg !! e = Some ef' ∧ e_body ef' = WatchUpdate w ∧ isActive ef' = true) ∧
    (shouldTrack s = true → e ∈ dep_of sg (TRef r, "value")) ∧
    watch rec (SrcRef r) cb imm s =
    (let* _ :=
       (let* _ :=
          (fun s0 => prepend [EvInvoke e; EvBody e]
             (after_body e
                (((if imm
                   then call_callback rec w (WValue v) (WValue VUndefined)
                   else ret tt) >>>
                  modify (upd_watch w (set_oldValue (WValue v))) >>>
                  modify (upd_watch w (set_isFirstRun false)) >>>
                  ret VUndefined) sg)))
        in ret e)
     in ret w) s) as Hstep.
  { intros imm. cbv zeta.
    set (wr := mkWatch (SrcRef r) cb imm (WValue VUndefined) true None e).
    set (ef := mkEffectFn (WatchUpdate w) true None [] None VUndefined false).
    set (sa := set_effects (effects s ++ [ef]) (set_watches (watches s ++ [wr]) s)).
    destruct (ref_get_returns r (push_effect e sa))
      as (sg & Hget & Hw & Ha & Hk & Hb & Hc & Hi & Hd).
    assert (refs (push_effect e sa) = refs s) as Hrefs by reflexivity.
    rewrite Hrefs in Hget. fold v in Hget.
    assert (effects sa !! e = Some ef) as Hea.
    { unfold sa. simpl. rewrite lookup_app_r by done. unfold e. by rewrite Nat.sub_diag. }
    assert (watches sa !! w = Some wr) as Hwa.
    { unfold sa. simpl. rewrite lookup_app_r by done. unfold w. by rewrite Nat.sub_diag. }
    exists sg. split_and!.
    - by rewrite Hw.
    - specialize (Hb e). specialize (Hi e). unfold is_active in Hi.
      change (effects (push_effect e sa)) with (effects sa) in Hb, Hi.
      rewrite Hea in Hb, Hi. destruct (effects sg !! e) as [ef'|]; [|done].
      exists ef'. injection Hb as Hb. by split_and!.
    - intros Hst. apply Hd; [done|done|]. unfold is_active.
      change (effects (push_effect e sa)) with (effects sa). by rewrite Hea.
    - unfold watch. rewrite bind_modify. unfold bind at 1 4. f_equal.
      unfold effect. rewrite bind_modify. unfold bind at 1 4. f_equal.
      unfold bind at 1. simpl. fold w e wr ef sa.
      rewrite (effectFn_no_cleanup rec e ef sa Hea eq_refl). simpl.
      by rewrite (watch_update_cell rec w r wr (push_effect e sa) sg v Hwa eq_refl Hget Hw). }
  split.
  - destruct (Hstep false) as (sg & Hw & He & Hd & ->).
    exists (pop_effect (upd_watch w (set_isFirstRun false)
                          (upd_watch w (set_oldValue (WValue v)) sg))).
    split_and!; [reflexivity| |done..].
    unfold pop_effect, upd_watch. cbn [watches set_watches set_activeEffect set_effectStack].
    rewrite !list_lookup_alter_eq. cbv zeta in Hw.
    destruct (watches sg !! w) as [wr0|]; [|done]. by injection Hw as ->.
  - destruct (Hstep true) as (sg & Hw & He & Hd & ->). cbv zeta in Hw.
    assert (∃ o1,
      ((call_callback rec w (WValue v) (WValue VUndefined) >>>
        modify (upd_watch w (set_oldValue (WValue v))) >>>
        modify (upd_watch w (set_isFirstRun false)) >>> ret VUndefined) sg)
      = prepend [EvCallback w (WValue v) (WValue VUndefined)] o1) as [o1 ->].
    { unfold bind at 1. rewrite (call_callback_known rec w _ _ _ sg Hw).
      destruct ((call_function rec _ _ >>> ret tt) sg) as [a s1 t|s1 t|];
        cbn [prepend].
      - eexists (prepend t _). rewrite prepend_prepend. reflexivity.
      - by exists (Thrown s1 t).
      - by exists OutOfFuel. }
    rewrite after_body_prepend, prepend_prepend.
    unfold bind. destruct (after_body e o1) as [a s1 t|s1 t|]; cbn [prepend ret app].
    + exists (Returned w s1 t). cbn [prepend]. by rewrite !app_nil_r.
    + by exists (Thrown s1 t).
    + by exists OutOfFuel.
Qed.



(** ** Tracking *)

(** [track] never fails and is idempotent.  When an observer is running,
    is active and tracking is not paused, the observer is afterwards in the
    dependency set of the target and key.  If it was in the set already,
    nothing changes; otherwise it is added at the end of the set and the set
    at the end of the [deps] of the observer.  The other dependency sets are
    left as they are.  When no observer is running, when tracking is paused
    or when the running observer has been stopped, [track] changes
    nothing. *)
Theorem track_registers_once (t : target) (k : string) (s : State) :
  ∃ s', track t k s = Returned tt s' [] ∧
        track t k s' = Returned tt s' [] ∧
        (∀ e, activeEffect s = Some e → shouldTrack s = true → is_active s e = true →
           e ∈ dep_of s' (t, k) ∧
           (e ∈ dep_of s (t, k) → s' = s) ∧
           (e ∉ dep_of s (t, k) →
              dep_of s' (t, k) = dep_of s (t, k) ++ [e] ∧
              deps <$> effects s' !! e
              = (fun d => d ++ [(t, k)]) <$> (deps <$> effects s !! e)) ∧
           (∀ k', k' ≠ (t, k) → dep_of s' k' = dep_of s k')) ∧
        ((activeEffect s = None ∨ shouldTrack s = false ∨
          ∃ e, activeEffect s = Some e ∧ is_active s e = false) → s' = s).
Proof.
  unfold track at 1.
  destruct (activeEffect s) as [a|] eqn:Ha.
  2:{ exists s. split_and!; try done. unfold track. by rewrite Ha. }
  destruct (shouldTrack s) eqn:Hk; simpl.
  2:{ exists s. split_and!; try done. unfold track. by rewrite Ha, Hk. }
  destruct (is_active s a) eqn:Hact; simpl.
  2:{ exists s. split_and!; try done.
      - unfold track. by rewrite Ha, Hk, Hact.
      - intros e [= <-] _ ?. congruence. }
  case_bool_decide as Hin.
  { exists s. split_and!; try done.
    - unfold track. rewrite Ha, Hk, Hact. simpl. by rewrite bool_decide_eq_true_2.
    - intros e [= <-] _ _. by split_and!. }
  eexists. split; [reflexivity|]. split_and!.
  - unfold track. cbn [activeEffect upd_effect set_effects set_targetMap shouldTrack].
    rewrite Ha, Hk. unfold is_active in *.
    cbn [effects upd_effect set_effects set_targetMap].
    rewrite list_lookup_alter_eq. destruct (effects s !! a) as [ef|]; [|done].
    simpl. rewrite Hact. simpl.
    rewrite bool_decide_eq_true_2; [done|].
    unfold dep_of. simpl. rewrite lookup_insert_eq. simpl. apply elem_of_app. right. by left.
  - intros e [= <-] _ _. split_and!.
    + unfold dep_of at 1. simpl. rewrite lookup_insert_eq. simpl. apply elem_of_app.
      right. by left.
    + done.
    + intros _. split.
      * unfold dep_of at 1. simpl. by rewrite lookup_insert_eq.
      * simpl. rewrite list_lookup_alter_eq. by destruct (effects s !! a).
    + intros k' Hk'. unfold dep_of. simpl. by rewrite lookup_insert_ne.
  - intros [?|[?|(e & ? & ?)]]; congruence.
Qed.

(** ** Starting afresh *)

(** After [clearReactivityState] no observer is notified of anything: a
    write to a cell stores the value and calls nobody, and [trigger] finds no
    dependency set.  The configuration is the default one again, whatever
    [setConfig] had set, nothing is queued and no observer counts as running;
    the observers themselves are as they were, still active.  Clearing twice
    is the same as clearing once. *)
Theorem clearing_disconnects_every_observer (rec : call → M value) (r : nat) (v : value)
    (s : State) :
  let s0 := clearReactivityState s in
  ref_set rec r v s0
  = Returned tt (if Object_is (default VUndefined (refs s !! r)) v
                 then s0 else set_refs (<[r := v]> (refs s)) s0) [] ∧
  (∀ t k, trigger rec t k s0 = Returned tt s0 []) ∧
  getConfig s0 = DEFAULT_CONFIG ∧
  getEffectStats s0 = (0, 0) ∧
  effects s0 = effects s ∧
  clearReactivityState s0 = s0.
Proof.
  cbv zeta. split_and!; try reflexivity.
  unfold ref_set. cbn [refs clearReactivityState].
  destruct (Object_is (default VUndefined (refs s !! r)) v); simpl; [reflexivity|].
  rewrite bind_modify. reflexivity.
Qed.

(** ** The change test of a watcher *)


End CoreExtras.

(** * Further properties of the observed wrapper *)

Module ObservedExtras.

Import Core Observed ObservedExamples ObservedProofs.

Lemma key_of_Z_nat (n : nat) : key_of_Z (Z.of_nat n) = KIndex n.
Proof.
  destruct n as [|n]; [reflexivity|]. simpl. f_equal. apply SuccNat2Pos.id_succ.
Qed.

(** ** [reactive] *)




(** ** The traps of an object *)








(** ** The traps of an array *)

Lemma proxy_call_array (t : nat) (m : method) (elems : list (option value))
    (extra : gmap key value) (s : OState) :
  obj_at s t = Some (Array elems extra) →
  proxy_call t m s
  = match array_method_handler t m s with
    | Some (r, s', n) => Some (r, s', Track t (KProp (method_name m)) :: n)
    | None => None
    end.
Proof.
  intros Ho. unfold proxy_call, obind at 1, proxy_get.
  rewrite bool_decide_eq_false_2 by (by destruct m).
  rewrite Ho. unfold is_array. rewrite Ho.
  assert (is_mutating_method (KProp (method_name m)) = Some (method_name m)) as ->
    by (by destruct m).
  unfold obind, track, note_, oret.
  by destruct (array_method_handler t m s) as [[[r s'] n]|].
Qed.

Lemma handleArrayMethodTriggers_returns (t : nat) (m : method) (s : OState) :
  ∃ n, handleArrayMethodTriggers t m s = Some (tt, s, n).
Proof. unfold handleArrayMethodTriggers. by eexists. Qed.

Lemma obind_Some {A B} (m : O A) (k : A → O B) s a s1 n1 :
  m s = Some (a, s1, n1) →
  obind m k s = match k a s1 with
                | Some (b, s2, n2) => Some (b, s2, n1 ++ n2)
                | None => None
                end.
Proof. unfold obind. by intros ->. Qed.

Lemma array_method_handler_spec (t : nat) (m : method) (elems : list (option value))
    (extra : gmap key value) (s : OState) :
  obj_at s t = Some (Array elems extra) →
  let s' := set_tracking true
              (store t (Array (apply_method m elems).1 extra) (set_tracking false s)) in
  ∃ n, handleArrayMethodTriggers t m s' = Some (tt, s', n) ∧
       array_method_handler t m s
       = Some ((apply_method m elems).2, s',
               (if bool_decide (length (apply_method m elems).1 ≠ length elems)
                then [Trigger t KLength] else [])
               ++ Trigger t (KProp "keys") :: n) ∧
       obj_at s' t = Some (Array (apply_method m elems).1 extra) ∧
       tracking s' = true.
Proof.
  intros Ho s'.
  destruct (handleArrayMethodTriggers_returns t m s') as [n Hh].
  exists n. split_and!; [done| | |done].
  - unfold array_method_handler. rewrite Ho.
    destruct (apply_method m elems) as [elems' result] eqn:Ha. simpl in s', Hh |- *.
    fold s'.
    rewrite (obind_Some _ _ s' tt s'
               (if bool_decide (length elems' ≠ length elems) then [Trigger t KLength] else []))
      by (by destruct (bool_decide _)).
    rewrite (obind_Some _ _ s' tt s' [Trigger t (KProp "keys")]) by done.
    rewrite (obind_Some _ _ s' tt s' n) by done.
    unfold oret. by rewrite app_nil_r.
  - unfold s', obj_at, store. simpl. apply list_lookup_insert_eq. by eapply lookup_lt_Some.
Qed.

(** The notifications of a mutating method called through the proxy of an
    array, for given keys of [handleArrayMethodTriggers]. *)
Lemma proxy_call_notes (t : nat) (m : method) (elems : list (option value))
    (extra : gmap key value) (s : OState) (keys : list key) :
  obj_at s t = Some (Array elems extra) →
  (∀ s', obj_at s' t = Some (Array (apply_method m elems).1 extra) →
         handleArrayMethodTriggers t m s' = Some (tt, s', Trigger t <$> keys)) →
  ∃ s', proxy_call t m s
        = Some ((apply_method m elems).2, s',
                Track t (KProp (method_name m))
                :: (if bool_decide (length (apply_method m elems).1 ≠ length elems)
                    then [Trigger t KLength] else [])
                ++ Trigger t (KProp "keys") :: (Trigger t <$> keys)) ∧
        obj_at s' t = Some (Array (apply_method m elems).1 extra) ∧
        tracking s' = true.
Proof.
  intros Ho Hkeys.
  destruct (array_method_handler_spec t m elems extra s Ho) as (n & Hh & Hm & Ho' & Ht).
  rewrite (Hkeys _ Ho') in Hh. injection Hh as <-.
  eexists. split_and!; [|exact Ho'|exact Ht].
  rewrite (proxy_call_array t m elems extra s Ho), Hm. reflexivity.
Qed.

(** [push] and [unshift] called through the proxy of an array of length
    [L] with [n] items: the read of the method is tracked; ["length"] is
    triggered when an item was added, ["keys"] always; then [push] triggers
    the indices [L], ..., [L + n - 1] of the new items, and [unshift] the
    indices [0], ..., [n - 1] and no other, although every element has
    moved.  Tracking is on afterwards. *)
Theorem push_and_unshift_notifications (t : nat) (items : list value)
    (elems : list (option value)) (extra : gmap key value) (s : OState) :
  obj_at s t = Some (Array elems extra) →
  let L := length elems in
  let n := length items in
  (∃ s', proxy_call t (MPush items) s
         = Some (length_value (L + n), s',
                 Track t (KProp "push")
                 :: (if bool_decide (n ≠ 0) then [Trigger t KLength] else [])
                 ++ Trigger t (KProp "keys")
                 :: ((fun i => Trigger t (KIndex (L + i))) <$> seq 0 n)) ∧
         obj_at s' t = Some (Array (elems ++ (Some <$> items)) extra) ∧
         tracking s' = true) ∧
  (∃ s', proxy_call t (MUnshift items) s
         = Some (length_value (n + L), s',
                 Track t (KProp "unshift")
                 :: (if bool_decide (n ≠ 0) then [Trigger t KLength] else [])
                 ++ Trigger t (KProp "keys")
                 :: ((fun i => Trigger t (KIndex i)) <$> seq 0 n)) ∧
         obj_at s' t = Some (Array ((Some <$> items) ++ elems) extra) ∧
         tracking s' = true).
Proof.
  intros Ho L n. split.
  - destruct (proxy_call_notes t (MPush items) elems extra s
                ((fun i => KIndex (L + i)) <$> seq 0 n) Ho) as (s' & Hc & Ho' & Ht).
    { intros s' Hs'. unfold handleArrayMethodTriggers. do 2 f_equal.
      cbn [args_length]. fold n. rewrite Nat2Z.id, <- !list_fmap_compose.
      apply list_fmap_ext. intros _ i _. cbn [compose]. rewrite Hs'. cbn [apply_method fst].
      rewrite length_app, length_fmap. fold L n.
      replace (Z.of_nat (L + n) - Z.of_nat n + Z.of_nat i)%Z with (Z.of_nat (L + i)) by lia.
      by rewrite key_of_Z_nat. }
    exists s'. split_and!; [|done..].
    rewrite Hc. simpl. rewrite length_app, length_fmap. fold L n.
    rewrite <- list_fmap_compose.
    assert (bool_decide (L + n ≠ L) = bool_decide (n ≠ 0)) as ->
      by (apply bool_decide_ext; lia).
    reflexivity.
  - destruct (proxy_call_notes t (MUnshift items) elems extra s
                (KIndex <$> seq 0 n) Ho) as (s' & Hc & Ho' & Ht).
    { intros s' Hs'. unfold handleArrayMethodTriggers. do 2 f_equal.
      cbn [args_length]. fold n. rewrite Nat2Z.id, <- !list_fmap_compose.
      apply list_fmap_ext. intros _ i _. cbn [compose].
      by rewrite Z.add_0_l, key_of_Z_nat. }
    exists s'. split_and!; [|done..].
    rewrite Hc. simpl. rewrite length_app, length_fmap. fold L n.
    rewrite <- list_fmap_compose.
    assert (bool_decide (n + L ≠ L) = bool_decide (n ≠ 0)) as ->
      by (apply bool_decide_ext; lia).
    reflexivity.
Qed.

(** A use of [push_and_unshift_notifications]: [push(3)] on the array
    [[1, 2]]. *)
Lemma push_and_unshift_notifications_witness :
  ∃ s', proxy_call 0 (MPush [num 3]) array_state
        = Some (length_value (2 + 1), s',
                Track 0 (KProp "push")
                :: (if bool_decide (1 ≠ 0) then [Trigger 0 KLength] else [])
                ++ Trigger 0 (KProp "keys")
                :: ((fun i => Trigger 0 (KIndex (2 + i))) <$> seq 0 1)) ∧
        obj_at s' 0 = Some (Array ([Some (num 1); Some (num 2)] ++ (Some <$> [num 3])) ∅) ∧
        tracking s' = true.
Proof.
  refine (proj1 (push_and_unshift_notifications 0 [num 3] [Some (num 1); Some (num 2)] ∅
                   array_state _)).
  reflexivity.
Defined.

(** [pop] and [shift] called through the proxy of an array that is not
    empty trigger ["length"], ["keys"] and one index: [pop] the index of the
    element removed, [shift] the index 0 and no other, although every element
    left has moved.  On an empty array the two trigger ["keys"] and the index
    0, and not ["length"]. *)
Theorem pop_and_shift_notifications (t : nat) (x : option value)
    (elems : list (option value)) (extra : gmap key value) (s : OState) :
  (obj_at s t = Some (Array (elems ++ [x]) extra) →
   ∃ s', proxy_call t MPop s
         = Some (default VUndefined x, s',
                 [Track t (KProp "pop"); Trigger t KLength; Trigger t (KProp "keys");
                  Trigger t (KIndex (length elems))]) ∧
         obj_at s' t = Some (Array elems extra)) ∧
  (obj_at s t = Some (Array (x :: elems) extra) →
   ∃ s', proxy_call t MShift s
         = Some (default VUndefined x, s',
                 [Track t (KProp "shift"); Trigger t KLength; Trigger t (KProp "keys");
                  Trigger t (KIndex 0)]) ∧
         obj_at s' t = Some (Array elems extra)) ∧
  (obj_at s t = Some (Array [] extra) →
   ∃ s', proxy_call t MPop s
         = Some (VUndefined, s',
                 [Track t (KProp "pop"); Trigger t (KProp "keys"); Trigger t (KIndex 0)]) ∧
         proxy_call t MShift s
         = Some (VUndefined, s',
                 [Track t (KProp "shift"); Trigger t (KProp "keys"); Trigger t (KIndex 0)]) ∧
         obj_at s' t = Some (Array [] extra)).
Proof.
  assert (apply_method MPop (elems ++ [x]) = (elems, default VUndefined x)) as Hpop.
  { simpl. rewrite reverse_snoc. rewrite length_app. simpl.
    replace (length elems + 1 - 1) with (length elems) by lia.
    by rewrite take_app_length. }
  split_and!.
  - intros Ho.
    destruct (proxy_call_notes t MPop (elems ++ [x]) extra s [KIndex (length elems)] Ho)
      as (s' & Hc & Ho' & _).
    { intros s' Hs'. unfold handleArrayMethodTriggers. rewrite Hs', Hpop. reflexivity. }
    exists s'. rewrite Hpop in *. split; [|done]. rewrite Hc.
    rewrite bool_decide_eq_true_2; [done|]. rewrite length_app. simpl. lia.
  - intros Ho.
    destruct (proxy_call_notes t MShift (x :: elems) extra s [KIndex 0] Ho)
      as (s' & Hc & Ho' & _).
    { intros s' Hs'. unfold handleArrayMethodTriggers. reflexivity. }
    exists s'. split; [|done]. rewrite Hc. simpl.
    rewrite bool_decide_eq_true_2; [done|]. lia.
  - intros Ho.
    destruct (proxy_call_notes t MPop [] extra s [KIndex 0] Ho) as (s' & Hc & Ho' & _).
    { intros s' Hs'. unfold handleArrayMethodTriggers. rewrite Hs'. reflexivity. }
    destruct (proxy_call_notes t MShift [] extra s [KIndex 0] Ho) as (s2 & Hc2 & Ho2 & _).
    { intros s2 Hs2. unfold handleArrayMethodTriggers. reflexivity. }
    exists s'. split_and!; [done| |done].
    rewrite Hc2. simpl in *. rewrite (proxy_call_array t MPop [] extra s Ho) in Hc.
    rewrite (proxy_call_array t MShift [] extra s Ho) in Hc2.
    unfold array_method_handler in *. rewrite Ho in *. simpl in *.
    injection Hc as <-. injection Hc2 as <-. reflexivity.
Qed.

(** A use of [pop_and_shift_notifications]: [shift()] on the array
    [[1, 2]]. *)
Lemma pop_and_shift_notifications_witness :
  ∃ s', proxy_call 0 MShift array_state
        = Some (default VUndefined (Some (num 1)), s',
                [Track 0 (KProp "shift"); Trigger 0 KLength; Trigger 0 (KProp "keys");
                 Trigger 0 (KIndex 0)]) ∧
        obj_at s' 0 = Some (Array [Some (num 2)] ∅).
Proof.
  refine (proj1 (proj2 (pop_and_shift_notifications 0 (Some (num 1)) [Some (num 2)] ∅
                          array_state)) _).
  reflexivity.
Defined.



(** [splice(start, deleteCount, ...items)] called through the proxy of an
    array triggers ["length"] when the length changes, ["keys"], and then
    the keys [start + i] for [i] below [deleteCount] and again for [i] below
    the number of items, with [start] as it was passed: the elements that
    move behind the spliced part are not triggered, and for a [start]
    counted from the end, with [start + deleteCount] and [start] plus the
    number of items not above 0, no index of the array is triggered at
    all. *)
Theorem splice_notifications (t : nat) (start d : Z) (items : list value)
    (elems : list (option value)) (extra : gmap key value) (s : OState) :
  obj_at s t = Some (Array elems extra) →
  let m := MSplice start (Some d) items in
  let at_ (i : nat) := Trigger t (key_of_Z (start + Z.of_nat i)) in
  ∃ r s' n,
    proxy_call t m s = Some (r, s', n) ∧
    obj_at s' t = Some (Array (apply_method m elems).1 extra) ∧
    n = Track t (KProp "splice")
        :: (if bool_decide (length (apply_method m elems).1 ≠ length elems)
            then [Trigger t KLength] else [])
        ++ Trigger t (KProp "keys")
        :: (at_ <$> seq 0 (Z.to_nat d)) ++ (at_ <$> seq 0 (length items)) ∧
    ((start + d ≤ 0)%Z → (start + Z.of_nat (length items) ≤ 0)%Z →
     ∀ i, Trigger t (KIndex i) ∉ n).
Proof.
  intros Ho m at_.
  destruct (proxy_call_notes t m elems extra s
              ((key_of_Z <$> ((fun i => (start + Z.of_nat i)%Z) <$> seq 0 (Z.to_nat d)))
               ++ (key_of_Z <$> ((fun i => (start + Z.of_nat i)%Z) <$> seq 0 (length items))))
              Ho) as (s' & Hc & Ho' & _).
  { intros s' _. unfold handleArrayMethodTriggers. cbn [m args_length default].
    replace (Z.to_nat (Z.of_nat (2 + length items) - 2)) with (length items) by lia.
    reflexivity. }
  eexists _, s', _. split_and!; [exact Hc|exact Ho'| |].
  - cbn [m method_name]. do 3 f_equal.
    rewrite fmap_app, <- !list_fmap_compose. reflexivity.
  - intros Hd Hi i Hin.
    assert (∀ j, (start + Z.of_nat j < 0)%Z → key_of_Z (start + Z.of_nat j) ≠ KIndex i) as Hneg.
    { intros j Hj. destruct (start + Z.of_nat j)%Z; [lia..|done]. }
    apply elem_of_cons in Hin as [|Hin]; [done|].
    apply elem_of_app in Hin as [Hin|Hin].
    { destruct (bool_decide _); [|by apply elem_of_nil in Hin].
      by apply list_elem_of_singleton in Hin. }
    apply elem_of_cons in Hin as [|Hin]; [done|].
    apply list_elem_of_fmap in Hin as (k & [= Hk] & Hin).
    apply elem_of_app in Hin as [Hin|Hin];
      apply list_elem_of_fmap in Hin as (z & -> & Hin);
      apply list_elem_of_fmap in Hin as (j & -> & Hin);
      apply elem_of_seq in Hin; (eapply Hneg; [|symmetry; exact Hk]); lia.
Qed.

(** A use of [splice_notifications]: [splice(-1, 1)] on the array [[1, 2]],
    which removes the element at index 1 and triggers the key ["-1"]. *)
Lemma splice_notifications_witness :
  ∃ r s' n,
    proxy_call 0 (MSplice (-1) (Some 1%Z) []) array_state = Some (r, s', n) ∧
    obj_at s' 0 = Some (Array [Some (num 1)] ∅) ∧
    n = [Track 0 (KProp "splice"); Trigger 0 KLength; Trigger 0 (KProp "keys");
         Trigger 0 (KNegative 1)] ∧
    ((-1 + 1 ≤ 0)%Z → (-1 + Z.of_nat 0 ≤ 0)%Z → ∀ i, Trigger 0 (KIndex i) ∉ n).
Proof.
  apply (splice_notifications 0 (-1) 1 [] [Some (num 1); Some (num 2)] ∅ array_state).
  reflexivity.
Defined.





End ObservedExtras.

(** * Properties of [deepEqual] *)

Module DeepProofs.

Import Core Observed Deep.

Lemma SFeqb_sym (x y : spec_float) : SFeqb x y = SFeqb y x.
Proof.
  unfold SFeqb, SFcompare.
  destruct x as [[]| [] | |[] m1 e1], y as [[]|[]| |[] m2 e2]; try reflexivity;
    rewrite (Z.compare_antisym e1 e2); destruct (e1 ?= e2)%Z; simpl; try reflexivity;
    change (Pos.compare_cont Eq m2 m1) with (m2 ?= m1)%positive;
    change (Pos.compare_cont Eq m1 m2) with (m1 ?= m2)%positive;
    rewrite (Pos.compare_antisym m1 m2); destruct (m1 ?= m2)%positive; reflexivity.
Qed.

Lemma strict_equals_sym (a b : value) : strict_equals a b = strict_equals b a.
Proof.
  destruct a, b; simpl; try reflexivity.
  - by destruct b, b0.
  - apply SFeqb_sym.
  - apply String.eqb_sym.
  - apply Nat.eqb_sym.
  - apply Nat.eqb_sym.
Qed.

Lemma index_keys_NoDup (elems : list (option value)) (n : nat) :
  NoDup (omap (fun p : nat * option value =>
                 match snd p with Some _ => Some (KIndex (fst p)) | None => None end)
              (zip (seq n (length elems)) elems)).
Proof.
  revert n. induction elems as [|e elems IH]; intros n; simpl; [constructor|].
  destruct e as [v|]; simpl; [|apply IH].
  constructor; [|apply IH].
  intros Hin. apply list_elem_of_omap in Hin as ([i e'] & Hin & He').
  destruct e'; simpl in He'; [|done]. injection He' as ->.
  apply elem_of_zip_l in Hin. apply elem_of_seq in Hin. lia.
Qed.

Lemma Object_keys_NoDup (h : list object) (x : nat) (o : object) :
  array_keys_ok h → h !! x = Some o → NoDup (Object_keys o).
Proof.
  intros Hok Ho. destruct o as [props|elems extra|b]; simpl.
  - apply NoDup_fst_map_to_list.
  - apply NoDup_app. split_and!.
    + apply index_keys_NoDup.
    + intros k Hk Hk'. apply list_elem_of_omap in Hk as ([i e'] & _ & He').
      destruct e'; simpl in He'; [|done]. simplify_eq.
      apply list_elem_of_fmap in Hk' as ([k' v'] & Heq & Hk'). simpl in Heq. subst k'.
      apply elem_of_map_to_list in Hk'.
      by rewrite (Hok x elems extra Ho i) in Hk'.
    + apply NoDup_fst_map_to_list.
  - constructor.
Qed.

Lemma compare_keys_true rec a b keysB keysA :
  compare_keys rec a b keysB keysA = Some true ↔
  ∀ k, k ∈ keysA → k ∈ keysB ∧ rec (Reflect_get a k) (Reflect_get b k) = Some true.
Proof.
  induction keysA as [|k ks IH]; simpl.
  - split; [intros _ k Hk; by apply elem_of_nil in Hk|done].
  - case_bool_decide as Hin; simpl.
    + destruct (rec (Reflect_get a k) (Reflect_get b k)) as [[]|] eqn:E.
      * rewrite IH. split.
        -- intros H k' [->|Hk']%elem_of_cons; [done|by apply H].
        -- intros H k' Hk'. apply H. by right.
      * split; [done|]. intros H. destruct (H k) as [_ H']; [by left|congruence].
      * split; [done|]. intros H. destruct (H k) as [_ H']; [by left|congruence].
    + split; [done|]. intros H. destruct (H k) as [H' _]; [by left|done].
Qed.

Lemma compare_keys_false rec a b keysB keysA :
  compare_keys rec a b keysB keysA = Some false →
  ∃ k, k ∈ keysA ∧ (k ∉ keysB ∨ rec (Reflect_get a k) (Reflect_get b k) = Some false).
Proof.
  induction keysA as [|k ks IH]; simpl; [done|].
  case_bool_decide as Hin; simpl.
  - destruct (rec (Reflect_get a k) (Reflect_get b k)) as [[]|] eqn:E.
    + intros H. destruct (IH H) as (k' & Hk' & H'). exists k'. split; [by right|done].
    + intros _. exists k. split; [by left|by right].
    + done.
  - intros _. exists k. split; [by left|by left].
Qed.

Lemma same_keys (l k : list key) :
  NoDup l → length l = length k → (∀ x, x ∈ l → x ∈ k) → ∀ x, x ∈ k → x ∈ l.
Proof.
  intros Hl Hlen Hsub x Hx.
  apply list_elem_of_In. apply (NoDup_length_incl (l := l) (l' := k)).
  - by apply NoDup_ListNoDup.
  - lia.
  - intros y Hy. apply list_elem_of_In. apply Hsub. by apply list_elem_of_In.
  - by apply list_elem_of_In.
Qed.

Lemma deepEqual_agree (h : list object) :
  array_keys_ok h →
  ∀ n m a b r1 r2,
    deepEqual n h a b = Some r1 → deepEqual m h b a = Some r2 → r1 = r2.
Proof.
  intros Hok. induction n as [|n IH]; intros m a b r1 r2; [done|].
  destruct m as [|m]; [done|]. simpl.
  rewrite (strict_equals_sym b a).
  destruct (strict_equals a b); [congruence|].
  rewrite (orb_comm (is_nullish b)).
  destruct (is_nullish a || is_nullish b); [congruence|].
  destruct a as [| | | | | |x], b as [| | | | | |y]; try congruence.
  destruct (h !! x) as [oa|] eqn:Hx; [|by destruct (h !! y)].
  destruct (h !! y) as [ob|] eqn:Hy; [|done].
  rewrite (Nat.eqb_sym (length (Object_keys ob))).
  destruct (length (Object_keys oa) =? length (Object_keys ob)) eqn:Hlen; simpl; [|congruence].
  apply Nat.eqb_eq in Hlen.
  pose proof (Object_keys_NoDup h x oa Hok Hx) as Hna.
  pose proof (Object_keys_NoDup h y ob Hok Hy) as Hnb.
  intros H1 H2. destruct r1, r2; try done.
  - pose proof (proj1 (compare_keys_true _ _ _ _ _) H1) as H1'. apply compare_keys_false in H2 as (k & Hk & H2).
    assert (k ∈ Object_keys oa) as Hka.
    { apply (same_keys (Object_keys oa) (Object_keys ob)); try done. intros z Hz. by apply H1'. }
    destruct (H1' k Hka) as [_ Hr]. destruct H2 as [H2|H2]; [done|].
    exact (IH m _ _ _ _ Hr H2).
  - pose proof (proj1 (compare_keys_true _ _ _ _ _) H2) as H2'. apply compare_keys_false in H1 as (k & Hk & H1).
    assert (k ∈ Object_keys ob) as Hkb.
    { apply (same_keys (Object_keys ob) (Object_keys oa)); try done. intros z Hz. by apply H2'. }
    destruct (H2' k Hkb) as [_ Hr]. destruct H1 as [H1|H1]; [done|].
    exact (IH m _ _ _ _ H1 Hr).
Qed.

Lemma deepEqual_true_sym (h : list object) :
  array_keys_ok h →
  ∀ n a b, deepEqual n h a b = Some true → deepEqual n h b a = Some true.
Proof.
  intros Hok. induction n as [|n IH]; intros a b; [done|]. simpl.
  rewrite (strict_equals_sym b a).
  destruct (strict_equals a b); [done|].
  rewrite (orb_comm (is_nullish b)).
  destruct (is_nullish a || is_nullish b); [done|].
  destruct a as [| | | | | |x], b as [| | | | | |y]; try done.
  destruct (h !! x) as [oa|] eqn:Hx; [|done].
  destruct (h !! y) as [ob|] eqn:Hy; [|done].
  rewrite (Nat.eqb_sym (length (Object_keys ob))).
  destruct (length (Object_keys oa) =? length (Object_keys ob)) eqn:Hlen; simpl; [|done].
  apply Nat.eqb_eq in Hlen.
  pose proof (Object_keys_NoDup h x oa Hok Hx) as Hna.
  intros H1. pose proof (proj1 (compare_keys_true _ _ _ _ _) H1) as H1'.
  apply compare_keys_true. intros k Hk.
  assert (k ∈ Object_keys oa) as Hka.
  { apply (same_keys (Object_keys oa) (Object_keys ob)); try done. intros z Hz. by apply H1'. }
  split; [done|]. apply IH. by apply H1'.
Qed.

(** [deepEqual] is symmetric.  Where [deepEqual(a, b)] returns [true],
    [deepEqual(b, a)] returns [true] as well, within the same depth of
    recursion; and whenever both calls return, they return the same. *)
Theorem deepEqual_symmetric (h : list object) (a b : value) (n : nat) :
  array_keys_ok h →
  (deepEqual n h a b = Some true → deepEqual n h b a = Some true) ∧
  (∀ m r1 r2, deepEqual n h a b = Some r1 → deepEqual m h b a = Some r2 → r1 = r2).
Proof.
  intros Hok. split.
  - by apply deepEqual_true_sym.
  - intros m r1 r2. by apply deepEqual_agree.
Qed.

(** A use of [deepEqual_symmetric]: the array [[1]] and the object
    [{0: 1}], which are equal for [deepEqual]. *)
Lemma deepEqual_symmetric_witness :
  deepEqual 2 deep_heap (VObject 0) (VObject 1) = Some true ∧
  deepEqual 2 deep_heap (VObject 1) (VObject 0) = Some true.
Proof.
  assert (deepEqual 2 deep_heap (VObject 0) (VObject 1) = Some true) as H
    by (vm_compute; reflexivity).
  split; [exact H|].
  refine (proj1 (deepEqual_symmetric deep_heap (VObject 0) (VObject 1) 2 _) H).
  intros x elems extra Hx i.
  destruct x as [|[|[|[|x]]]]; simpl in Hx; try discriminate.
  injection Hx as <- <-. apply lookup_empty.
Defined.

(** What [deepEqual] makes of values it does not go into.  Two values that
    are not objects are compared by [===]: NaN is not equal to NaN, and +0
    is equal to -0.  Two objects without an own enumerable key are equal
    whatever they are: any [Date] and any other [Date], a [Map] and a [Set],
    an empty object and an empty array.  And on two different objects that
    each hold themselves under the same key, the recursion never ends. *)
Theorem deepEqual_edge_cases (h : list object) (n : nat) :
  (∀ a b, isObject a = false → isObject b = false →
     deepEqual (S n) h a b = Some (strict_equals a b)) ∧
  deepEqual (S n) h NaN NaN = Some false ∧
  deepEqual (S n) h pos_zero neg_zero = Some true ∧
  (∀ x y oa ob, h !! x = Some oa → h !! y = Some ob →
     Object_keys oa = [] → Object_keys ob = [] →
     deepEqual (S n) h (VObject x) (VObject y) = Some true) ∧
  (∀ x y k, x ≠ y →
     h !! x = Some (Plain {[k := VObject x]}) →
     h !! y = Some (Plain {[k := VObject y]}) →
     deepEqual n h (VObject x) (VObject y) = None).
Proof.
  split_and!.
  - intros a b Ha Hb. simpl. destruct (strict_equals a b) eqn:E; [done|].
    destruct a, b; try done.
  - reflexivity.
  - reflexivity.
  - intros x y oa ob Hx Hy Ha Hb. simpl. rewrite Hx, Hy, Ha, Hb. simpl.
    by destruct (x =? y).
  - intros x y k Hne Hx Hy. induction n as [|n' IH]; [done|]. simpl.
    rewrite (proj2 (Nat.eqb_neq x y) Hne), Hx, Hy. simpl.
    rewrite !map_to_list_singleton. simpl.
    rewrite bool_decide_eq_true_2 by (by apply list_elem_of_singleton). simpl.
    rewrite !lookup_singleton_eq. simpl. by rewrite IH.
Qed.

End DeepProofs.
